(** * gorganize: the declaration sorter of [formatters/aifi.go]

    A shallow embedding of [aifiFormatter.Format] and of the functions it
    calls: the numeric-aware string comparison, the comparator handed to
    [slices.SortFunc], the extraction of declarations with their comment
    blocks, and the reassembly of the file with Go's slice and [append]
    semantics (slices are views into shared backing arrays). *)

From Stdlib Require Import List ZArith Lia Bool Arith Ascii String Permutation Sorted.
Import ListNotations.

Local Open Scope Z_scope.

(** ** Bytes and strings *)

Definition byte := ascii.

(** A Go [string] or the contents of a [[]byte], as the sequence of its bytes. *)
Definition bytes := list byte.

Definition b2n (b : byte) : nat := nat_of_ascii b.

Definition byte_eqb (x y : byte) : bool := Ascii.eqb x y.

Definition str (s : string) : bytes := list_ascii_of_string s.

(** [len(s)]. *)
Definition len (s : bytes) : nat := List.length s.

(** [cmp.Compare] on ordered values: -1, 0 or +1. *)
Definition cmpCompare_nat (x y : nat) : Z :=
  if (x <? y)%nat then -1 else if (y <? x)%nat then 1 else 0.

Definition cmpCompare_Z (x y : Z) : Z :=
  if x <? y then -1 else if y <? x then 1 else 0.

Definition cmpCompare_byte (x y : byte) : Z := cmpCompare_nat (b2n x) (b2n y).

(** [cmp.Compare] on strings: bytewise lexicographic, a strict prefix first. *)
Fixpoint cmpCompare_string (a b : bytes) : Z :=
  match a, b with
  | [], [] => 0
  | [], _ :: _ => -1
  | _ :: _, [] => 1
  | x :: a', y :: b' =>
      if byte_eqb x y then cmpCompare_string a' b' else cmpCompare_byte x y
  end.

Fixpoint bytes_eqb (a b : bytes) : bool :=
  match a, b with
  | [], [] => true
  | x :: a', y :: b' => byte_eqb x y && bytes_eqb a' b'
  | _, _ => false
  end.

(** ** The numeric-aware comparison *)

(** [isDigit]: [b >= '0' && b <= '9']. *)
Definition isDigit (b : byte) : bool :=
  (48 <=? b2n b)%nat && (b2n b <=? 57)%nat.

(** The inner loop of [parseNumber]: [for j < len(s) && isDigit(s[j]) { j++ }],
    run on the bytes of [s] from index [j] on; the result is the final [j]. *)
Fixpoint scanDigits (rest : bytes) (j : nat) : nat :=
  match rest with
  | c :: rest' => if isDigit c then scanDigits rest' (S j) else j
  | [] => j
  end.

(** [strings.TrimLeft(s, "0")]. *)
Fixpoint trimLeftZeros (s : bytes) : bytes :=
  match s with
  | c :: s' => if byte_eqb c "0"%char then trimLeftZeros s' else s
  | [] => []
  end.

(** The Go slice expression [s[i:j]] on a string, for [i <= j <= len(s)]. *)
Definition substr (s : bytes) (i j : nat) : bytes := firstn (j - i) (skipn i s).

(** [parseNumber(s, i)]: the digit run that starts at [i] with its leading
    zeros removed, and the index of the first byte after the run.  As in the
    source, [s[i]] itself is not inspected: the scan starts at [i + 1]. *)
Definition parseNumber (s : bytes) (i : nat) : bytes * nat :=
  let j := scanDigits (skipn (S i) s) (S i) in
  (trimLeftZeros (substr s i j), j).

(** The loop of [compareStringsWithWholeNumbers] with its two cursors.  Each
    turn advances [i], so [len(a) - i] turns are enough; [fuel] counts them
    and [None] is only reached when it runs out. *)
Fixpoint compareLoop (fuel : nat) (a b : bytes) (i j : nat) : option Z :=
  match nth_error a i, nth_error b j with
  | Some ai, Some bj =>
      if negb (byte_eqb ai bj) then Some (cmpCompare_byte ai bj)
      else
        match fuel with
        | O => None
        | S fuel' =>
            if negb (isDigit ai) then compareLoop fuel' a b (S i) (S j)
            else
              let '(aNum, i') := parseNumber a i in
              let '(bNum, j') := parseNumber b j in
              if negb (bytes_eqb aNum bNum) then
                if negb (len aNum =? len bNum)%nat
                then Some (cmpCompare_nat (len aNum) (len bNum))
                else Some (cmpCompare_string aNum bNum)
              else compareLoop fuel' a b i' j'
        end
  | Some _, None => Some 1
  | None, Some _ => Some (-1)
  | None, None => Some 0
  end.

Definition compareStringsWithWholeNumbers_opt (a b : string) : option Z :=
  compareLoop (len (str a)) (str a) (str b) 0 0.

(** [compareStringsWithWholeNumbers(a, b)]. *)
Definition compareStringsWithWholeNumbers (a b : string) : Z :=
  match compareStringsWithWholeNumbers_opt a b with
  | Some r => r
  | None => 0
  end.

Definition mainMethod : string := "main".

(** [compareFuncNames]: the name "main" first, otherwise numeric-aware. *)
Definition compareFuncNames (a b : string) : Z :=
  if String.eqb a mainMethod then -1
  else if String.eqb b mainMethod then 1
  else compareStringsWithWholeNumbers a b.

(** ** Slices and backing arrays

    A Go slice is a view [(array, offset, length, capacity)] into a backing
    array; the store maps array identifiers to their contents.  [Text] of a
    declaration, the prefix [src[0:p]] and the tail [src[e:]] are all views
    into the array of [src]. *)

Record slice := mkSlice {
  sl_arr : nat;   (* backing array *)
  sl_off : nat;   (* index of the slice's first byte in the array *)
  sl_len : nat;   (* len(s) *)
  sl_cap : nat    (* cap(s) *)
}.

Definition store := list bytes.

(** Failing run-time checks (slice bounds, index out of range, nil
    dereference, explicit [panic]) are [None]. *)
Definition bind {A B : Type} (m : option A) (f : A -> option B) : option B :=
  match m with Some a => f a | None => None end.

Notation "x <- m ;; k" := (bind m (fun x => k))
  (at level 61, m at next level, right associativity).
Notation "' p <- m ;; k" := (bind m (fun p => k))
  (at level 61, p pattern, m at next level, right associativity).

Definition array (h : store) (s : slice) : bytes := nth (sl_arr s) h [].

(** The bytes a slice denotes: [s[0], ..., s[len(s)-1]]. *)
Definition contents (h : store) (s : slice) : bytes :=
  firstn (sl_len s) (skipn (sl_off s) (array h s)).

(** [s[lo:hi]]: allowed for [0 <= lo <= hi <= cap(s)]; the capacity of the
    result reaches to the end of [s]'s capacity. *)
Definition reslice (s : slice) (lo hi : Z) : option slice :=
  if (0 <=? lo) && (lo <=? hi) && (hi <=? Z.of_nat (sl_cap s)) then
    Some (mkSlice (sl_arr s) (sl_off s + Z.to_nat lo) (Z.to_nat (hi - lo))
                  (sl_cap s - Z.to_nat lo))
  else None.

(** [s[lo:]] is [s[lo:len(s)]]. *)
Definition reslice_from (s : slice) (lo : Z) : option slice :=
  reslice s lo (Z.of_nat (sl_len s)).

(** Overwrite [data] into array contents [arr] from index [at_]. *)
Definition overwrite (arr : bytes) (at_ : nat) (data : bytes) : bytes :=
  firstn at_ arr ++ data ++ skipn (at_ + len data) arr.

Fixpoint set_nth {A : Type} (n : nat) (x : A) (l : list A) : list A :=
  match n, l with
  | O, _ :: l' => x :: l'
  | S n', y :: l' => y :: set_nth n' x l'
  | _, [] => []
  end.

(** A fresh array holding [data]; its slice has [len = cap = len(data)]. *)
Definition alloc (h : store) (data : bytes) : store * slice :=
  (h ++ [data], mkSlice (List.length h) 0 (len data) (len data)).

(** [append(s, t...)], [t] given by the bytes it denotes when the call is
    made (the copy is a memmove).  With room in [cap(s)] the bytes are
    written in place into [s]'s backing array, behind [s]'s last byte;
    otherwise a new array is allocated.  (A grown array's spare capacity is
    not modelled: the new slice has [cap = len].) *)
Definition append (h : store) (s : slice) (t : bytes) : store * slice :=
  if (sl_len s + len t <=? sl_cap s)%nat then
    (set_nth (sl_arr s) (overwrite (array h s) (sl_off s + sl_len s) t) h,
     mkSlice (sl_arr s) (sl_off s) (sl_len s + len t) (sl_cap s))
  else alloc h (contents h s ++ t).

(** [bytes.Clone(s)] for a non-nil [s]: a copy in a fresh array. *)
Definition bytesClone (h : store) (s : slice) : store * slice :=
  alloc h (contents h s).

(** The bytes of [bytes.Join(ss, sep)]. *)
Fixpoint joined (ss : list bytes) (sep : bytes) : bytes :=
  match ss with
  | [] => []
  | [x] => x
  | x :: rest => x ++ sep ++ joined rest sep
  end.

(** [bytes.Join(ss, sep)]: always a fresh array. *)
Definition bytesJoin (h : store) (ss : list slice) (sep : bytes) : store * slice :=
  alloc h (joined (map (contents h) ss) sep).

Definition newline : bytes := str "
".

(** ** The parsed file

    The parser is an external collaborator: [Format] is modelled from the
    point where [parser.ParseFile] has returned, on the fields of [*ast.File]
    that the code reads.  A [token.Pos] is an integer, 1 + the byte offset
    (the file is the first of a fresh [token.FileSet]); [NoPos] is 0. *)

Definition Pos := Z.
Definition NoPos : Pos := 0.

Inductive Token := IMPORT | CONST | VAR | TYPE | FUNC | METHOD.

Definition Token_eqb (x y : Token) : bool :=
  match x, y with
  | IMPORT, IMPORT | CONST, CONST | VAR, VAR | TYPE, TYPE | FUNC, FUNC
  | METHOD, METHOD => true
  | _, _ => false
  end.

(** Receiver type expressions; [OtherExpr] stands for every [ast.Expr] that
    is not one of the four shapes [getReceiverTypeName] handles. *)
Inductive Expr :=
| Ident (name : string)
| IndexExpr (X : Expr)
| IndexListExpr (X : Expr)
| StarExpr (X : Expr)
| OtherExpr.

(** An [*ast.Field] of a receiver list, by its [Type]. *)
Record Field := mkField { fieldType : Expr }.

Inductive Spec :=
| ImportSpec
| ValueSpec
| TypeSpec (name : string).

(** [ast.Decl], with the positions [Pos()] and [End()] report. *)
Inductive Decl :=
| FuncDecl (pos end_ : Pos) (recv : option (list Field)) (name : string)
| GenDecl (pos end_ : Pos) (tok : Token) (specs : list Spec)
| BadDecl (pos end_ : Pos).

Definition declPos (d : Decl) : Pos :=
  match d with FuncDecl p _ _ _ | GenDecl p _ _ _ | BadDecl p _ => p end.

Definition declEnd (d : Decl) : Pos :=
  match d with FuncDecl _ e _ _ | GenDecl _ e _ _ | BadDecl _ e => e end.

Record CommentGroup := mkComment { cgPos : Pos; cgEnd : Pos }.

Record File := mkFile {
  Package : Pos;                  (* position of the "package" keyword *)
  FileName : option string;       (* file.Name; None for nil *)
  Decls : list Decl;
  Comments : list CommentGroup
}.

(** ** Declarations

    The fields of [declaration] the sorter reads.  [nodePos] and [nodeEnd]
    are [Pos()] and [End()] of the embedded [rangeNode]. *)
Record declaration := mkDeclaration {
  nodePos : Pos;
  nodeEnd : Pos;
  Name : option string;
  OriginalOrder : Z;
  Recv : option (list Field);
  Specs : list Spec;
  Text : slice;
  Tok : Token
}.

Definition getFunctionName (decl : declaration) : option string :=
  if negb (Token_eqb (Tok decl) FUNC) && negb (Token_eqb (Tok decl) METHOD)
  then Some EmptyString
  else Name decl.

(** The recursive closure [rec] of [getReceiverTypeName]. *)
Fixpoint receiverIdent (expr : Expr) : option string :=
  match expr with
  | Ident name => Some name
  | IndexExpr X => receiverIdent X
  | IndexListExpr X => receiverIdent X
  | StarExpr X => receiverIdent X
  | OtherExpr => None
  end.

Definition getReceiverTypeName (decl : declaration) : option string :=
  if negb (Token_eqb (Tok decl) METHOD) then Some EmptyString
  else
    match Recv decl with
    | Some (f :: _) => receiverIdent (fieldType f)
    | _ => None
    end.

Definition getTypeName (decl : declaration) : option string :=
  if negb (Token_eqb (Tok decl) TYPE) then Some EmptyString
  else
    match Specs decl with
    | TypeSpec name :: _ => Some name
    | _ => None
    end.

(** The map [declOrder]; a missing key reads as 0. *)
Definition declOrder (t : Token) : Z :=
  match t with
  | IMPORT => 0
  | CONST => 1
  | VAR => 2
  | TYPE => 3
  | FUNC => 4
  | METHOD => 0
  end.

Definition compareMethodToDecl (decl other : declaration) : option Z :=
  receiverName <- getReceiverTypeName decl ;;
  match Tok other with
  | IMPORT | CONST | VAR => Some 1
  | TYPE =>
      typeName <- getTypeName other ;;
      if String.eqb typeName receiverName then Some 1
      else Some (compareStringsWithWholeNumbers receiverName typeName)
  | METHOD =>
      otherReceiver <- getReceiverTypeName other ;;
      let c := compareStringsWithWholeNumbers receiverName otherReceiver in
      if c =? 0 then
        n1 <- getFunctionName decl ;;
        n2 <- getFunctionName other ;;
        Some (compareStringsWithWholeNumbers n1 n2)
      else Some c
  | FUNC => Some (-1)
  end.

(** The comparison function [Format] passes to [slices.SortFunc]. *)
Definition compareDecls (a b : declaration) : option Z :=
  if Token_eqb (Tok a) METHOD then compareMethodToDecl a b
  else if Token_eqb (Tok b) METHOD then
    c <- compareMethodToDecl b a ;; Some (- c)
  else if negb (Token_eqb (Tok a) (Tok b)) then
    Some (cmpCompare_Z (declOrder (Tok a)) (declOrder (Tok b)))
  else
    match Tok a with
    | IMPORT | CONST | VAR =>
        Some (cmpCompare_Z (OriginalOrder a) (OriginalOrder b))
    | TYPE =>
        n1 <- getTypeName a ;;
        n2 <- getTypeName b ;;
        Some (compareStringsWithWholeNumbers n1 n2)
    | FUNC =>
        n1 <- getFunctionName a ;;
        n2 <- getFunctionName b ;;
        Some (compareFuncNames n1 n2)
    | METHOD => None
    end.

(** ** Extraction *)

Fixpoint hasPrefix (s sep : bytes) : bool :=
  match sep, s with
  | [], _ => true
  | y :: sep', x :: s' => byte_eqb x y && hasPrefix s' sep'
  | _ :: _, [] => false
  end.

(** [bytes.Index(s, sep)], counting from [i]: the index of the first
    occurrence of [sep], or -1. *)
Fixpoint bytesIndexFrom (s sep : bytes) (i : Z) : Z :=
  if hasPrefix s sep then i
  else
    match s with
    | [] => -1
    | _ :: s' => bytesIndexFrom s' sep (i + 1)
    end.

Definition bytesIndex (s sep : bytes) : Z := bytesIndexFrom s sep 0.

Definition newlinePosAfterPackageDecl (h : store) (file : File) (src : slice)
  : option Pos :=
  match FileName file with
  | None => Some NoPos
  | Some _ =>
      rest <- reslice_from src (Package file - 1) ;;
      let indexOfNewlineAfterPackage := bytesIndex (contents h rest) newline in
      if indexOfNewlineAfterPackage =? -1 then Some NoPos
      else Some (indexOfNewlineAfterPackage + Package file)
  end.

(** [getDecl]; [pos] and [end_] are [node.Pos()] and [node.End()]. *)
Definition getDecl (src : slice) (decl : Decl) (pos end_ : Pos) (order : Z)
  : option declaration :=
  match decl with
  | FuncDecl _ _ recv name =>
      text <- reslice src (pos - 1) end_ ;;
      Some (mkDeclaration pos end_ (Some name) order recv []
              text (match recv with None => FUNC | Some _ => METHOD end))
  | GenDecl _ _ tok specs =>
      text <- reslice src (pos - 1) end_ ;;
      Some (mkDeclaration pos end_ None order None specs text tok)
  | BadDecl _ _ => None
  end.

(** [for j < len(file.Comments) && file.Comments[j].Pos() < leftBound { j++ }],
    on the comments from index [j] on. *)
Fixpoint skipComments (comments : list CommentGroup) (leftBound : Pos)
  : list CommentGroup :=
  match comments with
  | c :: rest => if cgPos c <? leftBound then skipComments rest leftBound
                 else comments
  | [] => []
  end.

(** The start of the [rangeNode] of a declaration: the first comment block
    not yet skipped when it begins before the declaration. *)
Definition nodeStart (comments : list CommentGroup) (decl : Decl) : Pos :=
  match comments with
  | c :: _ => if cgPos c <? declPos decl then cgPos c else declPos decl
  | [] => declPos decl
  end.

(** The loop of [getDecls], from declaration [i] with the comments from [j]
    on. *)
Fixpoint getDeclsFrom (src : slice) (decls : list Decl) (i : Z)
    (comments : list CommentGroup) (leftBound : Pos) : option (list declaration) :=
  match decls with
  | [] => Some []
  | d :: decls' =>
      let comments' := skipComments comments leftBound in
      r <- getDecl src d (nodeStart comments' d) (declEnd d) i ;;
      rest <- getDeclsFrom src decls' (i + 1) comments' (declEnd d) ;;
      Some (r :: rest)
  end.

Definition getDecls (h : store) (file : File) (src : slice)
  : option (list declaration) :=
  leftBound <- newlinePosAfterPackageDecl h file src ;;
  let leftBound := if leftBound =? NoPos then 1 else leftBound in
  getDeclsFrom src (Decls file) 0 (Comments file) leftBound.

(** ** Sorting

    [slices.SortFunc] belongs to Go's standard library.  On a slice of at
    most [maxInsertion] = 12 elements it runs [insertionSortCmpFunc], which
    is embedded here; on longer slices it runs the rest of pattern-defeating
    quicksort, which is a parameter of the development. *)

Section InsertionSort.
Context {A : Type} (cmp : A -> A -> option Z).

(** The inner loop
    [for j := i; j > a && cmp(data[j], data[j-1]) < 0; j-- { swap }]:
    [x] is [data[i]] and [left] holds [data[i-1]], ..., [data[a]], nearest
    first. *)
Fixpoint insertLeft (x : A) (left : list A) : option (list A) :=
  match left with
  | [] => Some [x]
  | y :: left' =>
      c <- cmp x y ;;
      if c <? 0 then (l <- insertLeft x left' ;; Some (y :: l))
      else Some (x :: left)
  end.

(** The outer loop; [left] is the part already processed, reversed. *)
Fixpoint insertionLoop (data left : list A) : option (list A) :=
  match data with
  | [] => Some (rev left)
  | x :: data' => left' <- insertLeft x left ;; insertionLoop data' left'
  end.

Definition insertionSortCmpFunc (data : list A) : option (list A) :=
  insertionLoop data [].
End InsertionSort.

Definition maxInsertion : nat := 12.

Section Formatter.

(** What [slices.SortFunc] does on a slice of more than [maxInsertion]
    elements; [None] when the comparison function panics. *)
Variable pdqsortLarge :
  (declaration -> declaration -> option Z) -> list declaration ->
  option (list declaration).

Definition SortFunc (cmp : declaration -> declaration -> option Z)
    (x : list declaration) : option (list declaration) :=
  if (List.length x <=? maxInsertion)%nat then insertionSortCmpFunc cmp x
  else pdqsortLarge cmp x.

(** [aifiFormatter.Format] once the file has parsed: the store after the
    call and the returned slice, or [None] for a panic. *)
Definition Format (h : store) (file : File) (src : slice)
  : option (store * slice) :=
  match Decls file with
  | [] => Some (bytesClone h src)
  | _ :: _ =>
      decls <- getDecls h file src ;;
      firstDecl <- hd_error decls ;;
      let firstDeclStart := nodePos firstDecl in
      let lastDeclEnd := nodeEnd (last decls firstDecl) in
      sorted <- SortFunc compareDecls decls ;;
      let '(h1, rewritten) := bytesJoin h (map Text sorted) newline in
      head <- reslice src 0 (firstDeclStart - 1) ;;
      let '(h2, inner) := append h1 head (contents h1 rewritten) in
      tail <- reslice_from src lastDeclEnd ;;
      Some (append h2 inner (contents h2 tail))
  end.

(** The bytes [Format] returns. *)
Definition FormatBytes (h : store) (file : File) (src : slice)
  : option bytes :=
  '(h', out) <- Format h file src ;; Some (contents h' out).

End Formatter.

(** A store holding one array with the bytes of [s] followed by [spare]
    bytes of spare capacity, and the slice [src] of length [len(s)]. *)
Definition zeros (n : nat) : bytes := repeat zero n.

Definition storeOf (s : string) (spare : nat) : store := [str s ++ zeros spare].

Definition srcOf (s : string) (spare : nat) : slice :=
  mkSlice 0 0 (len (str s)) (len (str s) + spare).

(** ** Facts about the numeric-aware comparison *)

Lemma scanDigits_ge (rest : bytes) (j : nat) : (j <= scanDigits rest j)%nat.
Proof.
  revert j; induction rest as [|c rest IH]; intros j; simpl; [lia|].
  destruct (isDigit c); [specialize (IH (S j))|]; lia.
Qed.

Lemma parseNumber_advances (s : bytes) (i : nat) : (i < snd (parseNumber s i))%nat.
Proof. unfold parseNumber; cbn [snd]. pose proof (scanDigits_ge (skipn (S i) s) (S i)). lia. Qed.

(** The loop always returns when started with [len(a) - i] turns. *)
Lemma compareLoop_total (fuel : nat) (a b : bytes) (i j : nat) :
  (len a - i <= fuel)%nat -> exists r, compareLoop fuel a b i j = Some r.
Proof.
  revert i j; induction fuel as [|fuel IH]; intros i j Hf; cbn [compareLoop];
    destruct (nth_error a i) as [ai|] eqn:Ha;
    try (destruct (nth_error b j); eauto; fail);
    assert (Hi : (i < len a)%nat) by (apply nth_error_Some; congruence);
    try (unfold len in *; lia).
  destruct (nth_error b j) as [bj|]; [|eauto].
  destruct (negb (byte_eqb ai bj)); [eauto|].
  destruct (negb (isDigit ai)); [apply IH; lia|].
  pose proof (parseNumber_advances a i) as Hadv.
  destruct (parseNumber a i) as [aNum i'], (parseNumber b j) as [bNum j'].
  cbn [snd] in Hadv.
  destruct (negb (bytes_eqb aNum bNum)).
  - destruct (negb _); eauto.
  - apply IH; lia.
Qed.

Lemma compareStringsWithWholeNumbers_returns (a b : string) :
  compareStringsWithWholeNumbers_opt a b = Some (compareStringsWithWholeNumbers a b).
Proof.
  unfold compareStringsWithWholeNumbers, compareStringsWithWholeNumbers_opt.
  destruct (compareLoop_total (len (str a)) (str a) (str b) 0 0) as [r Hr]; [lia|].
  now rewrite Hr.
Qed.

Lemma Token_eqb_eq (x y : Token) : Token_eqb x y = true <-> x = y.
Proof. destruct x, y; simpl; split; congruence. Qed.

(** The name "x" followed by [n + 1] zeros: "x0", "x00", ... *)
Definition zeroName (n : nat) : string :=
  String "x" (string_of_list_ascii (repeat "0"%char (S n))).

Lemma str_zeroName (n : nat) : str (zeroName n) = "x"%char :: repeat "0"%char (S n).
Proof.
  unfold str, zeroName. cbn [list_ascii_of_string].
  now rewrite list_ascii_of_string_of_list_ascii.
Qed.

Lemma scanDigits_zeros (n j : nat) :
  scanDigits (repeat "0"%char n) j = (j + n)%nat.
Proof.
  revert j; induction n as [|n IH]; intros j; simpl; [lia|].
  rewrite IH. lia.
Qed.

Lemma trimLeftZeros_zeros (n : nat) : trimLeftZeros (repeat "0"%char n) = [].
Proof. induction n as [|n IH]; simpl; auto. Qed.

Lemma parseNumber_zeroName (n : nat) :
  parseNumber ("x"%char :: repeat "0"%char (S n)) 1 = ([], (n + 2)%nat).
Proof.
  unfold parseNumber. cbn [skipn repeat]. rewrite scanDigits_zeros.
  f_equal; [|lia]. unfold substr. cbn [skipn].
  replace (2 + n - 1)%nat with (S n) by lia.
  change ("0"%char :: repeat "0"%char n) with (repeat "0"%char (S n)).
  rewrite <- (repeat_length "0"%char (S n)) at 1. rewrite firstn_all.
  apply trimLeftZeros_zeros.
Qed.

Lemma compareLoop_end (fuel : nat) (a b : bytes) (i j : nat) :
  nth_error a i = None -> nth_error b j = None ->
  compareLoop fuel a b i j = Some 0.
Proof. intros Ha Hb. destruct fuel; cbn [compareLoop]; now rewrite Ha, Hb. Qed.

Lemma zero_runs_compare_equal (n m : nat) :
  compareStringsWithWholeNumbers (zeroName n) (zeroName m) = 0.
Proof.
  unfold compareStringsWithWholeNumbers, compareStringsWithWholeNumbers_opt.
  rewrite !str_zeroName.
  unfold len. cbn [List.length]. rewrite repeat_length.
  cbn [compareLoop nth_error repeat]. 
  change (byte_eqb "x"%char "x"%char) with true. cbn [negb].
  change (isDigit "x"%char) with false. cbn [negb].
  cbn [nth_error]. change (byte_eqb "0"%char "0"%char) with true.
  change (isDigit "0"%char) with true. cbn [negb].
  change ("0"%char :: repeat "0"%char n) with (repeat "0"%char (S n)).
  change ("0"%char :: repeat "0"%char m) with (repeat "0"%char (S m)).
  rewrite !parseNumber_zeroName. cbn [bytes_eqb negb].
  assert (Ha : nth_error ("x"%char :: repeat "0"%char (S n)) (n + 2) = None)
    by (apply nth_error_None; simpl; rewrite repeat_length; lia).
  assert (Hb : nth_error ("x"%char :: repeat "0"%char (S m)) (m + 2) = None)
    by (apply nth_error_None; simpl; rewrite repeat_length; lia).
  now rewrite compareLoop_end.
Qed.

(** ** Facts about slices and the store *)

(** A slice is well formed in a store when its array exists and holds its
    whole capacity. *)
Definition slice_wf (h : store) (s : slice) : Prop :=
  (sl_arr s < List.length h)%nat /\
  (sl_off s + sl_cap s <= len (array h s))%nat /\
  (sl_len s <= sl_cap s)%nat.

Lemma nth_set_nth_same {A : Type} (n : nat) (x d : A) (l : list A) :
  (n < List.length l)%nat -> nth n (set_nth n x l) d = x.
Proof.
  revert n; induction l as [|y l IH]; intros [|n] Hn; simpl in *; try lia; auto.
  apply IH; lia.
Qed.

Lemma nth_set_nth_other {A : Type} (n m : nat) (x d : A) (l : list A) :
  n <> m -> nth m (set_nth n x l) d = nth m l d.
Proof.
  revert n m; induction l as [|y l IH]; intros [|n] [|m] Hnm; simpl; auto; try lia.
Qed.

Lemma length_set_nth {A : Type} (n : nat) (x : A) (l : list A) :
  List.length (set_nth n x l) = List.length l.
Proof. revert n; induction l as [|y l IH]; intros [|n]; simpl; auto. Qed.

Lemma length_overwrite (arr : bytes) (at_ : nat) (data : bytes) :
  (at_ + len data <= len arr)%nat -> len (overwrite arr at_ data) = len arr.
Proof.
  intros H. unfold overwrite, len in *.
  rewrite !length_app, length_firstn, length_skipn. lia.
Qed.

(** Reading [n] bytes at [off] from an array overwritten at [off + n]. *)
Lemma read_overwrite_before (arr : bytes) (off n : nat) (data : bytes) :
  (off + n + len data <= len arr)%nat ->
  firstn (n + len data) (skipn off (overwrite arr (off + n) data)) =
  firstn n (skipn off arr) ++ data.
Proof.
  intros H. unfold overwrite, len in *.
  rewrite skipn_app, length_firstn.
  replace (off - Nat.min (off + n) (List.length arr))%nat with 0%nat by lia.
  rewrite skipn_O, skipn_firstn_comm.
  replace (off + n - off)%nat with n by lia.
  rewrite firstn_app, length_firstn, length_skipn.
  replace (n + List.length data - Nat.min n (List.length arr - off))%nat
    with (List.length data) by lia.
  rewrite firstn_app, Nat.sub_diag, firstn_O, app_nil_r, firstn_all.
  f_equal. rewrite firstn_firstn. f_equal. lia.
Qed.

(** Overwriting a stretch with the bytes it already holds changes nothing. *)
Lemma overwrite_same (arr : bytes) (at_ n : nat) :
  (at_ + n <= len arr)%nat ->
  overwrite arr at_ (firstn n (skipn at_ arr)) = arr.
Proof.
  intros H. unfold overwrite, len in *.
  rewrite length_firstn, length_skipn.
  replace (Nat.min n (List.length arr - at_)) with n by lia.
  rewrite <- (firstn_skipn at_ arr) at 4. f_equal.
  rewrite <- (firstn_skipn n (skipn at_ arr)) at 2. f_equal.
  now rewrite skipn_skipn, Nat.add_comm.
Qed.

Lemma array_alloc (h : store) (data : bytes) (s : slice) :
  (sl_arr s < List.length h)%nat -> array (fst (alloc h data)) s = array h s.
Proof. intros H. unfold array, alloc; simpl. now rewrite app_nth1. Qed.

Lemma contents_alloc_other (h : store) (data : bytes) (s : slice) :
  (sl_arr s < List.length h)%nat ->
  contents (fst (alloc h data)) s = contents h s.
Proof. intros H. unfold contents. now rewrite array_alloc. Qed.

Lemma contents_alloc (h : store) (data : bytes) :
  contents (fst (alloc h data)) (snd (alloc h data)) = data.
Proof.
  unfold contents, alloc, array; simpl.
  rewrite app_nth2, Nat.sub_diag by lia. simpl. apply firstn_all.
Qed.

Lemma slice_wf_alloc_other (h : store) (data : bytes) (s : slice) :
  slice_wf h s -> slice_wf (fst (alloc h data)) s.
Proof.
  intros (Ha & Hc & Hl). unfold slice_wf.
  rewrite array_alloc by assumption. repeat split; auto.
  unfold alloc; simpl. rewrite length_app; simpl. lia.
Qed.

(** [append] returns a slice that denotes the old bytes followed by the new. *)
Lemma contents_append (h : store) (s : slice) (t : bytes) :
  slice_wf h s ->
  contents (fst (append h s t)) (snd (append h s t)) = contents h s ++ t.
Proof.
  intros (Ha & Hc & Hl). unfold append.
  destruct (sl_len s + len t <=? sl_cap s)%nat eqn:Hfit.
  - apply Nat.leb_le in Hfit. unfold contents, array; simpl.
    rewrite nth_set_nth_same by assumption.
    apply read_overwrite_before. fold (array h s). lia.
  - apply contents_alloc.
Qed.

Lemma set_nth_same {A : Type} (n : nat) (d : A) (l : list A) :
  (n < List.length l)%nat -> set_nth n (nth n l d) l = l.
Proof.
  revert n; induction l as [|y l IH]; intros [|n] Hn; simpl in *; try lia; auto.
  f_equal. apply IH. lia.
Qed.

(** An [append] that rewrites the bytes already there leaves the store as
    it was and returns the longer view of the same array. *)
Lemma append_same (h : store) (s : slice) (n : nat) :
  slice_wf h s -> (sl_len s + n <= sl_cap s)%nat ->
  append h s (firstn n (skipn (sl_off s + sl_len s) (array h s))) =
  (h, mkSlice (sl_arr s) (sl_off s) (sl_len s + n) (sl_cap s)).
Proof.
  intros (Ha & Hc & Hl) Hn. unfold append.
  assert (Hlen : len (firstn n (skipn (sl_off s + sl_len s) (array h s))) = n).
  { unfold len in *. rewrite length_firstn, length_skipn. lia. }
  rewrite Hlen. destruct (Nat.leb_spec (sl_len s + n) (sl_cap s)); [|lia].
  rewrite overwrite_same by lia. unfold array. now rewrite set_nth_same.
Qed.

Lemma reslice_Some (s : slice) (lo hi : Z) (r : slice) :
  reslice s lo hi = Some r ->
  0 <= lo <= hi /\ hi <= Z.of_nat (sl_cap s) /\
  r = mkSlice (sl_arr s) (sl_off s + Z.to_nat lo) (Z.to_nat (hi - lo))
        (sl_cap s - Z.to_nat lo).
Proof.
  unfold reslice.
  destruct (0 <=? lo) eqn:H1, (lo <=? hi) eqn:H2,
    (hi <=? Z.of_nat (sl_cap s)) eqn:H3; simpl; try discriminate.
  intros [= <-]. apply Z.leb_le in H1, H2, H3. repeat split; assumption.
Qed.

Lemma reslice_wf (h : store) (s r : slice) (lo hi : Z) :
  slice_wf h s -> reslice s lo hi = Some r -> slice_wf h r.
Proof.
  intros (Ha & Hc & Hl) H. apply reslice_Some in H as (Hlo & Hhi & ->).
  unfold slice_wf, array in *; simpl. repeat split; auto; lia.
Qed.

(** The bytes of [s[lo:hi]], read in the capacity of [s]. *)
Lemma contents_reslice (h : store) (s r : slice) (lo hi : Z) :
  reslice s lo hi = Some r ->
  contents h r =
  firstn (Z.to_nat hi - Z.to_nat lo) (skipn (Z.to_nat lo) (skipn (sl_off s) (array h s))).
Proof.
  intros H. apply reslice_Some in H as (Hlo & Hhi & ->).
  unfold contents, array; simpl. rewrite skipn_skipn.
  f_equal; [lia|]. f_equal. lia.
Qed.

Section FormatShape.
Variable pdqsortLarge :
  (declaration -> declaration -> option Z) -> list declaration ->
  option (list declaration).

(** What a returning call with declarations has computed: the output is
    [src[0:firstDeclStart-1]], then the joined texts in sorted order, then
    [src[lastDeclEnd:]] as it reads after the first [append]. *)
Lemma Format_shape (h h' : store) (file : File) (src out : slice) :
  slice_wf h src -> Decls file <> [] ->
  Format pdqsortLarge h file src = Some (h', out) ->
  exists decls firstDecl sorted head tail,
    getDecls h file src = Some decls /\
    hd_error decls = Some firstDecl /\
    SortFunc pdqsortLarge compareDecls decls = Some sorted /\
    reslice src 0 (nodePos firstDecl - 1) = Some head /\
    reslice_from src (nodeEnd (last decls firstDecl)) = Some tail /\
    let rewritten := joined (map (contents h) (map Text sorted)) newline in
    let h1 := fst (alloc h rewritten) in
    let h2 := fst (append h1 head rewritten) in
    (h', out) = append h2 (snd (append h1 head rewritten)) (contents h2 tail) /\
    contents h' out = contents h head ++ rewritten ++ contents h2 tail.
Proof.
  intros Hwf Hne H. unfold Format in H.
  destruct (Decls file) as [|d0 ds]; [congruence|].
  destruct (getDecls h file src) as [decls|] eqn:Hdecls; [|discriminate].
  cbn [bind] in H.
  destruct (hd_error decls) as [firstDecl|] eqn:Hfirst; [|discriminate].
  cbn [bind] in H.
  destruct (SortFunc pdqsortLarge compareDecls decls) as [sorted|] eqn:Hsort;
    [|discriminate].
  cbn [bind] in H. unfold bytesJoin in H.
  set (rewritten := joined (map (contents h) (map Text sorted)) newline) in *.
  destruct (alloc h rewritten) as [h1 rw] eqn:Halloc.
  destruct (reslice src 0 (nodePos firstDecl - 1)) as [head|] eqn:Hhead;
    [|discriminate].
  cbn [bind] in H.
  assert (Hrw : contents h1 rw = rewritten).
  { pose proof (contents_alloc h rewritten) as Hc. now rewrite Halloc in Hc. }
  rewrite Hrw in H.
  destruct (append h1 head rewritten) as [h2 inner] eqn:Happ.
  destruct (reslice_from src (nodeEnd (last decls firstDecl))) as [tail|]
    eqn:Htail; [|discriminate].
  cbn [bind] in H. injection H as H.
  exists decls, firstDecl, sorted, head, tail.
  repeat (split; [first [reflexivity | assumption]|]).
  cbn zeta. fold rewritten. rewrite Halloc. cbn [fst]. rewrite Happ. cbn [fst snd].
  split; [symmetry; exact H|].
  assert (Hwf1 : slice_wf h1 head).
  { replace h1 with (fst (alloc h rewritten)) by now rewrite Halloc.
    apply slice_wf_alloc_other. eapply reslice_wf; eauto. }
  assert (Hwf2 : slice_wf h2 inner).
  { destruct Hwf1 as (Ha & Hc & Hl). unfold append in Happ.
    destruct (sl_len head + len rewritten <=? sl_cap head)%nat eqn:Hfit.
    - apply Nat.leb_le in Hfit. injection Happ as <- <-.
      unfold slice_wf, array; simpl. rewrite length_set_nth.
      rewrite nth_set_nth_same by assumption.
      rewrite length_overwrite by (fold (array h1 head); lia).
      fold (array h1 head). lia.
    - unfold alloc in Happ. injection Happ as <- <-.
      unfold slice_wf, array; simpl. rewrite length_app; simpl.
      rewrite app_nth2, Nat.sub_diag by lia. simpl. unfold len. lia. }
  pose proof (contents_append h2 inner (contents h2 tail) Hwf2) as Hout.
  rewrite H in Hout. cbn [fst snd] in Hout. rewrite Hout.
  pose proof (contents_append h1 head rewritten Hwf1) as Hin.
  rewrite Happ in Hin. cbn [fst snd] in Hin. rewrite Hin.
  rewrite <- app_assoc. f_equal.
  replace h1 with (fst (alloc h rewritten)) by now rewrite Halloc.
  apply contents_alloc_other.
  apply reslice_Some in Hhead as (_ & _ & ->). simpl. apply Hwf.
Qed.
End FormatShape.

(** ** Facts about sorted lists *)

Lemma StronglySorted_snoc {A : Type} (R : A -> A -> Prop) (l : list A) (a : A) :
  StronglySorted R l -> Forall (fun b => R b a) l -> StronglySorted R (l ++ [a]).
Proof.
  induction 1 as [|b l Hs IH Hall]; intros Ha; simpl.
  - repeat constructor.
  - inversion Ha; subst. constructor; [now apply IH|].
    apply Forall_app. split; [assumption | now constructor].
Qed.

Lemma StronglySorted_rev {A : Type} (R : A -> A -> Prop) (l : list A) :
  StronglySorted R l -> StronglySorted (fun x y => R y x) (rev l).
Proof.
  induction 1 as [|a l Hs IH Hall]; simpl; [constructor|].
  apply StronglySorted_snoc; [exact IH | now apply Forall_rev].
Qed.

Lemma StronglySorted_filter {A : Type} (R : A -> A -> Prop) (P : A -> bool)
    (l : list A) :
  StronglySorted R l -> StronglySorted R (filter P l).
Proof.
  induction 1 as [|a l Hs IH Hall]; simpl; [constructor|].
  destruct (P a); [|exact IH]. constructor; [exact IH|].
  rewrite Forall_forall in *. intros y Hy. apply filter_In in Hy as [Hy _]. auto.
Qed.

Lemma Permutation_filter {A : Type} (P : A -> bool) (l l' : list A) :
  Permutation l l' -> Permutation (filter P l) (filter P l').
Proof.
  induction 1 as [|x l l' Hp IH|x y l|l l' l'' H1 IH1 H2 IH2]; simpl.
  - constructor.
  - destruct (P x); [now constructor | exact IH].
  - destruct (P x), (P y); try reflexivity. apply perm_swap.
  - now transitivity (filter P l').
Qed.

(** ** Facts about the insertion sort *)

Section InsertionSortFacts.
Context {A : Type} (cmp : A -> A -> option Z).

Lemma insertLeft_perm (x : A) (left l : list A) :
  insertLeft cmp x left = Some l -> Permutation (x :: left) l.
Proof.
  revert l; induction left as [|y left IH]; intros l H; simpl in H.
  - now injection H as <-.
  - destruct (cmp x y) as [c|]; [|discriminate]. cbn [bind] in H.
    destruct (c <? 0).
    + destruct (insertLeft cmp x left) as [l'|]; [|discriminate].
      cbn [bind] in H. injection H as <-.
      apply perm_trans with (y :: x :: left); [apply perm_swap|].
      apply perm_skip. now apply IH.
    + now injection H as <-.
Qed.

Lemma insertionLoop_perm (data left l : list A) :
  insertionLoop cmp data left = Some l -> Permutation (rev left ++ data) l.
Proof.
  revert left l; induction data as [|x data IH]; intros left l H; simpl in H.
  - injection H as <-. now rewrite app_nil_r.
  - destruct (insertLeft cmp x left) as [left'|] eqn:Hins; [|discriminate].
    cbn [bind] in H. apply IH in H.
    apply insertLeft_perm in Hins.
    apply perm_trans with (rev left' ++ data); [|exact H].
    apply perm_trans with ((x :: rev left) ++ data);
      [symmetry; apply Permutation_middle|].
    apply Permutation_app_tail.
    apply perm_trans with (x :: left);
      [apply perm_skip; symmetry; apply Permutation_rev|].
    apply perm_trans with left'; [exact Hins | apply Permutation_rev].
Qed.

Lemma insertionSortCmpFunc_perm (data l : list A) :
  insertionSortCmpFunc cmp data = Some l -> Permutation data l.
Proof. intros H. now apply insertionLoop_perm in H. Qed.

(** A sequence in which no element compares below its left neighbour. *)
Fixpoint ascendingFrom (prev : option A) (data : list A) : Prop :=
  match data with
  | [] => True
  | y :: rest =>
      match prev with
      | None => True
      | Some x => exists c, cmp y x = Some c /\ 0 <= c
      end /\ ascendingFrom (Some y) rest
  end.

Definition ascending (data : list A) : Prop := ascendingFrom None data.

Lemma insertionLoop_ascending (data left : list A) :
  ascendingFrom (hd_error left) data ->
  insertionLoop cmp data left = Some (rev left ++ data).
Proof.
  revert left; induction data as [|y data IH]; intros left H; simpl.
  - now rewrite app_nil_r.
  - destruct H as [Hy Hrest].
    assert (Hins : insertLeft cmp y left = Some (y :: left)).
    { destruct left as [|x left]; [reflexivity|]. simpl in *.
      destruct Hy as (c & -> & Hc). cbn [bind].
      destruct (Z.ltb_spec c 0); [lia|reflexivity]. }
    rewrite Hins. cbn [bind]. rewrite IH by exact Hrest.
    simpl. now rewrite <- app_assoc.
Qed.

(** The insertion sort leaves an ascending sequence as it is. *)
Lemma insertionSortCmpFunc_ascending (data : list A) :
  ascending data -> insertionSortCmpFunc cmp data = Some data.
Proof. intros H. unfold insertionSortCmpFunc. now rewrite insertionLoop_ascending. Qed.

(** The elements selected by [P] keep their relative order when, among
    them, [cmp] is the comparison of a key that increases along the input. *)
Section Selected.
Variables (P : A -> bool) (key : A -> Z).
Hypothesis cmp_key : forall x y, P x = true -> P y = true ->
  cmp x y = Some (cmpCompare_Z (key x) (key y)).

Definition keyBefore (y x : A) : Prop := key y < key x.

Lemma insertLeft_filter (x : A) (left l : list A) :
  (forall y, In y left -> keyBefore y x) ->
  insertLeft cmp x left = Some l ->
  filter P l = filter P (x :: left).
Proof.
  revert l; induction left as [|y left IH]; intros l Hk H; simpl in H.
  - now injection H as <-.
  - destruct (cmp x y) as [c|] eqn:Hc; [|discriminate]. cbn [bind] in H.
    destruct (Z.ltb_spec c 0) as [Hneg|]; [|now injection H as <-].
    destruct (insertLeft cmp x left) as [l'|] eqn:Hl; [|discriminate].
    cbn [bind] in H. injection H as <-.
    assert (Hnot : P x = true -> P y = true -> False).
    { intros Hx Hy. rewrite (cmp_key x y Hx Hy) in Hc. injection Hc as <-.
      specialize (Hk y (or_introl eq_refl)). unfold keyBefore, cmpCompare_Z in *.
      destruct (Z.ltb_spec (key x) (key y)); [lia|].
      destruct (Z.ltb_spec (key y) (key x)); lia. }
    specialize (IH l' (fun z Hz => Hk z (or_intror Hz)) eq_refl).
    cbn [filter] in *. rewrite IH.
    destruct (P x) eqn:Hx, (P y) eqn:Hy; try reflexivity.
    exfalso; now apply Hnot.
Qed.

Lemma insertionLoop_filter (data left l : list A) :
  StronglySorted keyBefore data ->
  (forall y x, In y left -> In x data -> keyBefore y x) ->
  insertionLoop cmp data left = Some l ->
  filter P l = rev (filter P left) ++ filter P data.
Proof.
  revert left l; induction data as [|x data IH]; intros left l Hs Hk H;
    simpl in H.
  - injection H as <-. now rewrite app_nil_r, filter_rev.
  - destruct (insertLeft cmp x left) as [left'|] eqn:Hins; [|discriminate].
    cbn [bind] in H. inversion Hs as [|? ? Hs' Hall]; subst.
    pose proof (insertLeft_perm _ _ _ Hins) as Hperm.
    apply IH in H; auto.
    + rewrite H.
      rewrite (insertLeft_filter x left left');
        [|intros y Hy; apply Hk; [exact Hy | now left] | exact Hins].
      cbn [filter]. destruct (P x); simpl; [|reflexivity].
      now rewrite <- app_assoc.
    + intros y z Hy Hz.
      apply (Permutation_in _ (Permutation_sym Hperm)) in Hy.
      destruct Hy as [<-|Hy].
      * rewrite Forall_forall in Hall. now apply Hall.
      * apply Hk; [exact Hy | now right].
Qed.

Lemma insertionSortCmpFunc_filter (data l : list A) :
  StronglySorted keyBefore data ->
  insertionSortCmpFunc cmp data = Some l ->
  filter P l = filter P data.
Proof.
  intros Hs H. apply insertionLoop_filter in H; auto.
  intros y x [].
Qed.
End Selected.

(** [cmp(x, y) < 0]: the "less" that [slices.SortFunc] sorts by. *)
Definition less (x y : A) : Prop := exists c, cmp x y = Some c /\ c < 0.

(** The requirement of [slices.SortFunc], on the elements of [l]: [cmp]
    returns, and its "less" is a strict weak ordering (asymmetric and
    negatively transitive). *)
Definition strictWeakOrdering (l : list A) : Prop :=
  (forall x y, In x l -> In y l -> exists c, cmp x y = Some c) /\
  (forall x y, In x l -> In y l -> less x y -> ~ less y x) /\
  (forall x y z, In x l -> In y l -> In z l ->
     less x z -> less x y \/ less y z).

(** No element is less than one that stands before it. *)
Definition ordered (l : list A) : Prop :=
  StronglySorted (fun x y => ~ less y x) l.

Section UnderTheRequirement.
Variable u : list A.
Hypothesis Hswo : strictWeakOrdering u.

Lemma insertLeft_descending (x : A) (left l : list A) :
  In x u -> incl left u ->
  StronglySorted (fun a b => ~ less a b) left ->
  insertLeft cmp x left = Some l ->
  StronglySorted (fun a b => ~ less a b) l.
Proof.
  destruct Hswo as (_ & Hasym & Hneg).
  revert l; induction left as [|y left IH]; intros l Hx Hincl Hs H; simpl in H.
  - injection H as <-. repeat constructor.
  - assert (Hy : In y u) by (apply Hincl; now left).
    assert (Hincl' : incl left u) by (intros z Hz; apply Hincl; now right).
    inversion Hs as [|? ? Hs' Hall]; subst.
    destruct (cmp x y) as [c|] eqn:Hc; [|discriminate]. cbn [bind] in H.
    destruct (Z.ltb_spec c 0) as [Hneg0|Hpos].
    + destruct (insertLeft cmp x left) as [l'|] eqn:Hl; [|discriminate].
      cbn [bind] in H. injection H as <-.
      constructor; [now apply IH|].
      apply insertLeft_perm in Hl. rewrite Forall_forall in *.
      intros z Hz. apply (Permutation_in _ (Permutation_sym Hl)) in Hz.
      destruct Hz as [<-|Hz]; [|now apply Hall].
      apply Hasym; auto. exists c; auto.
    + injection H as <-. constructor; [exact Hs|].
      assert (Hxy : ~ less x y).
      { intros (c' & Hc' & Hlt). rewrite Hc in Hc'. injection Hc' as <-. lia. }
      constructor; [exact Hxy|]. rewrite Forall_forall in *.
      intros z Hz Hxz.
      destruct (Hneg x y z Hx Hy (Hincl' z Hz) Hxz) as [Hl|Hl]; [tauto|].
      now apply (Hall z Hz).
Qed.

Lemma insertionLoop_ordered (data left l : list A) :
  incl data u -> incl left u ->
  StronglySorted (fun a b => ~ less a b) left ->
  insertionLoop cmp data left = Some l ->
  ordered l.
Proof.
  revert left l; induction data as [|x data IH]; intros left l Hd Hl Hs H;
    simpl in H.
  - injection H as <-. now apply StronglySorted_rev.
  - destruct (insertLeft cmp x left) as [left'|] eqn:Hins; [|discriminate].
    cbn [bind] in H. eapply IH; [| | |exact H].
    + intros z Hz. apply Hd. now right.
    + intros z Hz. apply insertLeft_perm in Hins.
      apply (Permutation_in _ (Permutation_sym Hins)) in Hz.
      destruct Hz as [<-|Hz]; [apply Hd; now left | now apply Hl].
    + eapply insertLeft_descending; eauto. apply Hd. now left.
Qed.
End UnderTheRequirement.

(** The insertion sort meets the specification of [slices.SortFunc]. *)
Lemma insertionSortCmpFunc_ordered (data l : list A) :
  strictWeakOrdering data -> insertionSortCmpFunc cmp data = Some l ->
  ordered l.
Proof.
  intros Hswo H.
  eapply (insertionLoop_ordered data Hswo data []); eauto.
  - apply incl_refl.
  - intros z [].
  - constructor.
Qed.

(** An ordered rearrangement keeps the selected elements in the order of
    their keys, which is their order in the input. *)
Section SelectedOrdered.
Variables (P : A -> bool) (key : A -> Z).
Hypothesis cmp_key : forall x y, P x = true -> P y = true ->
  cmp x y = Some (cmpCompare_Z (key x) (key y)).

Lemma ordered_filter_keys (l : list A) :
  ordered l -> StronglySorted (fun x y => key x <= key y) (filter P l).
Proof.
  induction 1 as [|x l Hs IH Hall]; simpl; [constructor|].
  destruct (P x) eqn:Hx; [|exact IH]. constructor; [exact IH|].
  rewrite Forall_forall in *. intros y Hy. apply filter_In in Hy as [Hy Hpy].
  specialize (Hall y Hy). unfold less in Hall.
  rewrite (cmp_key y x Hpy Hx) in Hall. unfold cmpCompare_Z in Hall.
  destruct (Z.ltb_spec (key y) (key x)); [|assumption].
  exfalso. apply Hall. eexists. split; [reflexivity|lia].
Qed.

Lemma sorted_rearrangement_unique (l1 l2 : list A) :
  StronglySorted (keyBefore key) l1 ->
  StronglySorted (fun x y => key x <= key y) l2 ->
  Permutation l1 l2 -> l1 = l2.
Proof.
  intros H1; revert l2; induction H1 as [|a1 t1 Hs1 IH Hall1]; intros l2 H2 Hp.
  - now apply Permutation_nil in Hp.
  - destruct H2 as [|a2 t2 Hs2 Hall2];
      [apply Permutation_sym, Permutation_nil in Hp; discriminate|].
    assert (Heq : a1 = a2).
    { pose proof (Permutation_in a1 Hp (or_introl eq_refl)) as [Ha|Ha]; [auto|].
      pose proof (Permutation_in a2 (Permutation_sym Hp) (or_introl eq_refl))
        as [Hb|Hb]; [auto|].
      rewrite Forall_forall in Hall1, Hall2.
      specialize (Hall1 a2 Hb). specialize (Hall2 a1 Ha).
      unfold keyBefore in Hall1. lia. }
    subst a2. f_equal. apply IH; [exact Hs2|].
    eapply Permutation_cons_inv; exact Hp.
Qed.

Lemma ordered_filter (l l' : list A) :
  StronglySorted (keyBefore key) l -> Permutation l l' -> ordered l' ->
  filter P l' = filter P l.
Proof.
  intros Hs Hp Ho. symmetry. apply sorted_rearrangement_unique.
  - now apply StronglySorted_filter.
  - now apply ordered_filter_keys.
  - now apply Permutation_filter.
Qed.
End SelectedOrdered.
End InsertionSortFacts.

(** ** Facts about the extraction *)

Lemma skipComments_incl (cs : list CommentGroup) (lb : Pos) (c : CommentGroup) :
  In c (skipComments cs lb) -> In c cs.
Proof.
  induction cs as [|c0 cs IH]; simpl; [tauto|].
  destruct (cgPos c0 <? lb); [right; auto | simpl; tauto].
Qed.

Definition commentBefore (a b : CommentGroup) : Prop := cgPos a <= cgPos b.

(** In a comment list in source order, nothing left by the skipping loop
    starts before the bound. *)
Lemma skipComments_ge (cs : list CommentGroup) (lb : Pos) (c : CommentGroup) :
  StronglySorted commentBefore cs -> In c (skipComments cs lb) -> lb <= cgPos c.
Proof.
  induction cs as [|c0 cs IH]; simpl; [tauto|]. intros Hs Hin.
  inversion Hs as [|? ? Hs' Hall]; subst.
  destruct (Z.ltb_spec (cgPos c0) lb) as [|Hge]; [now apply IH|].
  destruct Hin as [<-|Hin]; [exact Hge|].
  rewrite Forall_forall in Hall. specialize (Hall c Hin).
  unfold commentBefore in Hall. lia.
Qed.


Lemma getDecl_fields (src : slice) (d : Decl) (pos end_ : Pos) (i : Z)
    (r : declaration) :
  getDecl src d pos end_ i = Some r ->
  nodePos r = pos /\ nodeEnd r = end_ /\ OriginalOrder r = i /\
  reslice src (pos - 1) end_ = Some (Text r).
Proof.
  destruct d; simpl; try discriminate;
    destruct (reslice src (pos - 1) end_); try discriminate;
    cbn [bind]; intros [= <-]; simpl; auto.
Qed.


Definition orderBefore (y x : declaration) : Prop :=
  OriginalOrder y < OriginalOrder x.

(** [OriginalOrder] counts up along the extracted declarations. *)
Lemma getDeclsFrom_orders (src : slice) (ds : list Decl) (i : Z)
    (cs : list CommentGroup) (lb : Pos) (decls : list declaration) :
  getDeclsFrom src ds i cs lb = Some decls ->
  StronglySorted orderBefore decls /\
  Forall (fun r => i <= OriginalOrder r) decls.
Proof.
  revert i cs lb decls; induction ds as [|d ds IH]; intros i cs lb decls H;
    simpl in H.
  - injection H as <-. split; constructor.
  - destruct (getDecl src d _ (declEnd d) i) as [r|] eqn:Hr; [|discriminate].
    cbn [bind] in H.
    destruct (getDeclsFrom src ds (i + 1) _ (declEnd d)) as [rest|] eqn:Hrest;
      [|discriminate].
    cbn [bind] in H. injection H as <-.
    apply getDecl_fields in Hr as (_ & _ & Ho & _).
    apply IH in Hrest as [Hs Hall]. split.
    + constructor; [exact Hs|]. eapply Forall_impl; [|exact Hall].
      intros a Ha. unfold orderBefore. simpl in Ha. lia.
    + constructor; [lia|]. eapply Forall_impl; [|exact Hall].
      intros a Ha. simpl in Ha. lia.
Qed.


Lemma skipComments_keeps (cs : list CommentGroup) (lb : Pos) (c : CommentGroup) :
  In c cs -> lb <= cgPos c -> In c (skipComments cs lb).
Proof.
  induction cs as [|c0 cs IH]; simpl; [tauto|]. intros Hin Hge.
  destruct (Z.ltb_spec (cgPos c0) lb) as [Hlt|]; [|exact Hin].
  destruct Hin as [->|Hin]; [lia | now apply IH].
Qed.

Lemma skipComments_sorted (cs : list CommentGroup) (lb : Pos) :
  StronglySorted commentBefore cs ->
  StronglySorted commentBefore (skipComments cs lb).
Proof.
  induction 1 as [|c0 cs Hs IH Hall]; simpl; [constructor|].
  destruct (cgPos c0 <? lb); [exact IH | now constructor].
Qed.

(** With the comments in source order, the node of a declaration starts at
    or before every comment block that lies between the bound and the
    declaration. *)
Lemma nodeStart_covers (cs : list CommentGroup) (lb : Pos) (d : Decl)
    (c : CommentGroup) :
  StronglySorted commentBefore cs -> In c cs -> lb <= cgPos c ->
  cgPos c < declPos d -> nodeStart (skipComments cs lb) d <= cgPos c.
Proof.
  intros Hs Hin Hge Hlt.
  pose proof (skipComments_keeps cs lb c Hin Hge) as Hk.
  pose proof (skipComments_sorted cs lb Hs) as Hs'.
  destruct (skipComments cs lb) as [|c' rest]; [destruct Hk|].
  assert (Hle : cgPos c' <= cgPos c).
  { destruct Hk as [->|Hk]; [lia|]. inversion Hs' as [|? ? _ Hall]; subst.
    rewrite Forall_forall in Hall. exact (Hall c Hk). }
  unfold nodeStart. destruct (Z.ltb_spec (cgPos c') (declPos d)); lia.
Qed.

(** The bound the comment scan starts from: the newline that ends the line
    of the package clause, or the start of the file. *)
Definition firstLeftBound (h : store) (file : File) (src : slice) : option Pos :=
  lb <- newlinePosAfterPackageDecl h file src ;;
  Some (if lb =? NoPos then 1 else lb).

Lemma getDecls_unfold (h : store) (file : File) (src : slice) :
  getDecls h file src =
  (lb <- firstLeftBound h file src ;;
   getDeclsFrom src (Decls file) 0 (Comments file) lb).
Proof.
  unfold getDecls, firstLeftBound.
  now destruct (newlinePosAfterPackageDecl h file src).
Qed.

Lemma getDecls_orders (h : store) (file : File) (src : slice)
    (decls : list declaration) :
  getDecls h file src = Some decls -> StronglySorted orderBefore decls.
Proof.
  rewrite getDecls_unfold.
  destruct (firstLeftBound h file src); [|discriminate]. cbn [bind].
  intros H. now apply getDeclsFrom_orders in H.
Qed.

Lemma getDeclsFrom_length (src : slice) (ds : list Decl) (i : Z)
    (cs : list CommentGroup) (lb : Pos) (decls : list declaration) :
  getDeclsFrom src ds i cs lb = Some decls -> List.length decls = List.length ds.
Proof.
  revert i cs lb decls; induction ds as [|d ds IH]; intros i cs lb decls H;
    simpl in H.
  - now injection H as <-.
  - destruct (getDecl src d _ (declEnd d) i) as [r|]; [|discriminate].
    cbn [bind] in H.
    destruct (getDeclsFrom src ds (i + 1) _ (declEnd d)) as [rest|] eqn:Hrest;
      [|discriminate].
    cbn [bind] in H. injection H as <-. simpl. f_equal. eapply IH, Hrest.
Qed.

Lemma getDecls_length (h : store) (file : File) (src : slice)
    (decls : list declaration) :
  getDecls h file src = Some decls ->
  List.length decls = List.length (Decls file).
Proof.
  rewrite getDecls_unfold.
  destruct (firstLeftBound h file src); [|discriminate]. cbn [bind].
  apply getDeclsFrom_length.
Qed.

(** Every extracted declaration holds the view [src[pos-1:end]]. *)
Lemma getDeclsFrom_texts (src : slice) (ds : list Decl) (i : Z)
    (cs : list CommentGroup) (lb : Pos) (decls : list declaration) :
  getDeclsFrom src ds i cs lb = Some decls ->
  Forall (fun r => reslice src (nodePos r - 1) (nodeEnd r) = Some (Text r)) decls.
Proof.
  revert i cs lb decls; induction ds as [|d ds IH]; intros i cs lb decls H;
    simpl in H.
  - injection H as <-. constructor.
  - destruct (getDecl src d _ (declEnd d) i) as [r|] eqn:Hr; [|discriminate].
    cbn [bind] in H.
    destruct (getDeclsFrom src ds (i + 1) _ (declEnd d)) as [rest|] eqn:Hrest;
      [|discriminate].
    cbn [bind] in H. injection H as <-. constructor; [|eapply IH, Hrest].
    apply getDecl_fields in Hr as (Hp & He & _ & Ht). now rewrite Hp, He.
Qed.

Lemma getDecls_texts (h : store) (file : File) (src : slice)
    (decls : list declaration) :
  getDecls h file src = Some decls ->
  Forall (fun r => reslice src (nodePos r - 1) (nodeEnd r) = Some (Text r)) decls.
Proof.
  rewrite getDecls_unfold.
  destruct (firstLeftBound h file src); [|discriminate]. cbn [bind].
  apply getDeclsFrom_texts.
Qed.


(** ** Facts about the comparator *)

(** The (category, name, receiver type) of a declaration. *)
Definition triple (d : declaration) : Token * option string * option string :=
  (Tok d, getFunctionName d, getReceiverTypeName d).

Definition hasTok (t : Token) (d : declaration) : bool := Token_eqb (Tok d) t.

Definition stableToken (t : Token) : Prop := t = IMPORT \/ t = CONST \/ t = VAR.

(** Two imports, two constants or two variables compare by their indices. *)
Lemma compareDecls_stable (t : Token) (x y : declaration) :
  stableToken t -> hasTok t x = true -> hasTok t y = true ->
  compareDecls x y = Some (cmpCompare_Z (OriginalOrder x) (OriginalOrder y)).
Proof.
  unfold hasTok. intros Ht Hx Hy.
  apply Token_eqb_eq in Hx, Hy. unfold compareDecls. rewrite Hx, Hy.
  destruct Ht as [ -> | [ -> | -> ] ]; reflexivity.
Qed.

(** ** Spans that lie one newline apart *)

Lemma firstn_add_split {A : Type} (a b : nat) (l : list A) :
  firstn (a + b) l = firstn a l ++ firstn b (skipn a l).
Proof.
  revert l; induction a as [|a IH]; intros [|x l]; simpl; auto.
  - now rewrite firstn_nil.
  - now rewrite IH.
Qed.

Lemma skipn_nth_error {A : Type} (n : nat) (l : list A) (x : A) :
  nth_error l n = Some x -> skipn n l = x :: skipn (S n) l.
Proof.
  revert l; induction n as [|n IH]; intros [|y l] H; simpl in *; try discriminate.
  - now injection H as <-.
  - now apply IH.
Qed.

Lemma firstn_split_at {A : Type} (s e m : nat) (l : list A) (x : A) :
  (s <= e)%nat -> (e < m)%nat -> nth_error l e = Some x ->
  firstn (m - s) (skipn s l) =
  firstn (e - s) (skipn s l) ++ [x] ++ firstn (m - S e) (skipn (S e) l).
Proof.
  intros Hse Hem Hx.
  replace (m - s)%nat with ((e - s) + (1 + (m - S e)))%nat by lia.
  rewrite firstn_add_split. f_equal.
  rewrite skipn_skipn. replace (e - s + s)%nat with e by lia.
  rewrite (skipn_nth_error e l x Hx). reflexivity.
Qed.

Lemma last_cons {A : Type} (x d : A) (l : list A) :
  last (x :: l) d = last l x.
Proof.
  revert x d; induction l as [|a l IH]; intros x d; [reflexivity|].
  change (last (x :: a :: l) d) with (last (a :: l) d).
  now rewrite !IH.
Qed.

Lemma Forall_last {A : Type} (P : A -> Prop) (x : A) (l : list A) :
  Forall P (x :: l) -> P (last l x).
Proof.
  revert x; induction l as [|a l IH]; intros x H; inversion H; subst; auto.
  rewrite last_cons. apply IH. assumption.
Qed.

Definition newlineByte : byte := "010"%char.

(** Consecutive spans [src[p1-1:e1]], [src[p2-1:e2]] with exactly one byte
    between them, a newline: [src[e1] = '\n'] and [p2 - 1 = e1 + 1].  [view]
    is the array of [src] read from [src]'s first byte. *)
Fixpoint newlineBetweenSpans (view : bytes) (decls : list declaration) : Prop :=
  match decls with
  | r1 :: (r2 :: _) as rest =>
      nth_error view (Z.to_nat (nodeEnd r1)) = Some newlineByte /\
      nodePos r2 = nodeEnd r1 + 2 /\
      newlineBetweenSpans view rest
  | _ => True
  end.

Definition capacityView (h : store) (s : slice) : bytes :=
  skipn (sl_off s) (array h s).

Lemma joined_cons2 (x y : bytes) (l : list bytes) (sep : bytes) :
  joined (x :: y :: l) sep = x ++ sep ++ joined (y :: l) sep.
Proof. reflexivity. Qed.

(** Joined by newlines, such spans give back the stretch of the source from
    the start of the first to the end of the last. *)
Lemma joined_spans (h : store) (src : slice) (r0 : declaration)
    (decls : list declaration) :
  Forall (fun r => reslice src (nodePos r - 1) (nodeEnd r) = Some (Text r))
    (r0 :: decls) ->
  newlineBetweenSpans (capacityView h src) (r0 :: decls) ->
  let s0 := Z.to_nat (nodePos r0 - 1) in
  let el := Z.to_nat (nodeEnd (last decls r0)) in
  (s0 <= el)%nat /\
  joined (map (contents h) (map Text (r0 :: decls))) newline =
  firstn (el - s0) (skipn s0 (capacityView h src)).
Proof.
  revert r0; induction decls as [|r1 rest IH]; intros r0 Hall Hgap;
    inversion Hall as [|? ? Ht0 Hall']; subst.
  - cbn zeta. simpl. pose proof (reslice_Some _ _ _ _ Ht0) as (Hlo & _).
    split; [lia|]. rewrite (contents_reslice h _ _ _ _ Ht0).
    unfold capacityView. reflexivity.
  - destruct Hgap as (Hnl & Hpos & Hgap').
    specialize (IH r1 Hall' Hgap'). cbn zeta in IH. destruct IH as [Hle IH].
    cbn zeta. cbn [map]. rewrite joined_cons2. cbn [map] in IH. rewrite IH.
    pose proof (reslice_Some _ _ _ _ Ht0) as (Hlo & _).
    rewrite (contents_reslice h _ _ _ _ Ht0). fold (capacityView h src).
    rewrite last_cons.
    assert (Hs1 : Z.to_nat (nodePos r1 - 1) = S (Z.to_nat (nodeEnd r0))) by lia.
    rewrite Hs1 in *. split; [lia|].
    symmetry. apply firstn_split_at; auto; lia.
Qed.

Lemma reslice_prefix (s : slice) (p : Z) :
  0 <= p <= Z.of_nat (sl_cap s) ->
  reslice s 0 p = Some (mkSlice (sl_arr s) (sl_off s) (Z.to_nat p) (sl_cap s)).
Proof.
  intros Hp. unfold reslice.
  destruct (Z.leb_spec 0 0); [|lia]. destruct (Z.leb_spec 0 p); [|lia].
  destruct (Z.leb_spec p (Z.of_nat (sl_cap s))); [|lia]. simpl.
  now rewrite Nat.add_0_r, Nat.sub_0_r, Z.sub_0_r.
Qed.

Lemma reslice_from_tail (s : slice) (e : Z) :
  0 <= e <= Z.of_nat (sl_len s) -> (sl_len s <= sl_cap s)%nat ->
  reslice_from s e =
  Some (mkSlice (sl_arr s) (sl_off s + Z.to_nat e) (sl_len s - Z.to_nat e)
          (sl_cap s - Z.to_nat e)).
Proof.
  intros He Hl. unfold reslice_from, reslice.
  destruct (Z.leb_spec 0 e); [|lia].
  destruct (Z.leb_spec e (Z.of_nat (sl_len s))); [|lia].
  destruct (Z.leb_spec (Z.of_nat (sl_len s)) (Z.of_nat (sl_cap s))); [|lia].
  simpl. do 2 f_equal. lia.
Qed.

(** Among imports, constants and variables the comparator orders by
    category first and index second. *)
Lemma compareDecls_stable_pair (x y : declaration) :
  stableToken (Tok x) -> stableToken (Tok y) ->
  compareDecls x y =
  Some (if declOrder (Tok x) =? declOrder (Tok y)
        then cmpCompare_Z (OriginalOrder x) (OriginalOrder y)
        else cmpCompare_Z (declOrder (Tok x)) (declOrder (Tok y))).
Proof.
  unfold compareDecls.
  intros [Hx|[Hx|Hx]] [Hy|[Hy|Hy]]; rewrite Hx, Hy; reflexivity.
Qed.

Lemma less_stable_iff (x y : declaration) :
  stableToken (Tok x) -> stableToken (Tok y) ->
  less compareDecls x y <->
  declOrder (Tok x) < declOrder (Tok y) \/
  (declOrder (Tok x) = declOrder (Tok y) /\ OriginalOrder x < OriginalOrder y).
Proof.
  intros Hx Hy. unfold less. rewrite (compareDecls_stable_pair x y Hx Hy).
  unfold cmpCompare_Z.
  destruct (Z.eqb_spec (declOrder (Tok x)) (declOrder (Tok y))) as [He|Hne].
  - destruct (Z.ltb_spec (OriginalOrder x) (OriginalOrder y));
      [|destruct (Z.ltb_spec (OriginalOrder y) (OriginalOrder x))];
      (split; [intros (c & [= <-] & Hc); lia | intros H';
        try (eexists; split; [reflexivity|]; lia); lia]).
  - destruct (Z.ltb_spec (declOrder (Tok x)) (declOrder (Tok y)));
      [|destruct (Z.ltb_spec (declOrder (Tok y)) (declOrder (Tok x)))];
      (split; [intros (c & [= <-] & Hc); lia | intros H';
        try (eexists; split; [reflexivity|]; lia); lia]).
Qed.

(** The requirement of [slices.SortFunc] is met on every sequence of
    imports, constants and variables. *)
Lemma compareDecls_strictWeakOrdering_stable (l : list declaration) :
  Forall (fun d => stableToken (Tok d)) l ->
  strictWeakOrdering compareDecls l.
Proof.
  intros Hall. rewrite Forall_forall in Hall. repeat split.
  - intros x y Hx Hy.
    rewrite (compareDecls_stable_pair x y (Hall x Hx) (Hall y Hy)). eauto.
  - intros x y Hx Hy Hxy Hyx.
    apply less_stable_iff in Hxy, Hyx; auto. lia.
  - intros x y z Hx Hy Hz Hxz.
    apply less_stable_iff in Hxz; auto.
    destruct (Z.lt_total (declOrder (Tok x)) (declOrder (Tok y))) as [H1|[H1|H1]];
      [left; apply less_stable_iff; auto | |].
    + destruct (Z.lt_total (OriginalOrder x) (OriginalOrder y)) as [H2|[H2|H2]];
        [left; apply less_stable_iff; auto | |];
        right; apply less_stable_iff; auto; lia.
    + right; apply less_stable_iff; auto; lia.
Qed.

Section Claims.

Variable pdqsortLarge :
  (declaration -> declaration -> option Z) -> list declaration ->
  option (list declaration).

(** Whatever the long-slice sort does, it moves elements around. *)
Hypothesis pdqsortLarge_perm : forall cmp l l',
  pdqsortLarge cmp l = Some l' -> Permutation l l'.

(** The specification of [slices.SortFunc]: when [cmp] is a strict weak
    ordering, the result is in ascending order as determined by [cmp]. *)
Hypothesis pdqsortLarge_ordered : forall cmp l l',
  strictWeakOrdering cmp l -> pdqsortLarge cmp l = Some l' -> ordered cmp l'.

Lemma SortFunc_perm (cmp : declaration -> declaration -> option Z)
    (l l' : list declaration) :
  SortFunc pdqsortLarge cmp l = Some l' -> Permutation l l'.
Proof.
  unfold SortFunc. destruct (List.length l <=? maxInsertion)%nat.
  - apply insertionSortCmpFunc_perm.
  - apply pdqsortLarge_perm.
Qed.

(** Up to [maxInsertion] ascending declarations are left in place. *)
Lemma SortFunc_ascending (l : list declaration) :
  (List.length l <= maxInsertion)%nat -> ascending compareDecls l ->
  SortFunc pdqsortLarge compareDecls l = Some l.
Proof.
  intros Hn Ha. unfold SortFunc.
  destruct (Nat.leb_spec (List.length l) maxInsertion); [|lia].
  now apply insertionSortCmpFunc_ascending.
Qed.

(** C3, amended.  When the sort leaves the declarations in place and
    every captured span (which takes one byte past its declaration) is
    followed by exactly one newline before the next span starts, [Format]
    returns, and what it returns reads as the input did: it is the slice
    [src] itself over unchanged bytes. *)
Theorem Format_sorted_input_unchanged (h : store) (file : File) (src : slice)
    (r0 : declaration) (decls : list declaration) :
  slice_wf h src ->
  getDecls h file src = Some (r0 :: decls) ->
  SortFunc pdqsortLarge compareDecls (r0 :: decls) = Some (r0 :: decls) ->
  newlineBetweenSpans (capacityView h src) (r0 :: decls) ->
  nodeEnd (last decls r0) <= Z.of_nat (sl_len src) ->
  exists h', Format pdqsortLarge h file src = Some (h', src) /\
             contents h' src = contents h src.
Proof.
  intros Hwf Hdecls Hsort Hgap Hend.
  pose proof (getDecls_texts _ _ _ _ Hdecls) as Htexts.
  pose proof (getDecls_length _ _ _ _ Hdecls) as Hlen.
  destruct (joined_spans h src r0 decls Htexts Hgap) as [Hle Hjoin].
  cbn zeta in Hle, Hjoin.
  inversion Htexts as [|? ? Ht0 _]; subst.
  apply reslice_Some in Ht0 as (Hlo & _).
  destruct Hwf as (Harr & Hcap & Hlencap).
  set (s0 := Z.to_nat (nodePos r0 - 1)) in *.
  set (el := Z.to_nat (nodeEnd (last decls r0))) in *.
  set (rewritten := joined (map (contents h) (map Text (r0 :: decls))) newline) in *.
  assert (Hel : (el <= sl_len src)%nat) by (unfold el; lia).
  assert (Hel0 : 0 <= nodeEnd (last decls r0)).
  { pose proof (Forall_last _ _ _ Htexts) as Hl. cbv beta in Hl.
    apply reslice_Some in Hl. lia. }
  set (h1 := fst (alloc h rewritten)).
  assert (Harr1 : array h1 src = array h src) by (apply array_alloc; exact Harr).
  exists h1. split; [|now apply contents_alloc_other].
  unfold Format. destruct (Decls file) as [|d0 ds]; [discriminate|].
  rewrite Hdecls. cbn [bind hd_error]. rewrite Hsort. cbn [bind].
  unfold bytesJoin. fold rewritten.
  set (rw := snd (alloc h rewritten)).
  change (alloc h rewritten) with (h1, rw). cbn beta iota.
  assert (Hrw : contents h1 rw = rewritten) by apply contents_alloc.
  rewrite Hrw, reslice_prefix by lia. cbn [bind]. fold s0.
  set (head := mkSlice (sl_arr src) (sl_off src) s0 (sl_cap src)).
  assert (Hwf1 : slice_wf h1 head).
  { unfold slice_wf, head, array in *; simpl. unfold h1, alloc; simpl.
    rewrite length_app, app_nth1 by lia. simpl. lia. }
  assert (Hrewritten : rewritten =
    firstn (el - s0) (skipn (sl_off head + sl_len head) (array h1 head))).
  { rewrite Hjoin. unfold capacityView. rewrite skipn_skipn. simpl.
    change (array h1 head) with (array h1 src). rewrite Harr1.
    now rewrite (Nat.add_comm s0). }
  rewrite Hrewritten. rewrite append_same; [|exact Hwf1|simpl; lia].
  rewrite last_cons.
  rewrite reslice_from_tail by lia. cbn [bind]. fold el. simpl sl_len.
  set (inner := mkSlice (sl_arr head) (sl_off head) (s0 + (el - s0)) (sl_cap head)).
  set (tail := mkSlice _ _ _ _).
  assert (Hwf2 : slice_wf h1 inner).
  { destruct Hwf1 as (? & ? & ?). unfold slice_wf, inner, array in *; simpl in *. lia. }
  assert (Htail : contents h1 tail =
    firstn (sl_len src - el) (skipn (sl_off inner + sl_len inner) (array h1 inner))).
  { unfold contents, tail; simpl. do 2 f_equal. lia. }
  rewrite Htail, append_same by (auto; simpl; lia).
  do 2 f_equal. unfold inner; simpl. destruct src; simpl in *. f_equal. lia.
Qed.


End Claims.

(** ** Example files

    Each example is a source text with the tree [parser.ParseFile] builds
    for it.  None has more than [maxInsertion] declarations, so the sort is
    the insertion sort whatever stands for the long-slice sort; the examples
    pass the insertion sort for it. *)

Definition longSort :
  (declaration -> declaration -> option Z) -> list declaration ->
  option (list declaration) := insertionSortCmpFunc.

(** The source read from a fresh buffer with [spare] bytes of capacity
    beyond its length, and the text [Format] returns. *)
Definition formatted (file : File) (s : string) (spare : nat) : option string :=
  option_map string_of_list_ascii
    (FormatBytes longSort (storeOf s spare) file (srcOf s spare)).

(** The declarations in the order [Format] writes them. *)
Definition written (file : File) (s : string) : option (list declaration) :=
  decls <- getDecls (storeOf s 0) file (srcOf s 0) ;;
  SortFunc longSort compareDecls decls.

Definition writtenTriples (file : File) (s : string)
  : option (list (Token * option string * option string)) :=
  option_map (map triple) (written file s).

Definition writtenTypeNames (file : File) (s : string)
  : option (list (option string)) :=
  option_map (map getTypeName) (written file s).

(** The bytes of [s] at positions [pos], ..., [end_ - 1]. *)
Definition textAt (s : string) (pos end_ : Pos) : string :=
  string_of_list_ascii (substr (str s) (Z.to_nat (pos - 1)) (Z.to_nat (end_ - 1))).

Definition receiver (name : string) : option (list Field) :=
  Some [mkField (Ident name)].

Definition pkg (name : string) (decls : list Decl) (comments : list CommentGroup)
  : File := mkFile 1 (Some name) decls comments.

Module Items.
Definition src : string := "package p

type item2 int

type item10 int

type item9 int
".
Definition file : File := pkg "p"
  [GenDecl 12 26 TYPE [TypeSpec "item2"];
   GenDecl 28 43 TYPE [TypeSpec "item10"];
   GenDecl 45 59 TYPE [TypeSpec "item9"]] [].

Lemma items_positions :
  textAt src 12 26 = "type item2 int"%string /\
  textAt src 28 43 = "type item10 int"%string /\
  textAt src 45 59 = "type item9 int"%string.
Proof. repeat split. Qed.
End Items.

(** C1, at the specification's own example.  The first bytes that differ decide
    before any digit run is read: '2' against '1' puts "item2" after
    "item10", '9' against '1' puts "item9" after "item10", and the types
    item2, item10, item9 are written in the order item10, item2, item9. *)
Theorem item2_sorts_after_item10 :
  compareStringsWithWholeNumbers "item2" "item10" = 1 /\
  compareStringsWithWholeNumbers "item9" "item10" = 1 /\
  writtenTypeNames Items.file Items.src =
    Some [Some "item10"; Some "item2"; Some "item9"]%string /\
  formatted Items.file Items.src 0 = Some "package p

type item10 int

type item2 int

type item9 int
"%string.
Proof. repeat split; vm_compute; reflexivity. Qed.

Module Zeros.
Definition src : string := "package p

type x0 int

type x00 int
".
Definition file : File := pkg "p"
  [GenDecl 12 23 TYPE [TypeSpec "x0"]; GenDecl 25 37 TYPE [TypeSpec "x00"]] [].

Definition src' : string := "package p

type x00 int

type x0 int
".
Definition file' : File := pkg "p"
  [GenDecl 12 24 TYPE [TypeSpec "x00"]; GenDecl 26 37 TYPE [TypeSpec "x0"]] [].

Lemma zeros_positions :
  textAt src 12 23 = "type x0 int"%string /\
  textAt src 25 37 = "type x00 int"%string /\
  textAt src' 12 24 = "type x00 int"%string /\
  textAt src' 26 37 = "type x0 int"%string.
Proof. repeat split. Qed.
End Zeros.

(** C10.  "x0" and "x00" compare as equal in both directions: both digit
    runs are all zeros and trim to the empty string; the same holds for "x"
    followed by any two runs of zeros.  Two types named x0 and x00 compare
    as equal under the comparator, and [Format] writes them in whichever
    order they came. *)
Theorem x0_x00_compare_equal :
  compareStringsWithWholeNumbers "x0" "x00" = 0 /\
  compareStringsWithWholeNumbers "x00" "x0" = 0 /\
  (forall n m, compareStringsWithWholeNumbers (zeroName n) (zeroName m) = 0) /\
  (exists a b, getDecls (storeOf Zeros.src 0) Zeros.file (srcOf Zeros.src 0)
                 = Some [a; b] /\
               getTypeName a = Some "x0"%string /\
               getTypeName b = Some "x00"%string /\
               compareDecls a b = Some 0 /\ compareDecls b a = Some 0) /\
  writtenTypeNames Zeros.file Zeros.src = Some [Some "x0"; Some "x00"]%string /\
  writtenTypeNames Zeros.file' Zeros.src' = Some [Some "x00"; Some "x0"]%string.
Proof.
  repeat split; try (vm_compute; reflexivity).
  - apply zero_runs_compare_equal.
  - do 2 eexists. repeat split; vm_compute; reflexivity.
Qed.

Module Mains.
Definition src : string := "package main

func main() {}

func main() { return }
".
Definition file : File := pkg "main"
  [FuncDecl 15 29 None "main"; FuncDecl 31 53 None "main"] [].

(** What [Format] returns for [src], and its tree. *)
Definition src' : string := "package main

func main() { return }

func main() {}
".
Definition file' : File := pkg "main"
  [FuncDecl 15 37 None "main"; FuncDecl 39 53 None "main"] [].

Lemma mains_positions :
  textAt src 15 29 = "func main() {}"%string /\
  textAt src 31 53 = "func main() { return }"%string /\
  textAt src' 15 37 = "func main() { return }"%string /\
  textAt src' 39 53 = "func main() {}"%string.
Proof. repeat split. Qed.
End Mains.

Module Owner.
Definition src : string := "package p

type x00 int

func (x0) f() {}

type x0 int
".
Definition file : File := pkg "p"
  [GenDecl 12 24 TYPE [TypeSpec "x00"];
   FuncDecl 26 42 (receiver "x0") "f";
   GenDecl 44 55 TYPE [TypeSpec "x0"]] [].

Lemma owner_positions :
  textAt src 12 24 = "type x00 int"%string /\
  textAt src 26 42 = "func (x0) f() {}"%string /\
  textAt src 44 55 = "type x0 int"%string.
Proof. repeat split. Qed.
End Owner.

(** C5, at two failing inputs.  Two functions named "main" compare as -1 in
    both directions, and a function named "main" compares as -1 with
    itself: [compareFuncNames] answers -1 as soon as its first argument is
    "main".  And with the types x00 and x0 and a method [f] of x0, the
    method ties with x00 and x00 ties with x0, yet the method is above x0. *)
Theorem compare_main_main_is_minus_one :
  (exists a b, getDecls (storeOf Mains.src 0) Mains.file (srcOf Mains.src 0)
                 = Some [a; b] /\
               triple a = (FUNC, Some "main", Some "")%string /\
               triple b = (FUNC, Some "main", Some "")%string /\
               compareDecls a b = Some (-1) /\ compareDecls b a = Some (-1) /\
               compareDecls a a = Some (-1)) /\
  (exists t00 m t0,
      getDecls (storeOf Owner.src 0) Owner.file (srcOf Owner.src 0)
        = Some [t00; m; t0] /\
      compareDecls m t00 = Some 0 /\ compareDecls t00 t0 = Some 0 /\
      compareDecls m t0 = Some 1).
Proof.
  split; repeat eexists; vm_compute; reflexivity.
Qed.

Module Methods.
Definition src : string := "package p

type x0 int

type x00 int

func (x0) a() {}

func (x00) b() {}

func (x0) c() {}
".
Definition file : File := pkg "p"
  [GenDecl 12 23 TYPE [TypeSpec "x0"];
   GenDecl 25 37 TYPE [TypeSpec "x00"];
   FuncDecl 39 55 (receiver "x0") "a";
   FuncDecl 57 74 (receiver "x00") "b";
   FuncDecl 76 92 (receiver "x0") "c"] [].

Lemma methods_positions :
  textAt src 12 23 = "type x0 int"%string /\
  textAt src 25 37 = "type x00 int"%string /\
  textAt src 39 55 = "func (x0) a() {}"%string /\
  textAt src 57 74 = "func (x00) b() {}"%string /\
  textAt src 76 92 = "func (x0) c() {}"%string.
Proof. repeat split. Qed.
End Methods.

(** C4, at a failing input.  With the types x0 and x00, whose names compare
    as equal, the methods [a] and [c] of x0 are written with the method [b]
    of x00 between them, and the type x00 stands between the type x0 and its
    methods. *)
Theorem methods_of_x0_are_split :
  writtenTriples Methods.file Methods.src =
    Some [(TYPE, Some "", Some ""); (TYPE, Some "", Some "");
          (METHOD, Some "a", Some "x0"); (METHOD, Some "b", Some "x00");
          (METHOD, Some "c", Some "x0")]%string /\
  writtenTypeNames Methods.file Methods.src =
    Some [Some "x0"; Some "x00"; Some ""; Some ""; Some ""]%string /\
  formatted Methods.file Methods.src 0 = Some Methods.src.
Proof. repeat split; vm_compute; reflexivity. Qed.

Module Trailer.
Definition src : string := "package p

var a = 1
var b = 2
// end
".
Definition file : File := pkg "p"
  [GenDecl 12 21 VAR [ValueSpec]; GenDecl 22 31 VAR [ValueSpec]]
  [mkComment 32 38].

Lemma trailer_positions :
  textAt src 12 21 = "var a = 1"%string /\
  textAt src 22 31 = "var b = 2"%string /\
  textAt src 32 38 = "// end"%string.
Proof. repeat split. Qed.
End Trailer.

(** C7, at two failing inputs.  For the file with two functions named
    "main", [Format] swaps them, and applied to its own output (with the
    tree of that output) swaps them back: the second result is the input
    again, not the first result.  For the file whose two variables stand on
    consecutive lines before a closing comment, the joined texts are one
    byte longer than the stretch they replace; they are written over
    [src] in place and take the first byte of the comment with them, so the
    returned text ends in "/ end", which no longer parses: a second
    [Format] fails where the first returned. *)
Theorem Format_twice_differs :
  formatted Mains.file Mains.src 0 = Some Mains.src' /\
  formatted Mains.file' Mains.src' 0 = Some Mains.src /\
  Mains.src' <> Mains.src /\
  formatted Trailer.file Trailer.src 0 = Some "package p

var a = 1

var b = 2

/ end
"%string.
Proof.
  repeat split; try (vm_compute; reflexivity). discriminate.
Qed.

Module Swap.
Definition src : string := "package p

func b() {}

func a() {}
".
Definition file : File := pkg "p"
  [FuncDecl 12 23 None "b"; FuncDecl 25 36 None "a"] [].

Definition swapped : string := "package p

func a() {}

func b() {}
".

Lemma swap_positions :
  textAt src 12 23 = "func b() {}"%string /\
  textAt src 25 36 = "func a() {}"%string.
Proof. repeat split. Qed.
End Swap.

(** What the caller's slice [src] reads after the call. *)
Definition srcAfter (file : File) (s : string) (spare : nat) : option string :=
  '(h', _) <- Format longSort (storeOf s spare) file (srcOf s spare) ;;
  Some (string_of_list_ascii (contents h' (srcOf s spare))).

(** The backing array of the slice [Format] returns. *)
Definition arrayOfResult (file : File) (s : string) (spare : nat) : option nat :=
  '(_, out) <- Format longSort (storeOf s spare) file (srcOf s spare) ;;
  Some (sl_arr out).

Module Spare.
Definition src : string := "package p

var a = 1
var b = 2
var c = 3

".
Definition file : File := pkg "p"
  [GenDecl 12 21 VAR [ValueSpec]; GenDecl 22 31 VAR [ValueSpec];
   GenDecl 32 41 VAR [ValueSpec]] [].

Lemma spare_positions :
  textAt src 12 21 = "var a = 1"%string /\
  textAt src 22 31 = "var b = 2"%string /\
  textAt src 32 41 = "var c = 3"%string.
Proof. repeat split. Qed.
End Spare.

(** C9, at two failing inputs.  For a file with the functions [b] and [a],
    [Format] returns a slice of the array of [src] itself, and the caller's
    [src] reads as the reordered text after the call: both [append]s found
    room in the capacity of [src[0:firstDeclStart-1]] and wrote in place.
    (With no declarations the result is a copy in a new array.)  For a file
    with three variables on consecutive lines, the result depends on the
    capacity of [src]: with none to spare the first [append] allocates and
    the text comes out whole; with one spare byte it writes in place, over
    the last byte of the source, which the second [append] then reads and
    appends. *)
Theorem Format_writes_into_src :
  arrayOfResult Swap.file Swap.src 0 = Some (sl_arr (srcOf Swap.src 0)) /\
  srcAfter Swap.file Swap.src 0 = Some Swap.swapped /\
  Swap.swapped <> Swap.src /\
  formatted Swap.file Swap.src 0 = Some Swap.swapped /\
  arrayOfResult (pkg "p" [] []) "package p
" 0 = Some 1%nat /\
  formatted Spare.file Spare.src 0 = Some "package p

var a = 1

var b = 2

var c = 3

"%string /\
  formatted Spare.file Spare.src 1 = Some "package p

var a = 1

var b = 2

var c = 3
3"%string.
Proof.
  repeat split; try (vm_compute; reflexivity). discriminate.
Qed.

Module Header.
Definition src : string := "package p

// about b
func b() {}

func a() {}
".
Definition file : File := pkg "p"
  [FuncDecl 23 34 None "b"; FuncDecl 36 47 None "a"] [mkComment 12 22].


Lemma header_positions :
  textAt src 12 22 = "// about b"%string /\
  textAt src 23 34 = "func b() {}"%string /\
  textAt src 36 47 = "func a() {}"%string.
Proof. repeat split. Qed.
End Header.


Module Adjacent.
Definition src : string := "package p

var a = 1
var b = 2
".
Definition file : File := pkg "p"
  [GenDecl 12 21 VAR [ValueSpec]; GenDecl 22 31 VAR [ValueSpec]] [].

Definition spaced : string := "package p

var a = 1

var b = 2
".

Lemma adjacent_positions :
  textAt src 12 21 = "var a = 1"%string /\
  textAt src 22 31 = "var b = 2"%string.
Proof. repeat split. Qed.
End Adjacent.

(** C3 fails for two variables on consecutive lines: they are in sorted
    order (the sort returns them as they are), and [Format] returns a text
    with an empty line between them. *)
Lemma sorted_input_gets_blank_line :
  (exists decls,
      getDecls (storeOf Adjacent.src 0) Adjacent.file (srcOf Adjacent.src 0)
        = Some decls /\
      ascending compareDecls decls /\
      SortFunc longSort compareDecls decls = Some decls) /\
  formatted Adjacent.file Adjacent.src 0 = Some Adjacent.spaced /\
  Adjacent.spaced <> Adjacent.src.
Proof.
  repeat split; try (vm_compute; reflexivity); [|discriminate].
  eexists. split; [vm_compute; reflexivity|]. split; [|vm_compute; reflexivity].
  simpl. repeat split. exists 1. split; [vm_compute; reflexivity | lia].
Qed.

Module Sorted.
Definition src : string := Swap.swapped.
Definition file : File := pkg "p"
  [FuncDecl 12 23 None "a"; FuncDecl 25 36 None "b"] [].

Lemma sorted_positions :
  textAt src 12 23 = "func a() {}"%string /\
  textAt src 25 36 = "func b() {}"%string.
Proof. repeat split. Qed.
End Sorted.

Lemma storeOf_wf (s : string) (spare : nat) :
  slice_wf (storeOf s spare) (srcOf s spare).
Proof.
  unfold slice_wf, storeOf, srcOf, array, len; simpl.
  rewrite length_app. unfold zeros. rewrite repeat_length. lia.
Qed.

Lemma Format_sorted_input_unchanged_witness :
  exists h', Format longSort (storeOf Sorted.src 0) Sorted.file (srcOf Sorted.src 0)
               = Some (h', srcOf Sorted.src 0) /\
             contents h' (srcOf Sorted.src 0)
               = contents (storeOf Sorted.src 0) (srcOf Sorted.src 0).
Proof.
  eapply (Format_sorted_input_unchanged longSort).
  - apply storeOf_wf.
  - vm_compute. reflexivity.
  - apply SortFunc_ascending; [vm_compute; lia|].
    simpl. repeat split. exists 1. split; [vm_compute; reflexivity | lia].
  - vm_compute. repeat split.
  - vm_compute. discriminate.
Defined.

Module Scenario.
Definition src : string := "package p

func zeta() {}

const C = 1

type Foo struct{}

var W = 3

func main() {}

func (Foo) Beta() {}

var V = 2

const D = 4
".
Definition file : File := pkg "p"
  [FuncDecl 12 26 None "zeta";
   GenDecl 28 39 CONST [ValueSpec];
   GenDecl 41 58 TYPE [TypeSpec "Foo"];
   GenDecl 60 69 VAR [ValueSpec];
   FuncDecl 71 85 None "main";
   FuncDecl 87 107 (receiver "Foo") "Beta";
   GenDecl 109 118 VAR [ValueSpec];
   GenDecl 120 131 CONST [ValueSpec]] [].

Lemma scenario_positions :
  textAt src 12 26 = "func zeta() {}"%string /\
  textAt src 28 39 = "const C = 1"%string /\
  textAt src 41 58 = "type Foo struct{}"%string /\
  textAt src 60 69 = "var W = 3"%string /\
  textAt src 71 85 = "func main() {}"%string /\
  textAt src 87 107 = "func (Foo) Beta() {}"%string /\
  textAt src 109 118 = "var V = 2"%string /\
  textAt src 120 131 = "const D = 4"%string.
Proof. repeat split. Qed.

Lemma scenario_output :
  formatted file src 0 = Some "package p

const C = 1

const D = 4

var W = 3

var V = 2

type Foo struct{}

func (Foo) Beta() {}

func main() {}

func zeta() {}
"%string.
Proof. vm_compute. reflexivity. Qed.
End Scenario.


(** * Further properties of the code *)

(** ** The numeric-aware comparison as an ordering *)

Lemma byte_eqb_sym (x y : byte) : byte_eqb x y = byte_eqb y x.
Proof. unfold byte_eqb. apply Ascii.eqb_sym. Qed.

Lemma byte_eqb_refl (x : byte) : byte_eqb x x = true.
Proof. unfold byte_eqb. apply Ascii.eqb_refl. Qed.

Lemma byte_eqb_eq (x y : byte) : byte_eqb x y = true -> x = y.
Proof. unfold byte_eqb. apply Ascii.eqb_eq. Qed.

Lemma cmpCompare_nat_opp (x y : nat) : cmpCompare_nat y x = - cmpCompare_nat x y.
Proof.
  unfold cmpCompare_nat.
  destruct (Nat.ltb_spec x y), (Nat.ltb_spec y x); lia.
Qed.

Lemma cmpCompare_Z_opp (x y : Z) : cmpCompare_Z y x = - cmpCompare_Z x y.
Proof.
  unfold cmpCompare_Z.
  destruct (Z.ltb_spec x y), (Z.ltb_spec y x); lia.
Qed.

Lemma cmpCompare_byte_opp (x y : byte) :
  cmpCompare_byte y x = - cmpCompare_byte x y.
Proof. apply cmpCompare_nat_opp. Qed.

Lemma cmpCompare_string_opp (a b : bytes) :
  cmpCompare_string b a = - cmpCompare_string a b.
Proof.
  revert b; induction a as [|x a IH]; intros [|y b]; simpl; auto.
  rewrite (byte_eqb_sym y x). destruct (byte_eqb x y); [apply IH|].
  apply cmpCompare_byte_opp.
Qed.

Lemma bytes_eqb_sym (a b : bytes) : bytes_eqb a b = bytes_eqb b a.
Proof.
  revert b; induction a as [|x a IH]; intros [|y b]; simpl; auto.
  now rewrite (byte_eqb_sym x y), IH.
Qed.

Lemma bytes_eqb_refl (a : bytes) : bytes_eqb a a = true.
Proof. induction a as [|x a IH]; simpl; auto. now rewrite byte_eqb_refl. Qed.

(** Swapping the two strings, with their cursors, negates what the loop
    returns. *)
Lemma compareLoop_opp (f1 f2 : nat) (a b : bytes) (i j : nat) (r r' : Z) :
  compareLoop f1 a b i j = Some r -> compareLoop f2 b a j i = Some r' ->
  r' = - r.
Proof.
  revert f2 i j; induction f1 as [|f1 IH]; intros f2 i j H1 H2;
    destruct f2 as [|f2]; cbn [compareLoop] in H1, H2;
    destruct (nth_error a i) as [ai|], (nth_error b j) as [bj|];
    try (injection H1 as <-; injection H2 as <-; reflexivity);
    rewrite (byte_eqb_sym bj ai) in H2;
    destruct (byte_eqb ai bj) eqn:Heq; cbn [negb] in H1, H2;
    try discriminate;
    try (injection H1 as <-; injection H2 as <-; apply cmpCompare_byte_opp).
  apply byte_eqb_eq in Heq. subst bj.
  destruct (isDigit ai); cbn [negb] in H1, H2; [|eapply IH; eassumption].
  destruct (parseNumber a i) as [aNum i'], (parseNumber b j) as [bNum j'].
  rewrite (bytes_eqb_sym bNum aNum) in H2.
  destruct (bytes_eqb aNum bNum); cbn [negb] in H1, H2;
    [eapply IH; eassumption|].
  rewrite (Nat.eqb_sym (len bNum) (len aNum)) in H2.
  destruct (len aNum =? len bNum)%nat; cbn [negb] in H1, H2;
    injection H1 as <-; injection H2 as <-.
  - apply cmpCompare_string_opp.
  - apply cmpCompare_nat_opp.
Qed.

(** X1.  Swapping the arguments of [compareStringsWithWholeNumbers] negates
    the result. *)
Theorem compareStringsWithWholeNumbers_opp (a b : string) :
  compareStringsWithWholeNumbers b a = - compareStringsWithWholeNumbers a b.
Proof.
  eapply compareLoop_opp; apply compareStringsWithWholeNumbers_returns.
Qed.

Lemma compareLoop_refl (f : nat) (a : bytes) (i : nat) (r : Z) :
  compareLoop f a a i i = Some r -> r = 0.
Proof.
  revert i; induction f as [|f IH]; intros i H; cbn [compareLoop] in H;
    destruct (nth_error a i) as [ai|]; try (now injection H as <-);
    rewrite byte_eqb_refl in H; cbn [negb] in H; try discriminate.
  destruct (isDigit ai); cbn [negb] in H; [|eapply IH; eassumption].
  destruct (parseNumber a i) as [aNum i'].
  rewrite bytes_eqb_refl in H. cbn [negb] in H. eapply IH; eassumption.
Qed.

Lemma compareLoop_range (f : nat) (a b : bytes) (i j : nat) (r : Z) :
  compareLoop f a b i j = Some r -> r = -1 \/ r = 0 \/ r = 1.
Proof.
  assert (Hn : forall x y, cmpCompare_nat x y = -1 \/ cmpCompare_nat x y = 0 \/
                           cmpCompare_nat x y = 1).
  { intros x y. unfold cmpCompare_nat.
    destruct (x <? y)%nat; [|destruct (y <? x)%nat]; auto. }
  assert (Hs : forall x y, cmpCompare_string x y = -1 \/
                           cmpCompare_string x y = 0 \/ cmpCompare_string x y = 1).
  { induction x as [|c x IHx]; intros [|d y]; simpl; auto.
    destruct (byte_eqb c d); [apply IHx | apply Hn]. }
  revert i j; induction f as [|f IH]; intros i j H; cbn [compareLoop] in H;
    destruct (nth_error a i) as [ai|], (nth_error b j) as [bj|];
    try (injection H as <-; auto; fail);
    destruct (negb (byte_eqb ai bj));
    try (injection H as <-; apply Hn); try discriminate.
  destruct (negb (isDigit ai)); [eapply IH; eassumption|].
  destruct (parseNumber a i) as [aNum i'], (parseNumber b j) as [bNum j'].
  destruct (negb (bytes_eqb aNum bNum)); [|eapply IH; eassumption].
  destruct (negb (len aNum =? len bNum)%nat); injection H as <-; auto.
Qed.

(** X2.  [compareStringsWithWholeNumbers] returns -1, 0 or 1, and 0 when
    both arguments are the same string. *)
Theorem compareStringsWithWholeNumbers_range (a b : string) :
  (compareStringsWithWholeNumbers a b = -1 \/
   compareStringsWithWholeNumbers a b = 0 \/
   compareStringsWithWholeNumbers a b = 1) /\
  compareStringsWithWholeNumbers a a = 0.
Proof.
  split.
  - eapply compareLoop_range. apply compareStringsWithWholeNumbers_returns.
  - eapply compareLoop_refl. apply compareStringsWithWholeNumbers_returns.
Qed.

(** ** Where the comparison looks at bytes and where at numbers *)

Lemma nth_error_middle (p rest : bytes) (c : byte) :
  nth_error (p ++ c :: rest) (List.length p) = Some c.
Proof. rewrite nth_error_app2, Nat.sub_diag by lia. reflexivity. Qed.

(** Over a common stretch without digits the cursors advance together. *)
Lemma compareLoop_skip (p1 p2 sa sb : bytes) (f : nat) :
  Forall (fun c => isDigit c = false) p2 ->
  compareLoop (List.length p2 + f) (p1 ++ p2 ++ sa) (p1 ++ p2 ++ sb)
    (List.length p1) (List.length p1) =
  compareLoop f (p1 ++ p2 ++ sa) (p1 ++ p2 ++ sb)
    (List.length p1 + List.length p2) (List.length p1 + List.length p2).
Proof.
  revert p1; induction p2 as [|c p2 IH]; intros p1 Hp.
  - simpl. now rewrite Nat.add_0_r.
  - inversion Hp as [|? ? Hc Hp']; subst.
    cbn [List.length Nat.add compareLoop app].
    rewrite !nth_error_middle, byte_eqb_refl, Hc. cbn [negb].
    specialize (IH (p1 ++ [c]) Hp').
    rewrite <- !app_assoc, length_app in IH. cbn [app List.length] in IH.
    replace (List.length p1 + 1)%nat with (S (List.length p1)) in IH by lia.
    rewrite IH. now rewrite Nat.add_succ_r.
Qed.

(** X3.  Two names that agree on a stretch without digits and then differ
    in one byte are ordered by that byte, whether or not it is a digit. *)
Theorem first_difference_decides (a b : string) (p ra rb : bytes) (x y : byte) :
  str a = p ++ x :: ra -> str b = p ++ y :: rb ->
  Forall (fun c => isDigit c = false) p -> x <> y ->
  compareStringsWithWholeNumbers a b = cmpCompare_byte x y.
Proof.
  intros Ha Hb Hp Hxy.
  unfold compareStringsWithWholeNumbers, compareStringsWithWholeNumbers_opt.
  rewrite Ha, Hb. unfold len. rewrite length_app. cbn [List.length].
  pose proof (compareLoop_skip [] p (x :: ra) (y :: rb) (S (List.length ra)) Hp)
    as Hskip.
  cbn [app List.length Nat.add] in Hskip. rewrite Hskip.
  cbn [compareLoop]. rewrite !nth_error_middle.
  destruct (byte_eqb x y) eqn:Heq; [apply byte_eqb_eq in Heq; contradiction|].
  reflexivity.
Qed.

Lemma first_difference_decides_witness :
  compareStringsWithWholeNumbers "item9" "item10"
  = cmpCompare_byte "9"%char "1"%char.
Proof.
  apply (first_difference_decides "item9" "item10" (str "item") [] (str "0")).
  - reflexivity.
  - reflexivity.
  - repeat constructor.
  - discriminate.
Defined.

Lemma scanDigits_run (r rest : bytes) (j : nat) :
  Forall (fun c => isDigit c = true) r ->
  match rest with c :: _ => isDigit c = false | [] => True end ->
  scanDigits (r ++ rest) j = (j + List.length r)%nat.
Proof.
  revert j; induction r as [|c r IH]; intros j Hr Hrest.
  - destruct rest as [|c rest]; simpl; [lia|]. simpl in Hrest. rewrite Hrest. lia.
  - inversion Hr as [|? ? Hc Hr']; subst. simpl. rewrite Hc, IH by auto. lia.
Qed.

(** [parseNumber] at the start of a digit run that does not begin with a
    zero: the whole run, and the index behind it. *)
Lemma parseNumber_run (p r rest : bytes) (d : byte) :
  Forall (fun c => isDigit c = true) r ->
  match rest with c :: _ => isDigit c = false | [] => True end ->
  d <> "0"%char ->
  parseNumber (p ++ d :: r ++ rest) (List.length p) =
  (d :: r, (List.length p + S (List.length r))%nat).
Proof.
  intros Hr Hrest Hd. unfold parseNumber.
  assert (Hskip : skipn (S (List.length p)) (p ++ d :: r ++ rest) = r ++ rest).
  { replace (S (List.length p)) with (List.length (p ++ [d]))
      by (rewrite length_app; simpl; lia).
    replace (p ++ d :: r ++ rest) with ((p ++ [d]) ++ r ++ rest)
      by (now rewrite <- app_assoc).
    now rewrite skipn_app, skipn_all, Nat.sub_diag. }
  rewrite Hskip, scanDigits_run by auto. f_equal; [|lia].
  unfold substr.
  replace (skipn (List.length p) (p ++ d :: r ++ rest)) with (d :: r ++ rest)
    by (now rewrite skipn_app, skipn_all, Nat.sub_diag).
  replace (S (List.length p) + List.length r - List.length p)%nat
    with (List.length (d :: r)) by (cbn [List.length]; lia).
  change (d :: r ++ rest) with ((d :: r) ++ rest).
  rewrite firstn_app, Nat.sub_diag, firstn_all, firstn_O, app_nil_r.
  simpl. destruct (byte_eqb d "0"%char) eqn:Heq; [|reflexivity].
  apply byte_eqb_eq in Heq. contradiction.
Qed.

Lemma bytes_eqb_eq (a b : bytes) : bytes_eqb a b = true <-> a = b.
Proof.
  revert b; induction a as [|x a IH]; intros [|y b]; simpl; split;
    try congruence; try discriminate.
  - intros H. apply andb_prop in H as [Hx Hab].
    apply byte_eqb_eq in Hx. apply IH in Hab. congruence.
  - intros [= -> ->]. rewrite byte_eqb_refl. now apply IH.
Qed.

(** X4.  After a common stretch without digits, two different digit runs
    that begin with the same non-zero digit are compared as numbers: the
    shorter run first, runs of one length byte by byte; what follows the
    runs is not looked at. *)
Theorem digit_runs_compare_as_numbers (a b : string)
    (p r1 r2 ra rb : bytes) (d : byte) :
  str a = p ++ d :: r1 ++ ra -> str b = p ++ d :: r2 ++ rb ->
  Forall (fun c => isDigit c = false) p ->
  isDigit d = true -> d <> "0"%char ->
  Forall (fun c => isDigit c = true) r1 ->
  Forall (fun c => isDigit c = true) r2 ->
  match ra with c :: _ => isDigit c = false | [] => True end ->
  match rb with c :: _ => isDigit c = false | [] => True end ->
  r1 <> r2 ->
  compareStringsWithWholeNumbers a b =
  if (List.length r1 =? List.length r2)%nat
  then cmpCompare_string r1 r2
  else cmpCompare_nat (List.length r1) (List.length r2).
Proof.
  intros Ha Hb Hp Hd Hd0 Hr1 Hr2 Hra Hrb Hne.
  unfold compareStringsWithWholeNumbers, compareStringsWithWholeNumbers_opt.
  rewrite Ha, Hb. unfold len. rewrite length_app. cbn [List.length].
  pose proof (compareLoop_skip [] p (d :: r1 ++ ra) (d :: r2 ++ rb)
                (S (List.length (r1 ++ ra))) Hp) as Hskip.
  cbn [app List.length Nat.add] in Hskip. rewrite Hskip.
  cbn [compareLoop]. rewrite !nth_error_middle, byte_eqb_refl, Hd.
  cbn [negb]. rewrite !parseNumber_run by auto.
  destruct (bytes_eqb (d :: r1) (d :: r2)) eqn:Heq;
    [apply bytes_eqb_eq in Heq; congruence|].
  cbn [negb]. unfold len. cbn [List.length Nat.eqb].
  destruct (List.length r1 =? List.length r2)%nat; cbn [negb].
  - simpl. now rewrite byte_eqb_refl.
  - unfold cmpCompare_nat. cbn [Nat.ltb Nat.leb]. reflexivity.
Qed.

Lemma digit_runs_compare_as_numbers_witness :
  compareStringsWithWholeNumbers "item10b" "item100a" =
  if (List.length (str "0") =? List.length (str "00"))%nat
  then cmpCompare_string (str "0") (str "00")
  else cmpCompare_nat (List.length (str "0")) (List.length (str "00")).
Proof.
  apply (digit_runs_compare_as_numbers "item10b" "item100a" (str "item")
           (str "0") (str "00") (str "b") (str "a") "1"%char).
  - reflexivity.
  - reflexivity.
  - repeat constructor.
  - reflexivity.
  - discriminate.
  - repeat constructor.
  - repeat constructor.
  - reflexivity.
  - reflexivity.
  - discriminate.
Defined.

(** ** The comparator of [Format] *)

(** A function named "main". *)
Definition isMainFunc (d : declaration) : bool :=
  Token_eqb (Tok d) FUNC &&
  match Name d with Some n => String.eqb n mainMethod | None => false end.

Lemma compareFuncNames_opp (a b : string) :
  ~ (a = mainMethod /\ b = mainMethod) ->
  compareFuncNames b a = - compareFuncNames a b.
Proof.
  unfold compareFuncNames. intros H.
  destruct (String.eqb_spec a mainMethod), (String.eqb_spec b mainMethod);
    try reflexivity; [tauto|].
  apply compareStringsWithWholeNumbers_opp.
Qed.

Lemma compareMethodToDecl_methods_opp (a b : declaration) (c : Z) :
  Tok a = METHOD -> Tok b = METHOD ->
  compareMethodToDecl a b = Some c -> compareMethodToDecl b a = Some (- c).
Proof.
  intros Ha Hb. unfold compareMethodToDecl. rewrite Ha, Hb.
  destruct (getReceiverTypeName a) as [ra|]; [|discriminate].
  destruct (getReceiverTypeName b) as [rb|]; [|discriminate].
  cbn [bind]. rewrite (compareStringsWithWholeNumbers_opp ra rb).
  destruct (Z.eqb_spec (compareStringsWithWholeNumbers ra rb) 0) as [He|Hne].
  - rewrite He. cbn [Z.opp Z.eqb].
    destruct (getFunctionName a) as [na|]; [|discriminate].
    destruct (getFunctionName b) as [nb|]; [|discriminate].
    cbn [bind]. intros [= <-].
    now rewrite (compareStringsWithWholeNumbers_opp na nb).
  - destruct (Z.eqb_spec (- compareStringsWithWholeNumbers ra rb) 0); [lia|].
    now intros [= <-].
Qed.

(** X5.  Except for two functions that are both named "main", comparing two
    declarations the other way round returns, and returns the negated
    result. *)
Theorem compareDecls_opp (a b : declaration) (c : Z) :
  compareDecls a b = Some c ->
  isMainFunc a && isMainFunc b = false ->
  compareDecls b a = Some (- c).
Proof.
  unfold compareDecls, isMainFunc. intros H Hmain.
  destruct (Token_eqb (Tok a) METHOD) eqn:Ha.
  - apply Token_eqb_eq in Ha.
    destruct (Token_eqb (Tok b) METHOD) eqn:Hb.
    + apply Token_eqb_eq in Hb. now apply compareMethodToDecl_methods_opp.
    + rewrite H. reflexivity.
  - destruct (Token_eqb (Tok b) METHOD) eqn:Hb.
    + destruct (compareMethodToDecl b a) as [c0|]; [|discriminate].
      cbn [bind] in H. injection H as <-. f_equal. lia.
    + destruct (Tok a) eqn:Ta, (Tok b) eqn:Tb; try discriminate;
        cbn [Token_eqb negb declOrder] in *;
        try (injection H as <-; reflexivity);
        try (injection H as <-; now rewrite cmpCompare_Z_opp).
      * unfold getTypeName in *. rewrite Ta, Tb in *. cbn [Token_eqb negb] in *.
        destruct (Specs a) as [|[| |na] ?]; try discriminate.
        destruct (Specs b) as [|[| |nb] ?]; try discriminate.
        cbn [bind] in *. injection H as <-.
        now rewrite (compareStringsWithWholeNumbers_opp na nb).
      * unfold getFunctionName in *. rewrite Ta, Tb in *.
        cbn [Token_eqb negb andb] in *.
        destruct (Name a) as [na|]; [|discriminate].
        destruct (Name b) as [nb|]; [|discriminate].
        cbn [bind] in *. injection H as <-. f_equal.
        apply compareFuncNames_opp. intros [-> ->].
        rewrite String.eqb_refl in Hmain. discriminate.
Qed.

(** ** More facts about the insertion sort *)

Section InsertionSortOrder.
Context {A : Type} (cmp : A -> A -> option Z).

(** [x] is not below [y]. *)
Definition notBelow (x y : A) : Prop := exists c, cmp x y = Some c /\ 0 <= c.

(** The reversed prefix of the sort: no element below its right neighbour
    (the element that stands left of it in the data). *)
Fixpoint chainLeft (left : list A) : Prop :=
  match left with
  | a :: (b :: _) as rest => notBelow a b /\ chainLeft rest
  | _ => True
  end.

Lemma ascendingFrom_snoc (prev : option A) (m : list A) (a : A) :
  ascendingFrom cmp prev m ->
  match last (map Some m) prev with
  | Some x => notBelow a x
  | None => True
  end ->
  ascendingFrom cmp prev (m ++ [a]).
Proof.
  revert prev; induction m as [|b m IH]; intros prev Hm Ha.
  - simpl in *. split; [|exact I]. destruct prev; auto.
  - destruct Hm as [Hb Hm]. cbn [app ascendingFrom]. split; [exact Hb|].
    apply IH; [exact Hm|]. cbn [map] in Ha. now rewrite last_cons in Ha.
Qed.

Lemma chainLeft_ascending (left : list A) :
  chainLeft left -> ascending cmp (rev left).
Proof.
  unfold ascending.
  induction left as [|a [|b rest] IH]; intros H.
  - exact I.
  - simpl. auto.
  - destruct H as [Hab H]. specialize (IH H).
    change (rev (a :: b :: rest)) with (rev (b :: rest) ++ [a]).
    apply ascendingFrom_snoc; [exact IH|].
    cbn [rev]. rewrite map_app. cbn [map].
    now rewrite last_last.
Qed.

Section Opposed.
Variable R : A -> A -> Prop.
Hypothesis R_sym : forall x y, R x y -> R y x.
Hypothesis R_opp : forall x y c, R x y -> cmp x y = Some c -> cmp y x = Some (- c).

(** Inserting [x] keeps the chain when every element [x] moves past
    answers the opposite way. *)
Lemma insertLeft_chain (x : A) (left l : list A) :
  (forall y, In y left -> R x y) ->
  chainLeft left -> insertLeft cmp x left = Some l ->
  chainLeft l /\
  (match l with
   | z :: _ => z = x \/ exists left', left = z :: left'
   | [] => False
   end).
Proof.
  revert l; induction left as [|y left IH]; intros l HR Hc H; simpl in H.
  - injection H as <-. simpl. auto.
  - destruct (cmp x y) as [c|] eqn:Hxy; [|discriminate]. cbn [bind] in H.
    destruct (Z.ltb_spec c 0) as [Hneg|Hpos].
    + destruct (insertLeft cmp x left) as [l'|] eqn:Hl; [|discriminate].
      cbn [bind] in H. injection H as <-.
      assert (Hc' : chainLeft left) by (destruct left; [exact I | apply Hc]).
      destruct (IH l' (fun z Hz => HR z (or_intror Hz)) Hc' eq_refl)
        as [Hchain Hhead].
      split; [|right; eauto].
      destruct l' as [|z l'']; [destruct Hhead|].
      cbn [chainLeft]. split; [|exact Hchain].
      destruct Hhead as [->|(left' & ->)].
      * exists (- c). split; [|lia]. apply R_opp; auto. apply HR. now left.
      * apply Hc.
    + injection H as <-. split; [|now left].
      cbn [chainLeft]. split; [exists c; auto | exact Hc].
Qed.

Lemma insertionLoop_chain (data left l : list A) :
  ForallOrdPairs R data ->
  (forall y x, In y left -> In x data -> R x y) ->
  chainLeft left -> insertionLoop cmp data left = Some l ->
  ascending cmp l.
Proof.
  revert left l; induction data as [|x data IH]; intros left l Hd HR Hc H;
    simpl in H.
  - injection H as <-. now apply chainLeft_ascending.
  - destruct (insertLeft cmp x left) as [left'|] eqn:Hins; [|discriminate].
    cbn [bind] in H.
    pose proof (insertLeft_perm cmp _ _ _ Hins) as Hperm.
    inversion Hd as [|? ? Hx Hd']; subst.
    eapply IH; [exact Hd' | | |exact H].
    + intros y z Hy Hz.
      apply (Permutation_in _ (Permutation_sym Hperm)) in Hy.
      destruct Hy as [<-|Hy]; [|apply HR; [exact Hy | now right]].
      apply R_sym. rewrite Forall_forall in Hx. now apply Hx.
    + eapply insertLeft_chain; [|exact Hc|exact Hins].
      intros y Hy. apply HR; [exact Hy | now left].
Qed.

(** Sorted once, a sequence is ascending, and sorting it again returns it
    as it is. *)
Lemma insertionSortCmpFunc_twice (data l : list A) :
  ForallOrdPairs R data ->
  insertionSortCmpFunc cmp data = Some l ->
  ascending cmp l /\ insertionSortCmpFunc cmp l = Some l.
Proof.
  intros Hd H.
  assert (Ha : ascending cmp l).
  { eapply insertionLoop_chain; [exact Hd | | | exact H].
    - intros y x [].
    - exact I. }
  split; [exact Ha | now apply insertionSortCmpFunc_ascending].
Qed.
End Opposed.

(** The result is in the order of any rank that [cmp] respects. *)
Section Ranked.
Variable rank : A -> Z.
Hypothesis cmp_rank : forall x y c, cmp x y = Some c ->
  (c < 0 -> rank x <= rank y) /\ (0 <= c -> rank y <= rank x).

Definition rankLe (x y : A) : Prop := rank x <= rank y.

Lemma insertLeft_ranked (x : A) (left l : list A) :
  StronglySorted (fun a b => rank b <= rank a) left ->
  insertLeft cmp x left = Some l ->
  StronglySorted (fun a b => rank b <= rank a) l.
Proof.
  revert l; induction left as [|y left IH]; intros l Hs H; simpl in H.
  - injection H as <-. repeat constructor.
  - inversion Hs as [|? ? Hs' Hall]; subst.
    destruct (cmp x y) as [c|] eqn:Hxy; [|discriminate]. cbn [bind] in H.
    destruct (cmp_rank x y c Hxy) as [Hlt Hge].
    destruct (Z.ltb_spec c 0) as [Hneg|Hpos].
    + destruct (insertLeft cmp x left) as [l'|] eqn:Hl; [|discriminate].
      cbn [bind] in H. injection H as <-.
      constructor; [now apply IH|].
      apply insertLeft_perm in Hl. rewrite Forall_forall in *.
      intros z Hz. apply (Permutation_in _ (Permutation_sym Hl)) in Hz.
      destruct Hz as [<-|Hz]; [now apply Hlt | now apply Hall].
    + injection H as <-. constructor; [exact Hs|].
      constructor; [now apply Hge|]. rewrite Forall_forall in *.
      intros z Hz. specialize (Hall z Hz). specialize (Hge Hpos). lia.
Qed.

Lemma insertionSortCmpFunc_ranked (data l : list A) :
  insertionSortCmpFunc cmp data = Some l -> StronglySorted rankLe l.
Proof.
  unfold insertionSortCmpFunc.
  assert (Hgen : forall data left l,
    StronglySorted (fun a b => rank b <= rank a) left ->
    insertionLoop cmp data left = Some l -> StronglySorted rankLe l).
  { clear data l. induction data as [|x data IH]; intros left l Hs H; simpl in H.
    - injection H as <-. now apply StronglySorted_rev in Hs.
    - destruct (insertLeft cmp x left) as [left'|] eqn:Hins; [|discriminate].
      cbn [bind] in H. eapply IH; [|exact H].
      eapply insertLeft_ranked; eauto. }
  apply Hgen. constructor.
Qed.

Lemma ordered_ranked (l : list A) :
  (forall x y, In x l -> In y l -> exists c, cmp x y = Some c) ->
  ordered cmp l -> StronglySorted rankLe l.
Proof.
  intros Htot Ho. unfold ordered in Ho.
  induction Ho as [|x l Hs IH Hall]; [constructor|].
  constructor.
  - apply IH. intros a b Ha Hb. apply Htot; now right.
  - rewrite Forall_forall in *. intros y Hy. unfold rankLe.
    destruct (Htot y x (or_intror Hy) (or_introl eq_refl)) as [c Hc].
    destruct (cmp_rank y x c Hc) as [_ Hge].
    destruct (Z.ltb_spec c 0) as [Hneg|Hpos]; [|now apply Hge].
    exfalso. apply (Hall y Hy). exists c. auto.
Qed.
End Ranked.
End InsertionSortOrder.

(** ** The order of the written declarations *)

(** The place of a declaration among the groups of the output: imports,
    constants, variables, types with methods, functions named "main",
    other functions. *)
Definition declRank (d : declaration) : Z :=
  match Tok d with
  | IMPORT => 0
  | CONST => 1
  | VAR => 2
  | TYPE | METHOD => 3
  | FUNC => if isMainFunc d then 4 else 5
  end.

Lemma compareDecls_rank (x y : declaration) (c : Z) :
  compareDecls x y = Some c ->
  (c < 0 -> declRank x <= declRank y) /\ (0 <= c -> declRank y <= declRank x).
Proof.
  intros H. unfold declRank, isMainFunc.
  unfold compareDecls, compareMethodToDecl in H.
  destruct (Tok x) eqn:Tx, (Tok y) eqn:Ty;
    cbn [Token_eqb negb declOrder andb] in H |- *;
    repeat match type of H with
    | context [getReceiverTypeName ?d] =>
        destruct (getReceiverTypeName d); [|discriminate]; cbn [bind] in H
    | context [getTypeName ?d] =>
        destruct (getTypeName d); [|discriminate]; cbn [bind] in H
    end;
    repeat match type of H with
    | context [if ?b then _ else _] => destruct b
    end;
    try (unfold getFunctionName in H; rewrite ?Tx, ?Ty in H;
         cbn [Token_eqb negb andb] in H);
    repeat match type of H with
    | context [Name ?d] =>
        destruct (Name d); [|discriminate]; cbn [bind] in H
    end;
    try (injection H as <-);
    try (unfold compareFuncNames);
    repeat match goal with
    | |- context [if ?b then _ else _] => destruct b
    end;
    try (cbn; split; intros; lia).
Qed.

Section SortedOutput.
Variable pdqsortLarge :
  (declaration -> declaration -> option Z) -> list declaration ->
  option (list declaration).
Hypothesis pdqsortLarge_perm : forall cmp l l',
  pdqsortLarge cmp l = Some l' -> Permutation l l'.
Hypothesis pdqsortLarge_ordered : forall cmp l l',
  strictWeakOrdering cmp l -> pdqsortLarge cmp l = Some l' -> ordered cmp l'.

(** X6.  The written sequence goes through the groups in order: imports,
    constants, variables, types together with methods, functions named
    "main", other functions.  This holds for up to [maxInsertion]
    declarations, and for more when the comparator meets the requirement of
    [slices.SortFunc]. *)
Theorem SortFunc_groups_in_order (decls sorted : list declaration) :
  ((List.length decls <= maxInsertion)%nat \/
   strictWeakOrdering compareDecls decls) ->
  SortFunc pdqsortLarge compareDecls decls = Some sorted ->
  StronglySorted (rankLe declRank) sorted.
Proof.
  intros Hn Hs. unfold SortFunc in Hs.
  destruct (Nat.leb_spec (List.length decls) maxInsertion) as [Hsmall|Hlarge].
  - eapply insertionSortCmpFunc_ranked; [|exact Hs]. apply compareDecls_rank.
  - destruct Hn as [Hn|Hswo]; [lia|].
    pose proof (pdqsortLarge_perm _ _ _ Hs) as Hperm.
    eapply ordered_ranked; [apply compareDecls_rank | |].
    + destruct Hswo as (Htot & _). intros x y Hx Hy.
      apply Htot; eapply Permutation_in; try apply Permutation_sym; eauto.
    + eapply pdqsortLarge_ordered; eauto.
Qed.

(** X7.  Sorting up to [maxInsertion] declarations of which no two are
    functions named "main" gives an ascending sequence, and sorting that
    sequence again returns it unchanged. *)
Theorem SortFunc_twice (decls sorted : list declaration) :
  (List.length decls <= maxInsertion)%nat ->
  ForallOrdPairs (fun x y => isMainFunc x && isMainFunc y = false) decls ->
  SortFunc pdqsortLarge compareDecls decls = Some sorted ->
  ascending compareDecls sorted /\
  SortFunc pdqsortLarge compareDecls sorted = Some sorted.
Proof.
  intros Hn Hmain Hs. unfold SortFunc in *.
  destruct (Nat.leb_spec (List.length decls) maxInsertion); [|lia].
  pose proof (insertionSortCmpFunc_perm _ _ _ Hs) as Hperm.
  rewrite <- (Permutation_length Hperm).
  destruct (Nat.leb_spec (List.length decls) maxInsertion); [|lia].
  eapply insertionSortCmpFunc_twice
    with (R := fun x y => isMainFunc x && isMainFunc y = false);
    [| |exact Hmain|exact Hs].
  - intros x y Hxy. now rewrite andb_comm.
  - intros x y c Hxy Hc. now apply compareDecls_opp.
Qed.
End SortedOutput.

Lemma SortFunc_groups_in_order_witness :
  exists decls sorted,
    getDecls (storeOf Scenario.src 0) Scenario.file (srcOf Scenario.src 0)
      = Some decls /\
    SortFunc longSort compareDecls decls = Some sorted /\
    StronglySorted (rankLe declRank) sorted.
Proof.
  do 2 eexists. split; [vm_compute; reflexivity|].
  match goal with |- SortFunc _ _ ?d = _ /\ _ => set (decls := d) end.
  split; [vm_compute; reflexivity|].
  eapply SortFunc_groups_in_order with (pdqsortLarge := longSort) (decls := decls).
  - intros cmp l l'. apply insertionSortCmpFunc_perm.
  - intros cmp l l'. apply insertionSortCmpFunc_ordered.
  - left. vm_compute. lia.
  - vm_compute. reflexivity.
Defined.

Lemma SortFunc_twice_witness :
  exists decls sorted,
    getDecls (storeOf Scenario.src 0) Scenario.file (srcOf Scenario.src 0)
      = Some decls /\
    SortFunc longSort compareDecls decls = Some sorted /\
    ascending compareDecls sorted /\
    SortFunc longSort compareDecls sorted = Some sorted.
Proof.
  do 2 eexists. split; [vm_compute; reflexivity|].
  match goal with |- SortFunc _ _ ?d = _ /\ _ => set (decls := d) end.
  split; [vm_compute; reflexivity|].
  eapply (SortFunc_twice longSort decls).
  - vm_compute. lia.
  - repeat constructor.
  - vm_compute. reflexivity.
Defined.

Lemma compareDecls_opp_witness :
  compareDecls
    (mkDeclaration 12 26 (Some "zeta"%string) 0 None [] (mkSlice 0 11 15 120) FUNC)
    (mkDeclaration 71 85 (Some "main"%string) 4 None [] (mkSlice 0 70 15 61) FUNC)
  = Some (- -1).
Proof.
  apply (compareDecls_opp
    (mkDeclaration 71 85 (Some "main"%string) 4 None [] (mkSlice 0 70 15 61) FUNC)
    (mkDeclaration 12 26 (Some "zeta"%string) 0 None [] (mkSlice 0 11 15 120) FUNC)).
  - vm_compute. reflexivity.
  - reflexivity.
Defined.

(** ** What [Format] does to the store *)


Lemma array_append_other (h : store) (s s' : slice) (t : bytes) :
  (sl_arr s' < List.length h)%nat -> sl_arr s' <> sl_arr s ->
  array (fst (append h s t)) s' = array h s'.
Proof.
  intros Hlt Hne. unfold append.
  destruct (sl_len s + len t <=? sl_cap s)%nat; cbn [fst].
  - unfold array. now apply nth_set_nth_other.
  - now apply array_alloc.
Qed.

Lemma length_append (h : store) (s : slice) (t : bytes) :
  (List.length h <= List.length (fst (append h s t)))%nat.
Proof.
  unfold append. destruct (sl_len s + len t <=? sl_cap s)%nat; cbn [fst].
  - now rewrite length_set_nth.
  - unfold alloc; cbn [fst]. rewrite length_app. simpl. lia.
Qed.

Section StoreFacts.
Variable pdqsortLarge :
  (declaration -> declaration -> option Z) -> list declaration ->
  option (list declaration).

(** X8.  With no declarations [Format] returns a copy: a slice of a new
    array that reads as [src] does, while every slice of the store reads as
    before. *)
Theorem Format_no_declarations (h : store) (file : File) (src : slice) :
  Decls file = [] ->
  exists h' out,
    Format pdqsortLarge h file src = Some (h', out) /\
    contents h' out = contents h src /\
    sl_arr out = List.length h /\
    forall s, (sl_arr s < List.length h)%nat -> contents h' s = contents h s.
Proof.
  intros Hd. unfold Format. rewrite Hd. unfold bytesClone.
  exists (fst (alloc h (contents h src))), (snd (alloc h (contents h src))).
  repeat split.
  - apply contents_alloc.
  - intros s Hs. now apply contents_alloc_other.
Qed.

(** [Format] writes to no array but the one of [src]; it removes no array;
    and what it returns is a slice of the array of [src] or of a new one. *)
Lemma Format_store (h h' : store) (file : File) (src out : slice) :
  Format pdqsortLarge h file src = Some (h', out) ->
  (List.length h <= List.length h')%nat /\
  (forall k, (k < List.length h)%nat -> k <> sl_arr src ->
             nth k h' [] = nth k h []) /\
  (sl_arr out = sl_arr src \/ (List.length h <= sl_arr out)%nat).
Proof.
  intros H. unfold Format in H.
  destruct (Decls file) as [|d0 ds].
  - injection H as <- <-. unfold bytesClone, alloc. cbn [fst snd sl_arr].
    rewrite length_app. cbn [List.length]. repeat split; [lia| |right; lia].
    intros k Hk _. now rewrite app_nth1.
  - destruct (getDecls h file src) as [decls|]; [|discriminate].
    cbn [bind] in H.
    destruct (hd_error decls) as [firstDecl|]; [|discriminate].
    cbn [bind] in H.
    destruct (SortFunc pdqsortLarge compareDecls decls) as [sorted|];
      [|discriminate].
    cbn [bind] in H. unfold bytesJoin in H.
    set (rewritten := joined (map (contents h) (map Text sorted)) newline) in *.
    set (h1 := fst (alloc h rewritten)).
    set (rw := snd (alloc h rewritten)).
    change (alloc h rewritten) with (h1, rw) in H. cbn beta iota in H.
    destruct (reslice src 0 (nodePos firstDecl - 1)) as [head|] eqn:Hhead;
      [|discriminate].
    cbn [bind] in H.
    destruct (append h1 head (contents h1 rw)) as [h2 inner] eqn:Happ.
    assert (Hh2 : h2 = fst (append h1 head (contents h1 rw)))
      by (now rewrite Happ).
    assert (Hinner : inner = snd (append h1 head (contents h1 rw)))
      by (now rewrite Happ).
    destruct (reslice_from src (nodeEnd (last decls firstDecl))) as [tail|];
      [|discriminate].
    cbn [bind] in H. injection H as H.
    assert (Hh' : h' = fst (append h2 inner (contents h2 tail)))
      by (now rewrite H).
    assert (Hout : out = snd (append h2 inner (contents h2 tail)))
      by (now rewrite H).
    apply reslice_Some in Hhead as (_ & _ & Hhead).
    assert (Hlen1 : (List.length h1 = S (List.length h))%nat).
    { unfold h1, alloc; cbn [fst]. rewrite length_app. simpl. lia. }
    assert (Hlen2 : (List.length h1 <= List.length h2)%nat)
      by (rewrite Hh2; apply length_append).
    assert (Hlen3 : (List.length h2 <= List.length h')%nat)
      by (rewrite Hh'; apply length_append).
    assert (Harr_head : sl_arr head = sl_arr src) by (now rewrite Hhead).
    assert (Harr_inner : sl_arr inner = sl_arr src \/
                         (List.length h <= sl_arr inner)%nat).
    { rewrite Hinner. unfold append.
      destruct (sl_len head + len (contents h1 rw) <=? sl_cap head)%nat;
        cbn [snd alloc sl_arr]; [now left | right; lia]. }
    repeat split.
    + lia.
    + intros k Hk Hne.
      pose (s := mkSlice k 0 0 0).
      change (nth k h' []) with (array h' s).
      change (nth k h []) with (array h s).
      rewrite Hh', array_append_other;
        [| cbn [sl_arr s]; lia
         | cbn [sl_arr s]; destruct Harr_inner as [->|]; lia].
      rewrite Hh2, array_append_other;
        [| cbn [sl_arr s]; lia | cbn [sl_arr s]; congruence].
      apply array_alloc. cbn [sl_arr s]. exact Hk.
    + rewrite Hout. unfold append.
      destruct (sl_len inner + len (contents h2 tail) <=? sl_cap inner)%nat;
        cbn [snd alloc sl_arr]; [exact Harr_inner | right; lia].
Qed.
End StoreFacts.

(** ** When the reassembly is right, and when it fails *)

Lemma getDeclsFrom_ends (src : slice) (ds : list Decl) (i : Z)
    (cs : list CommentGroup) (lb : Pos) (decls : list declaration) :
  getDeclsFrom src ds i cs lb = Some decls ->
  map nodeEnd decls = map declEnd ds.
Proof.
  revert i cs lb decls; induction ds as [|d ds IH]; intros i cs lb decls H;
    simpl in H.
  - now injection H as <-.
  - destruct (getDecl src d _ (declEnd d) i) as [r|] eqn:Hr; [|discriminate].
    cbn [bind] in H.
    destruct (getDeclsFrom src ds (i + 1) _ (declEnd d)) as [rest|] eqn:Hrest;
      [|discriminate].
    cbn [bind] in H. injection H as <-.
    apply getDecl_fields in Hr as (_ & He & _). simpl. rewrite He. f_equal.
    eapply IH, Hrest.
Qed.

Lemma last_map {A B : Type} (f : A -> B) (l : list A) (d : A) :
  last (map f l) (f d) = f (last l d).
Proof.
  induction l as [|x [|y l] IH]; try reflexivity.
  change (last (map f (x :: y :: l)) (f d)) with (last (map f (y :: l)) (f d)).
  now rewrite IH.
Qed.

Lemma last_default {A : Type} (l : list A) (d d' : A) :
  l <> [] -> last l d = last l d'.
Proof.
  destruct l as [|x l]; [congruence|]. intros _. now rewrite !last_cons.
Qed.

(** The end [Format] takes for the declaration stretch is the end of the
    last declaration of the file. *)
Lemma getDecls_last_end (h : store) (file : File) (src : slice)
    (decls : list declaration) (r0 : declaration) (d0 : Decl) :
  Decls file <> [] -> getDecls h file src = Some decls ->
  nodeEnd (last decls r0) = declEnd (last (Decls file) d0).
Proof.
  intros Hne H. pose proof (getDecls_length _ _ _ _ H) as Hlen.
  rewrite getDecls_unfold in H.
  destruct (firstLeftBound h file src); [|discriminate]. cbn [bind] in H.
  apply getDeclsFrom_ends in H.
  rewrite <- last_map, H, <- (last_map declEnd).
  apply last_default. destruct (Decls file); [congruence | discriminate].
Qed.


Section Reassembly.
Variable pdqsortLarge :
  (declaration -> declaration -> option Z) -> list declaration ->
  option (list declaration).

(** X9.  A source that ends before the byte after its last declaration
    (a last declaration with no newline behind it) makes [Format] panic:
    [src[lastDeclEnd:]] is out of range. *)
Theorem Format_panics_at_end (h : store) (file : File) (src : slice)
    (d0 : Decl) :
  Decls file <> [] ->
  Z.of_nat (sl_len src) < declEnd (last (Decls file) d0) ->
  Format pdqsortLarge h file src = None.
Proof.
  intros Hne Hend. unfold Format.
  destruct (Decls file) as [|d1 ds] eqn:Hds; [congruence|].
  destruct (getDecls h file src) as [decls|] eqn:Hd; [|reflexivity].
  cbn [bind].
  destruct (hd_error decls) as [firstDecl|]; [|reflexivity]. cbn [bind].
  destruct (SortFunc pdqsortLarge compareDecls decls) as [sorted|];
    [|reflexivity].
  cbn [bind]. destruct (bytesJoin h (map Text sorted) newline) as [h1 rw].
  destruct (reslice src 0 (nodePos firstDecl - 1)) as [head|]; [|reflexivity].
  cbn [bind]. destruct (append h1 head (contents h1 rw)) as [h2 inner].
  assert (Hlast : nodeEnd (last decls firstDecl) = declEnd (last (d1 :: ds) d0)).
  { rewrite <- Hds. apply (getDecls_last_end h file src); [|exact Hd].
    now rewrite Hds. }
  rewrite Hlast. unfold reslice_from, reslice.
  destruct (Z.leb_spec (declEnd (last (d1 :: ds) d0)) (Z.of_nat (sl_len src)));
    [lia|].
  now rewrite andb_false_r.
Qed.

End Reassembly.

(** ** Trees on which [Format] returns *)

(** The three names of a declaration can be read. *)
Definition resolved (r : declaration) : Prop :=
  (exists n, getFunctionName r = Some n) /\
  (exists n, getReceiverTypeName r = Some n) /\
  (exists n, getTypeName r = Some n).

Lemma compareDecls_returns (a b : declaration) :
  resolved a -> resolved b -> exists c, compareDecls a b = Some c.
Proof.
  intros ((fa & Hfa) & (ra & Hra) & (ta & Hta))
         ((fb & Hfb) & (rb & Hrb) & (tb & Htb)).
  unfold compareDecls, compareMethodToDecl.
  rewrite Hfa, Hfb, Hra, Hrb, Hta, Htb. cbn [bind].
  destruct (Tok a) eqn:Ta, (Tok b) eqn:Tb; cbn [Token_eqb negb bind];
    repeat match goal with
    | |- context [if ?c then _ else _] => destruct c
    end; cbn [bind]; eauto.
Qed.

Section InsertionSortReturns.
Context {A : Type} (cmp : A -> A -> option Z).

Lemma insertLeft_returns (x : A) (left : list A) :
  (forall y, In y left -> exists c, cmp x y = Some c) ->
  exists l, insertLeft cmp x left = Some l.
Proof.
  induction left as [|y left IH]; intros H; simpl; [eauto|].
  destruct (H y (or_introl eq_refl)) as [c ->]. cbn [bind].
  destruct (c <? 0); [|eauto].
  destruct IH as [l ->]; [intros z Hz; apply H; now right|].
  cbn [bind]. eauto.
Qed.

Lemma insertionLoop_returns (data left : list A) :
  (forall x y, In x (left ++ data) -> In y (left ++ data) ->
     exists c, cmp x y = Some c) ->
  exists l, insertionLoop cmp data left = Some l.
Proof.
  revert left; induction data as [|x data IH]; intros left H; simpl; [eauto|].
  destruct (insertLeft_returns x left) as [left' Hins].
  { intros y Hy. apply H; apply in_or_app; [right; now left | now left]. }
  rewrite Hins. cbn [bind]. apply IH.
  pose proof (insertLeft_perm cmp _ _ _ Hins) as Hperm.
  assert (Hin : forall z, In z (left' ++ data) -> In z (left ++ x :: data)).
  { intros z Hz. apply in_app_or in Hz as [Hz|Hz]; apply in_or_app.
    - apply (Permutation_in _ (Permutation_sym Hperm)) in Hz.
      destruct Hz as [<-|Hz]; [right; now left | now left].
    - right; now right. }
  intros a b Ha Hb. apply H; now apply Hin.
Qed.

(** The insertion sort returns when [cmp] returns on its elements. *)
Lemma insertionSortCmpFunc_returns (data : list A) :
  (forall x y, In x data -> In y data -> exists c, cmp x y = Some c) ->
  exists l, insertionSortCmpFunc cmp data = Some l.
Proof. intros H. now apply insertionLoop_returns. Qed.
End InsertionSortReturns.

(** A declaration as the parser builds it for a source of [limit] bytes:
    positions in range, and of a shape the sorter knows; a method has a
    receiver whose type unwraps to an identifier, a type declaration
    starts with a type specification. *)
Definition wellFormedDecl (limit : Z) (d : Decl) : Prop :=
  1 <= declPos d /\ declPos d <= declEnd d /\ declEnd d <= limit /\
  match d with
  | FuncDecl _ _ None _ => True
  | FuncDecl _ _ (Some fields) _ =>
      exists f rest n, fields = f :: rest /\ receiverIdent (fieldType f) = Some n
  | GenDecl _ _ TYPE specs => exists n rest, specs = TypeSpec n :: rest
  | GenDecl _ _ tok _ => tok = IMPORT \/ tok = CONST \/ tok = VAR
  | BadDecl _ _ => False
  end.

Lemma getDecl_returns (src : slice) (limit : Z) (d : Decl) (pos : Pos) (i : Z) :
  wellFormedDecl limit d -> limit <= Z.of_nat (sl_cap src) ->
  1 <= pos <= declPos d ->
  exists r, getDecl src d pos (declEnd d) i = Some r /\ resolved r.
Proof.
  intros (Hp & Hpe & He & Hshape) Hlim Hpos.
  assert (Hre : exists text, reslice src (pos - 1) (declEnd d) = Some text).
  { unfold reslice.
    destruct (Z.leb_spec 0 (pos - 1)); [|lia].
    destruct (Z.leb_spec (pos - 1) (declEnd d)); [|lia].
    destruct (Z.leb_spec (declEnd d) (Z.of_nat (sl_cap src))); [|lia].
    simpl. eauto. }
  destruct Hre as [text Htext].
  destruct d as [p e recv name|p e tok specs|p e]; [| |destruct Hshape];
    cbn [getDecl declEnd] in *; rewrite Htext; cbn [bind];
    eexists; (split; [reflexivity|]); unfold resolved, getFunctionName,
      getReceiverTypeName, getTypeName; cbn.
  - destruct recv as [fields|]; cbn; [|repeat split; eauto].
    destruct Hshape as (f & rest & n & -> & Hn). rewrite Hn.
    repeat split; eauto.
  - destruct tok; cbn; try (destruct Hshape as [?|[?|?]]; discriminate);
      try (repeat split; eauto; fail).
    destruct Hshape as (n & rest & ->). repeat split; eauto.
Qed.

Lemma getDeclsFrom_returns (src : slice) (limit : Z) (ds : list Decl) (i : Z)
    (cs : list CommentGroup) (lb : Pos) :
  Forall (wellFormedDecl limit) ds -> limit <= Z.of_nat (sl_cap src) ->
  Forall (fun c => 1 <= cgPos c) cs ->
  exists decls, getDeclsFrom src ds i cs lb = Some decls /\
                Forall resolved decls.
Proof.
  revert i cs lb; induction ds as [|d ds IH]; intros i cs lb Hds Hlim Hcs;
    simpl; [eauto|].
  inversion Hds as [|? ? Hd Hds']; subst.
  assert (Hcs' : Forall (fun c => 1 <= cgPos c) (skipComments cs lb)).
  { rewrite Forall_forall in *. intros c Hc. apply Hcs.
    eapply skipComments_incl; eauto. }
  destruct (getDecl_returns src limit d
              (nodeStart (skipComments cs lb) d) i Hd Hlim) as (r & -> & Hr).
  { unfold nodeStart. destruct Hd as (Hp & _).
    destruct (skipComments cs lb) as [|c rest]; [lia|].
    inversion Hcs'; subst. destruct (Z.ltb_spec (cgPos c) (declPos d)); lia. }
  cbn [bind].
  destruct (IH (i + 1) (skipComments cs lb) (declEnd d) Hds' Hlim Hcs')
    as (rest & -> & Hrest).
  cbn [bind]. eauto.
Qed.

Section Returns.
Variable pdqsortLarge :
  (declaration -> declaration -> option Z) -> list declaration ->
  option (list declaration).

(** X11.  [Format] returns on every tree of up to [maxInsertion]
    declarations whose declarations are well formed and end within the
    source, whose comments have valid positions and whose package clause
    lies in the source. *)
Theorem Format_returns (h : store) (file : File) (src : slice) :
  (sl_len src <= sl_cap src)%nat ->
  (FileName file = None \/ 1 <= Package file <= Z.of_nat (sl_len src) + 1) ->
  Forall (wellFormedDecl (Z.of_nat (sl_len src))) (Decls file) ->
  Forall (fun c => 1 <= cgPos c) (Comments file) ->
  (List.length (Decls file) <= maxInsertion)%nat ->
  exists h' out, Format pdqsortLarge h file src = Some (h', out).
Proof.
  intros Hlen Hpkg Hds Hcs Hn. unfold Format.
  destruct (Decls file) as [|d0 ds] eqn:Hdecls;
    [exists (fst (bytesClone h src)), (snd (bytesClone h src)); reflexivity|].
  assert (Hlb : exists lb, firstLeftBound h file src = Some lb).
  { unfold firstLeftBound, newlinePosAfterPackageDecl.
    destruct (FileName file); [|cbn [bind]; eauto].
    destruct Hpkg as [|Hpkg]; [discriminate|].
    rewrite reslice_from_tail by lia. cbn [bind].
    destruct (_ =? -1); cbn [bind]; eauto. }
  destruct Hlb as [lb Hlb].
  destruct (getDeclsFrom_returns src (Z.of_nat (sl_len src)) (d0 :: ds) 0
              (Comments file) lb Hds) as (decls & Hget & Hres); [lia|exact Hcs|].
  assert (Hd : getDecls h file src = Some decls).
  { rewrite getDecls_unfold, Hlb. cbn [bind]. now rewrite Hdecls. }
  rewrite Hd. cbn [bind].
  pose proof (getDecls_length _ _ _ _ Hd) as Hlength. rewrite Hdecls in Hlength.
  pose proof (getDecls_texts _ _ _ _ Hd) as Htexts.
  destruct decls as [|r0 decls]; [discriminate|]. cbn [hd_error bind].
  assert (Hsort : exists sorted,
            SortFunc pdqsortLarge compareDecls (r0 :: decls) = Some sorted).
  { unfold SortFunc. rewrite Hlength.
    destruct (Nat.leb_spec (List.length (d0 :: ds)) maxInsertion); [|lia].
    apply insertionSortCmpFunc_returns. rewrite Forall_forall in Hres.
    intros x y Hx Hy. apply compareDecls_returns; auto. }
  destruct Hsort as [sorted ->]. cbn [bind].
  destruct (bytesJoin h (map Text sorted) newline) as [h1 rw].
  inversion Htexts as [|? ? Ht0 _]; subst.
  apply reslice_Some in Ht0 as (Hlo & Hhi & _).
  rewrite reslice_prefix by lia. cbn [bind].
  destruct (append h1 _ (contents h1 rw)) as [h2 inner].
  assert (Hend : 0 <= nodeEnd (last (r0 :: decls) r0) <= Z.of_nat (sl_len src)).
  { rewrite (getDecls_last_end h file src _ r0 d0); [| now rewrite Hdecls | exact Hd].
    rewrite Hdecls.
    assert (Hin : In (last (d0 :: ds) d0) (d0 :: ds)).
    { destruct (exists_last (l := d0 :: ds)) as (l' & a & Heq); [discriminate|].
      rewrite Heq, last_last. apply in_or_app. right. now left. }
    rewrite Forall_forall in Hds. destruct (Hds _ Hin) as (? & ? & ? & _). lia. }
  rewrite reslice_from_tail by lia. cbn [bind].
  destruct (append h2 inner _) as [h3 out]. now exists h3, out.
Qed.
End Returns.

Lemma Format_returns_witness :
  exists h' out,
    Format longSort (storeOf Scenario.src 0) Scenario.file (srcOf Scenario.src 0)
    = Some (h', out).
Proof.
  apply (Format_returns longSort).
  - vm_compute. lia.
  - right. vm_compute. split; discriminate.
  - unfold Scenario.file, pkg, Decls.
    repeat (apply Forall_cons;
      [unfold wellFormedDecl; cbn [declPos declEnd]; repeat split;
       try (vm_compute; discriminate); auto;
       try (do 3 eexists; split; reflexivity);
       try (do 2 eexists; reflexivity)|]).
    apply Forall_nil.
  - constructor.
  - vm_compute. lia.
Defined.

(** ** The comment blocks each declaration carries *)

(** Every declaration ends at or behind the bound of the one before it. *)
Fixpoint boundsOrdered (prev : Pos) (ds : list Decl) : Prop :=
  match ds with
  | d :: ds' => prev <= declEnd d /\ boundsOrdered (declEnd d) ds'
  | [] => True
  end.

(** The attachment rule, with [prev] the end of the previous declaration
    (for the first one, the bound the scan starts from): the span of a
    declaration starts at the declaration or in the gap before it, and no
    later than any comment block of that gap. *)
Fixpoint attached (all : list CommentGroup) (prev : Pos) (ds : list Decl)
    (decls : list declaration) : Prop :=
  match ds, decls with
  | d :: ds', r :: decls' =>
      (nodePos r = declPos d \/ prev <= nodePos r < declPos d) /\
      (forall c, In c all -> prev <= cgPos c -> cgPos c < declPos d ->
                 nodePos r <= cgPos c) /\
      attached all (declEnd d) ds' decls'
  | [], [] => True
  | _, _ => False
  end.

Lemma getDeclsFrom_attached (src : slice) (all : list CommentGroup)
    (ds : list Decl) (i : Z) (cs : list CommentGroup) (lb : Pos)
    (decls : list declaration) :
  StronglySorted commentBefore cs ->
  (forall c, In c all -> lb <= cgPos c -> In c cs) ->
  boundsOrdered lb ds ->
  getDeclsFrom src ds i cs lb = Some decls ->
  attached all lb ds decls.
Proof.
  revert i cs lb decls; induction ds as [|d ds IH];
    intros i cs lb decls Hs Hkeep Hb H; simpl in H.
  - injection H as <-. exact I.
  - destruct (getDecl src d _ (declEnd d) i) as [r|] eqn:Hr; [|discriminate].
    cbn [bind] in H.
    destruct (getDeclsFrom src ds (i + 1) _ (declEnd d)) as [rest|] eqn:Hrest;
      [|discriminate].
    cbn [bind] in H. injection H as <-.
    apply getDecl_fields in Hr as (Hp & _).
    destruct Hb as [Hb Hb']. cbn [attached]. rewrite Hp. repeat split.
    + unfold nodeStart.
      destruct (skipComments cs lb) as [|c cs'] eqn:Hsk; [now left|].
      destruct (Z.ltb_spec (cgPos c) (declPos d)); [|now left].
      right. split; [|assumption].
      apply (skipComments_ge cs lb c Hs). rewrite Hsk. now left.
    + intros c Hc Hge Hlt. apply nodeStart_covers; auto.
    + eapply IH; [| | exact Hb' | exact Hrest].
      * now apply skipComments_sorted.
      * intros c Hc Hge. apply skipComments_keeps; [apply Hkeep; auto; lia | lia].
Qed.

(** X12.  With the comment blocks in source order and the declarations
    ending one after the other, each declaration's span starts either at
    the declaration or inside the gap between the previous declaration's
    end and the declaration, and at or before every comment block that
    starts in that gap: all comment blocks of the gap are carried by the
    declaration that follows them. *)
Theorem comments_attach_to_next_declaration (h : store) (file : File)
    (src : slice) (lb : Pos) (decls : list declaration) :
  StronglySorted commentBefore (Comments file) ->
  firstLeftBound h file src = Some lb ->
  boundsOrdered lb (Decls file) ->
  getDecls h file src = Some decls ->
  attached (Comments file) lb (Decls file) decls.
Proof.
  intros Hs Hlb Hb Hd. rewrite getDecls_unfold, Hlb in Hd. cbn [bind] in Hd.
  eapply getDeclsFrom_attached; eauto.
Qed.

Module Gaps.
Definition src : string := "package p

func b() {} // one
// two

/* three */
func a() {}
".
Definition file : File := pkg "p"
  [FuncDecl 12 23 None "b"; FuncDecl 51 62 None "a"]
  [mkComment 24 30; mkComment 31 37; mkComment 39 50].

Lemma gaps_positions :
  textAt src 12 23 = "func b() {}"%string /\
  textAt src 24 30 = "// one"%string /\
  textAt src 31 37 = "// two"%string /\
  textAt src 39 50 = "/* three */"%string /\
  textAt src 51 62 = "func a() {}"%string.
Proof. repeat split. Qed.
End Gaps.

Lemma comments_attach_to_next_declaration_witness :
  exists decls,
    getDecls (storeOf Gaps.src 0) Gaps.file (srcOf Gaps.src 0) = Some decls /\
    attached (Comments Gaps.file) 10 (Decls Gaps.file) decls.
Proof.
  eexists. split; [vm_compute; reflexivity|].
  apply (comments_attach_to_next_declaration (storeOf Gaps.src 0) Gaps.file
           (srcOf Gaps.src 0)).
  - repeat constructor; vm_compute; discriminate.
  - vm_compute. reflexivity.
  - vm_compute. repeat split; discriminate.
  - vm_compute. reflexivity.
Defined.

(** The spans of the example: [func b] starts at itself, [func a] at the
    comment behind [func b]. *)
Lemma gaps_spans :
  option_map (map (fun r => (nodePos r, nodeEnd r)))
    (getDecls (storeOf Gaps.src 0) Gaps.file (srcOf Gaps.src 0))
  = Some [(12, 23); (24, 62)].
Proof. vm_compute. reflexivity. Qed.

(** ** What the extraction records *)

(** The category [getDecl] gives a declaration. *)
Definition kindOf (d : Decl) : option Token :=
  match d with
  | FuncDecl _ _ None _ => Some FUNC
  | FuncDecl _ _ (Some _) _ => Some METHOD
  | GenDecl _ _ tok _ => Some tok
  | BadDecl _ _ => None
  end.

(** The record of one declaration: its end, its category, and as text the
    bytes of the source from the start of the span up to and including the
    byte at offset [declEnd - 1], the byte behind the declaration. *)
Definition recordOf (h : store) (src : slice) (d : Decl) (r : declaration)
  : Prop :=
  nodeEnd r = declEnd d /\
  kindOf d = Some (Tok r) /\
  contents h (Text r) =
    firstn (Z.to_nat (declEnd d) - Z.to_nat (nodePos r - 1))
      (skipn (Z.to_nat (nodePos r - 1)) (capacityView h src)).

Lemma getDeclsFrom_records (h : store) (src : slice) (ds : list Decl) (i : Z)
    (cs : list CommentGroup) (lb : Pos) (decls : list declaration) :
  getDeclsFrom src ds i cs lb = Some decls ->
  Forall2 (recordOf h src) ds decls /\
  map OriginalOrder decls =
    map (fun k => i + Z.of_nat k) (seq 0 (List.length ds)).
Proof.
  revert i cs lb decls; induction ds as [|d ds IH]; intros i cs lb decls H;
    simpl in H.
  - injection H as <-. split; [constructor | reflexivity].
  - destruct (getDecl src d _ (declEnd d) i) as [r|] eqn:Hr; [|discriminate].
    cbn [bind] in H.
    destruct (getDeclsFrom src ds (i + 1) _ (declEnd d)) as [rest|] eqn:Hrest;
      [|discriminate].
    cbn [bind] in H. injection H as <-.
    destruct (IH _ _ _ _ Hrest) as [Hrec Hord].
    assert (Hkind : kindOf d = Some (Tok r)).
    { destruct d as [p e [fields|] name|p e tok specs|p e]; simpl in Hr;
        try discriminate;
        destruct (reslice src _ _); try discriminate;
        cbn [bind] in Hr; injection Hr as <-; reflexivity. }
    apply getDecl_fields in Hr as (Hp & He & Ho & Ht). split.
    + constructor; [|exact Hrec]. unfold recordOf.
      rewrite <- Hp, <- He in Ht. rewrite (contents_reslice h _ _ _ _ Ht).
      rewrite He. repeat split; auto.
    + cbn [List.length seq map]. rewrite Ho, Hord, <- seq_shift, map_map.
      f_equal; [lia|]. apply map_ext. intros k. lia.
Qed.

(** X13.  [getDecls] returns one record per declaration, in source order
    and numbered from 0; each record ends where its declaration ends, is a
    method exactly when the declaration has a receiver, and holds as text
    the source bytes of its span together with the one byte behind the
    declaration. *)
Theorem getDecls_records (h : store) (file : File) (src : slice)
    (decls : list declaration) :
  getDecls h file src = Some decls ->
  Forall2 (recordOf h src) (Decls file) decls /\
  map OriginalOrder decls =
    map Z.of_nat (seq 0 (List.length (Decls file))).
Proof.
  rewrite getDecls_unfold.
  destruct (firstLeftBound h file src); [|discriminate]. cbn [bind].
  intros H. apply (getDeclsFrom_records h) in H as [Hrec Hord].
  split; [exact Hrec|]. rewrite Hord. apply map_ext. intros k. lia.
Qed.

Lemma getDecls_records_witness :
  exists decls,
    getDecls (storeOf Gaps.src 0) Gaps.file (srcOf Gaps.src 0) = Some decls /\
    Forall2 (recordOf (storeOf Gaps.src 0) (srcOf Gaps.src 0))
      (Decls Gaps.file) decls /\
    map OriginalOrder decls =
      map Z.of_nat (seq 0 (List.length (Decls Gaps.file))).
Proof.
  eexists. split; [vm_compute; reflexivity|].
  apply (getDecls_records (storeOf Gaps.src 0) Gaps.file (srcOf Gaps.src 0)).
  vm_compute. reflexivity.
Defined.

(** ** The pipeline of [formatters/formatter.go]

    A stage is a value of the interface [formatter]: its method [Format]
    takes the file name and a slice and returns a slice or an error; it may
    write to the store, and it may panic ([None]). *)

Inductive outcome :=
| Returned (res : slice)
| Failed (err : string).

Definition formatter := string -> store -> slice -> option (store * outcome).

(** [make([]byte, 0, n)]: a new array of [n] zero bytes, none in use. *)
Definition makeBytes (h : store) (n : nat) : store * slice :=
  (h ++ [zeros n], mkSlice (List.length h) 0 0 n).

(** The loop of [Formatter.Format] over the stages. *)
Fixpoint runFormatters (formatters : list formatter) (filename : string)
    (h : store) (res : slice) : option (store * outcome) :=
  match formatters with
  | [] => Some (h, Returned res)
  | f :: rest =>
      match f filename h res with
      | Some (h', Returned res') => runFormatters rest filename h' res'
      | Some (h', Failed err) => Some (h', Failed err)
      | None => None
      end
  end.

(** [Formatter.Format]: copy [src], then run the stages on the copy. *)
Definition Formatter_Format (formatters : list formatter) (filename : string)
    (h : store) (src : slice) : option (store * outcome) :=
  let '(h0, buf) := makeBytes h (sl_len src) in
  let '(h1, res) := append h0 buf (contents h0 src) in
  runFormatters formatters filename h1 res.

(** [NewFormatter]: the default stages when none are given. *)
Definition NewFormatter (defaultFormatters formatters : list formatter)
  : list formatter :=
  match formatters with
  | [] => defaultFormatters
  | _ :: _ => formatters
  end.

(** [aifiFormatter.Format] as a stage; [ParseFile] is the parser, which
    returns a tree or an error. *)
Definition aifiFormatter
    (ParseFile : string -> bytes -> File + string)
    (pdqsortLarge : (declaration -> declaration -> option Z) ->
                    list declaration -> option (list declaration))
  : formatter :=
  fun filename h src =>
    match ParseFile filename (contents h src) with
    | inr err => Some (h, Failed err)
    | inl file =>
        match Format pdqsortLarge h file src with
        | Some (h', out) => Some (h', Returned out)
        | None => None
        end
    end.

(** What the stages of a pipeline run on. *)
Definition copyOf (h : store) (src : slice) : store * slice :=
  let '(h0, buf) := makeBytes h (sl_len src) in
  append h0 buf (contents h0 src).

Lemma Formatter_Format_copy (fs : list formatter) (name : string) (h : store)
    (src : slice) :
  Formatter_Format fs name h src =
  runFormatters fs name (fst (copyOf h src)) (snd (copyOf h src)).
Proof.
  unfold Formatter_Format, copyOf. cbn [makeBytes].
  now destruct (append _ _ _).
Qed.

Lemma length_contents_wf (h : store) (s : slice) :
  slice_wf h s -> len (contents h s) = sl_len s.
Proof.
  intros (_ & Hc & Hl). unfold contents, len in *.
  rewrite length_firstn, length_skipn. lia.
Qed.

Lemma length_contents_le (h : store) (s : slice) : (len (contents h s) <= sl_len s)%nat.
Proof. unfold contents, len. rewrite length_firstn. lia. Qed.

(** X14.  The stages never see the caller's slice: they run on a copy that
    reads as [src], lies in a new array and has no spare capacity, and the
    copying changes no slice of the caller's store. *)
Theorem Formatter_Format_copies (h : store) (src : slice) :
  slice_wf h src ->
  let '(h1, res) := copyOf h src in
  contents h1 res = contents h src /\
  sl_arr res = List.length h /\
  sl_len res = sl_len src /\ sl_cap res = sl_len src /\
  forall s, (sl_arr s < List.length h)%nat -> contents h1 s = contents h s.
Proof.
  intros Hwf. unfold copyOf. cbn [makeBytes].
  set (h0 := h ++ [zeros (sl_len src)]).
  set (buf := mkSlice (List.length h) 0 0 (sl_len src)).
  assert (H0 : forall s, (sl_arr s < List.length h)%nat ->
                         contents h0 s = contents h s).
  { intros s Hs. unfold contents, array, h0. now rewrite app_nth1. }
  assert (Hsrc : contents h0 src = contents h src) by (apply H0, Hwf).
  assert (Hwfbuf : slice_wf h0 buf).
  { unfold slice_wf, buf, array, h0; cbn [sl_arr sl_off sl_cap sl_len].
    rewrite length_app, app_nth2, Nat.sub_diag by lia. cbn [nth List.length].
    unfold len, zeros. rewrite repeat_length. lia. }
  pose proof (contents_append h0 buf (contents h0 src) Hwfbuf) as Hc.
  pose proof (length_contents_wf h src Hwf) as Hlen.
  unfold append in *. rewrite Hsrc in *. cbn [sl_len sl_cap buf] in *.
  rewrite Hlen in *.
  destruct (Nat.leb_spec (0 + sl_len src) (sl_len src)); [|lia].
  cbn [fst snd sl_arr sl_len sl_cap] in *. repeat split.
  - rewrite Hc. unfold contents at 1. now cbn [sl_len firstn app].
  - intros s Hs. rewrite <- (H0 s Hs). unfold contents, array.
    rewrite nth_set_nth_other; [reflexivity|]. unfold buf. cbn [sl_arr]. lia.
Qed.

Lemma runFormatters_app (fs1 fs2 : list formatter) (name : string)
    (h : store) (res : slice) :
  runFormatters (fs1 ++ fs2) name h res =
  match runFormatters fs1 name h res with
  | Some (h', Returned res') => runFormatters fs2 name h' res'
  | other => other
  end.
Proof.
  revert h res; induction fs1 as [|f fs1 IH]; intros h res; [reflexivity|].
  cbn [app runFormatters].
  destruct (f name h res) as [[h' [res'|err]]|]; auto.
Qed.

(** X15.  A pipeline of two lists of stages is the first list followed, on
    its result and without another copy, by the second; when a stage of the
    first list fails or panics, no stage of the second list is run and that
    failure is the result. *)
Theorem Formatter_Format_app (fs1 fs2 : list formatter) (name : string)
    (h : store) (src : slice) :
  Formatter_Format (fs1 ++ fs2) name h src =
  match Formatter_Format fs1 name h src with
  | Some (h', Returned res') => runFormatters fs2 name h' res'
  | other => other
  end.
Proof. rewrite !Formatter_Format_copy. apply runFormatters_app. Qed.

(** A stage that writes only to the array of its argument and to new
    arrays, and returns a slice of one of these. *)
Definition frameSafe (f : formatter) : Prop :=
  forall name h s h' o, f name h s = Some (h', o) ->
    (List.length h <= List.length h')%nat /\
    (forall k, (k < List.length h)%nat -> k <> sl_arr s ->
               nth k h' [] = nth k h []) /\
    (forall out, o = Returned out ->
                 sl_arr out = sl_arr s \/ (List.length h <= sl_arr out)%nat).

Lemma runFormatters_frame (fs : list formatter) (name : string) (n : nat)
    (h h' : store) (res : slice) (o : outcome) :
  Forall frameSafe fs ->
  (n <= sl_arr res)%nat -> (n <= List.length h)%nat ->
  runFormatters fs name h res = Some (h', o) ->
  (forall k, (k < n)%nat -> nth k h' [] = nth k h []) /\
  (forall out, o = Returned out -> (n <= sl_arr out)%nat).
Proof.
  revert h res; induction fs as [|f fs IH]; intros h res Hfs Hres Hn H;
    cbn [runFormatters] in H.
  - injection H as <- <-. split; [reflexivity|]. now intros out [= <-].
  - inversion Hfs as [|? ? Hf Hfs']; subst.
    destruct (f name h res) as [[h1 [res1|err]]|] eqn:Hstage; [| |discriminate].
    + destruct (Hf _ _ _ _ _ Hstage) as (Hlen & Hkeep & Hout).
      destruct (IH h1 res1 Hfs') as [Hk Ho]; [| |exact H|].
      * destruct (Hout res1 eq_refl); lia.
      * lia.
      * split; [|exact Ho]. intros k Hk'. rewrite Hk by assumption.
        apply Hkeep; lia.
    + injection H as <- <-.
      destruct (Hf _ _ _ _ _ Hstage) as (Hlen & Hkeep & _).
      split; [|discriminate]. intros k Hk. apply Hkeep; lia.
Qed.

(** X16.  Whatever stages of that kind a pipeline is made of,
    [Formatter.Format] leaves every array of the caller's store as it was
    and returns a slice of an array that did not exist before the call. *)
Theorem Formatter_Format_keeps_caller_store (fs : list formatter)
    (name : string) (h h' : store) (src : slice) (o : outcome) :
  Forall frameSafe fs ->
  Formatter_Format fs name h src = Some (h', o) ->
  (forall k, (k < List.length h)%nat -> nth k h' [] = nth k h []) /\
  (forall out, o = Returned out -> (List.length h <= sl_arr out)%nat).
Proof.
  intros Hfs H. rewrite Formatter_Format_copy in H.
  unfold copyOf in H. cbn [makeBytes] in H.
  set (h0 := h ++ [zeros (sl_len src)]) in *.
  set (buf := mkSlice (List.length h) 0 0 (sl_len src)) in *.
  pose proof (length_contents_le h0 src) as Hle.
  unfold append in H. cbn [sl_len sl_cap buf] in H.
  destruct (Nat.leb_spec (0 + len (contents h0 src)) (sl_len src)); [|lia].
  cbn [fst snd] in H.
  eapply runFormatters_frame with (n := List.length h) in H;
    [|exact Hfs|unfold buf; cbn [sl_arr]; lia|].
  - destruct H as [Hk Ho]. split; [|exact Ho].
    intros k Hk'. rewrite Hk by assumption.
    rewrite nth_set_nth_other by (unfold buf; cbn [sl_arr]; lia).
    unfold h0. now rewrite app_nth1.
  - rewrite length_set_nth. unfold h0. rewrite length_app. simpl. lia.
Qed.

(** X17.  As a stage, [aifiFormatter.Format] writes only to the array of
    its argument and to new arrays and returns a slice of one of these;
    when the source does not parse it writes nothing and returns the
    parser's error. *)
Theorem aifiFormatter_frameSafe
    (ParseFile : string -> bytes -> File + string)
    (pdqsortLarge : (declaration -> declaration -> option Z) ->
                    list declaration -> option (list declaration)) :
  frameSafe (aifiFormatter ParseFile pdqsortLarge) /\
  forall name h s err, ParseFile name (contents h s) = inr err ->
    aifiFormatter ParseFile pdqsortLarge name h s = Some (h, Failed err).
Proof.
  split.
  - intros name h s h' o H. unfold aifiFormatter in H.
    destruct (ParseFile name (contents h s)) as [file|err].
    + destruct (Format pdqsortLarge h file s) as [[h1 out]|] eqn:HF;
        [|discriminate].
      injection H as <- <-.
      destruct (Format_store pdqsortLarge _ _ _ _ _ HF) as (Hlen & Hkeep & Hout).
      repeat split; auto. now intros out' [= <-].
    + injection H as <- <-. repeat split; auto. discriminate.
  - intros name h s err Hp. unfold aifiFormatter. now rewrite Hp.
Qed.

Lemma Formatter_Format_copies_witness :
  let '(h1, res) := copyOf (storeOf Scenario.src 3) (srcOf Scenario.src 3) in
  contents h1 res
    = contents (storeOf Scenario.src 3) (srcOf Scenario.src 3) /\
  sl_arr res = List.length (storeOf Scenario.src 3) /\
  sl_len res = sl_len (srcOf Scenario.src 3) /\
  sl_cap res = sl_len (srcOf Scenario.src 3) /\
  forall s, (sl_arr s < List.length (storeOf Scenario.src 3))%nat ->
            contents h1 s = contents (storeOf Scenario.src 3) s.
Proof.
  apply (Formatter_Format_copies (storeOf Scenario.src 3) (srcOf Scenario.src 3)).
  apply storeOf_wf.
Defined.

(** A parser for the examples: the tree of the scenario. *)
Definition parseScenario (filename : string) (source : bytes) : File + string :=
  inl Scenario.file.

Lemma Formatter_Format_keeps_caller_store_witness :
  exists h' o,
    Formatter_Format [aifiFormatter parseScenario longSort] "scenario.go"
      (storeOf Scenario.src 0) (srcOf Scenario.src 0) = Some (h', o) /\
    (forall k, (k < List.length (storeOf Scenario.src 0))%nat ->
               nth k h' [] = nth k (storeOf Scenario.src 0) []) /\
    (forall out, o = Returned out ->
                 (List.length (storeOf Scenario.src 0) <= sl_arr out)%nat).
Proof.
  do 2 eexists. split; [vm_compute; reflexivity|].
  apply (Formatter_Format_keeps_caller_store
           [aifiFormatter parseScenario longSort] "scenario.go"
           (storeOf Scenario.src 0) _ (srcOf Scenario.src 0)).
  - constructor; [apply aifiFormatter_frameSafe | constructor].
  - vm_compute. reflexivity.
Defined.

(** ** The theorems above at example files *)

Lemma Format_no_declarations_witness :
  exists h' out,
    Format longSort (storeOf "package p
" 0) (pkg "p" [] []) (srcOf "package p
" 0) = Some (h', out) /\
    contents h' out = contents (storeOf "package p
" 0) (srcOf "package p
" 0) /\
    sl_arr out = List.length (storeOf "package p
" 0) /\
    forall s, (sl_arr s < List.length (storeOf "package p
" 0))%nat -> contents h' s = contents (storeOf "package p
" 0) s.
Proof.
  apply (Format_no_declarations longSort). reflexivity.
Defined.

Module Unterminated.
Definition src : string := "package p

var a = 1".
Definition file : File := pkg "p" [GenDecl 12 21 VAR [ValueSpec]] [].

Lemma unterminated_positions : textAt src 12 21 = "var a = 1"%string.
Proof. reflexivity. Qed.
End Unterminated.

Lemma Format_panics_at_end_witness :
  Format longSort (storeOf Unterminated.src 8) Unterminated.file
    (srcOf Unterminated.src 8) = None.
Proof.
  apply (Format_panics_at_end longSort _ _ _ (BadDecl 0 0)).
  - discriminate.
  - vm_compute. reflexivity.
Defined.


(** The joined texts of the scenario are as long as the stretch they
    replace, so its output is reassembled as stated. *)
Lemma scenario_fits :
  exists decls firstDecl sorted,
    getDecls (storeOf Scenario.src 0) Scenario.file (srcOf Scenario.src 0)
      = Some decls /\
    hd_error decls = Some firstDecl /\
    SortFunc longSort compareDecls decls = Some sorted /\
    Z.of_nat (len (joined (map (contents (storeOf Scenario.src 0))
                             (map Text sorted)) newline))
      <= nodeEnd (last decls firstDecl) - (nodePos firstDecl - 1).
Proof.
  do 3 eexists. repeat split; try (vm_compute; reflexivity).
  vm_compute. discriminate.
Qed.

(** X18.  On a sequence of imports, constants and variables the comparator
    returns for every pair and is a strict weak ordering: the requirement of
    [slices.SortFunc] is met. *)
Theorem comparator_meets_requirement_on_stable_groups (l : list declaration) :
  Forall (fun d => stableToken (Tok d)) l ->
  strictWeakOrdering compareDecls l.
Proof. apply compareDecls_strictWeakOrdering_stable. Qed.

Lemma comparator_meets_requirement_on_stable_groups_witness :
  strictWeakOrdering compareDecls
    [mkDeclaration 12 21 None 0 None [ValueSpec] (mkSlice 0 11 10 20) VAR;
     mkDeclaration 22 31 None 1 None [ValueSpec] (mkSlice 0 21 10 10) CONST].
Proof.
  apply comparator_meets_requirement_on_stable_groups.
  repeat (apply Forall_cons; [unfold stableToken; cbn [Tok]; auto|]).
  apply Forall_nil.
Defined.

(** ** The left bound of the first declaration *)

(** [bytes.Index] for a separator of one byte, counting from [i]: -1 when
    the byte does not occur, else the index of its first occurrence. *)
Lemma bytesIndexFrom_byte (s : bytes) (c : byte) (i : Z) :
  0 <= i ->
  (bytesIndexFrom s [c] i = -1 /\ ~ In c s) \/
  (exists k, bytesIndexFrom s [c] i = i + Z.of_nat k /\
             nth_error s k = Some c /\
             forall k', (k' < k)%nat -> nth_error s k' <> Some c).
Proof.
  assert (Hhead : forall x t, hasPrefix (x :: t) [c] = byte_eqb x c).
  { intros x t. cbn [hasPrefix]. destruct t; apply andb_true_r. }
  revert i; induction s as [|x s IH]; intros i Hi; cbn [bytesIndexFrom].
  - left. split; [reflexivity | intros []].
  - rewrite Hhead. destruct (byte_eqb x c) eqn:Heq.
    + apply byte_eqb_eq in Heq. subst x. right. exists 0%nat.
      repeat split; [lia | intros k' Hk'; lia].
    + assert (Hne : x <> c).
      { intros ->. now rewrite byte_eqb_refl in Heq. }
      destruct (IH (i + 1)) as [[Hr Hnot]|(k & Hr & Hk & Hmin)]; [lia| |].
      * left. split; [exact Hr|]. intros [?|?]; [contradiction | now apply Hnot].
      * right. exists (S k). repeat split; [rewrite Hr; lia | exact Hk |].
        intros [|k'] Hk'; cbn [nth_error]; [congruence | apply Hmin; lia].
Qed.

(** The bytes of [s[lo:]] are those of [s] from index [lo]. *)
Lemma contents_reslice_from (h : store) (s r : slice) (lo : Z) :
  reslice_from s lo = Some r ->
  contents h r = skipn (Z.to_nat lo) (contents h s).
Proof.
  intros H. unfold reslice_from in H.
  rewrite (contents_reslice h _ _ _ _ H). apply reslice_Some in H as (Hlo & _).
  unfold contents. rewrite skipn_firstn_comm, Nat2Z.id. reflexivity.
Qed.

(** X19.  For a file with a package name, a returning
    [newlinePosAfterPackageDecl] has found the package keyword inside the
    source, and its result is [NoPos] when no newline stands at or behind
    the keyword, else the 1-based position of the first such newline. *)
Theorem newlinePosAfterPackageDecl_first_newline (h : store) (file : File)
    (src : slice) (name : string) (p : Pos) :
  FileName file = Some name ->
  newlinePosAfterPackageDecl h file src = Some p ->
  1 <= Package file <= Z.of_nat (sl_len src) + 1 /\
  let rest := skipn (Z.to_nat (Package file - 1)) (contents h src) in
  (p = NoPos /\ ~ In newlineByte rest) \/
  (exists k, p = Package file + Z.of_nat k /\
             nth_error rest k = Some newlineByte /\
             forall k', (k' < k)%nat -> nth_error rest k' <> Some newlineByte).
Proof.
  intros Hname H. unfold newlinePosAfterPackageDecl in H. rewrite Hname in H.
  destruct (reslice_from src (Package file - 1)) as [rest|] eqn:Hrest;
    [|discriminate].
  cbn [bind] in H. rewrite (contents_reslice_from h _ _ _ Hrest) in H.
  unfold reslice_from in Hrest. apply reslice_Some in Hrest as (Hlo & _).
  split; [lia|]. cbn zeta. unfold bytesIndex in H.
  change newline with [newlineByte] in H.
  destruct (bytesIndexFrom_byte
              (skipn (Z.to_nat (Package file - 1)) (contents h src))
              newlineByte 0) as [[Hr Hnot]|(k & Hr & Hk & Hmin)]; [lia| |];
    rewrite Hr in H.
  - injection H as <-. now left.
  - destruct (Z.eqb_spec (0 + Z.of_nat k) (-1)); [lia|].
    injection H as <-. right. exists k. repeat split; [lia | exact Hk | exact Hmin].
Qed.

Lemma newlinePosAfterPackageDecl_first_newline_witness :
  1 <= Package Gaps.file <= Z.of_nat (sl_len (srcOf Gaps.src 0)) + 1 /\
  let rest := skipn (Z.to_nat (Package Gaps.file - 1))
                (contents (storeOf Gaps.src 0) (srcOf Gaps.src 0)) in
  (10 = NoPos /\ ~ In newlineByte rest) \/
  (exists k, 10 = Package Gaps.file + Z.of_nat k /\
             nth_error rest k = Some newlineByte /\
             forall k', (k' < k)%nat -> nth_error rest k' <> Some newlineByte).
Proof.
  apply (newlinePosAfterPackageDecl_first_newline (storeOf Gaps.src 0) Gaps.file
           (srcOf Gaps.src 0) "p").
  - reflexivity.
  - vm_compute. reflexivity.
Defined.

From Stdlib Require Import NArith.

(** * [slices.SortFunc] on more than twelve elements

    The functions of [slices/zsortanyfunc.go] of the Go library, on which
    [slices.SortFunc] rests.  The slice is a list, an index is a natural
    number, and a call is [None] when the comparison function panics.  A
    loop of the source is a recursive function on the number of rounds its
    condition still allows; where that number is not read off the loop
    header it is a bound, and the function is [None] should the bound run
    out (it never does: [SortFunc_returns] below). *)

Module zsortanyfunc.
Section CmpFunc.
Context {E : Type}.
Variable cmp : E -> E -> option Z.
Local Open Scope nat_scope.

(** [cmp(data[i], data[j]) < 0] *)
Definition less (data : list E) (i j : nat) : option bool :=
  x <- nth_error data i ;;
  y <- nth_error data j ;;
  c <- cmp x y ;;
  Some (c <? 0)%Z.

(** [data[i], data[j] = data[j], data[i]] *)
Definition swap (data : list E) (i j : nat) : option (list E) :=
  x <- nth_error data i ;;
  y <- nth_error data j ;;
  Some (set_nth i y (set_nth j x data)).

(** [for j := i; j > a && (cmp(data[j], data[j-1]) < 0); j-- { swap }] *)
Fixpoint insertionInner (data : list E) (a j : nat) : option (list E) :=
  match j with
  | 0 => Some data
  | S j' =>
      if a <? j then
        lt <- less data j j' ;;
        if lt : bool then data' <- swap data j j' ;; insertionInner data' a j'
        else Some data
      else Some data
  end.

(** [for i := a + 1; i < b; i++], with [n] rounds to go. *)
Fixpoint insertionOuter (n : nat) (data : list E) (a i : nat)
  : option (list E) :=
  match n with
  | 0 => Some data
  | S n' => data' <- insertionInner data a i ;; insertionOuter n' data' a (S i)
  end.

Definition insertionSortCmpFunc (data : list E) (a b : nat) : option (list E) :=
  insertionOuter (b - (a + 1)) data a (a + 1).

(** [siftDownCmpFunc(data, lo, hi, first, cmp)]; [root] starts as [lo],
    and [n] bounds the rounds. *)
Fixpoint siftDownCmpFunc (n : nat) (data : list E) (root hi first : nat)
  : option (list E) :=
  let child := 2 * root + 1 in
  if hi <=? child then Some data
  else
    match n with
    | 0 => None
    | S n' =>
        child <- (if child + 1 <? hi then
                    lt <- less data (first + child) (first + child + 1) ;;
                    Some (if lt : bool then child + 1 else child)
                  else Some child) ;;
        lt <- less data (first + root) (first + child) ;;
        if negb lt then Some data
        else
          data' <- swap data (first + root) (first + child) ;;
          siftDownCmpFunc n' data' child hi first
    end.

(** [for i := (hi - 1) / 2; i >= 0; i-- { siftDown(data, i, hi, first) }],
    with [n] rounds to go: the next one has [i = n - 1]. *)
Fixpoint heapBuild (n : nat) (data : list E) (hi first : nat)
  : option (list E) :=
  match n with
  | 0 => Some data
  | S i =>
      data' <- siftDownCmpFunc hi data i hi first ;;
      heapBuild i data' hi first
  end.

(** [for i := hi - 1; i >= 0; i-- { swap(first, first+i); siftDown(data,
    lo, i, first) }], with [n] rounds to go: the next one has [i = n - 1]. *)
Fixpoint heapPop (n : nat) (data : list E) (lo first : nat)
  : option (list E) :=
  match n with
  | 0 => Some data
  | S i =>
      data1 <- swap data first (first + i) ;;
      data2 <- siftDownCmpFunc i data1 lo i first ;;
      heapPop i data2 lo first
  end.

(** In Go [(hi - 1) / 2] is 0 for [hi = 0] as well (the division truncates
    toward zero), so the first loop always makes [(hi - 1) / 2 + 1]
    rounds. *)
Definition heapSortCmpFunc (data : list E) (a b : nat) : option (list E) :=
  let first := a in
  let lo := 0 in
  let hi := b - a in
  data' <- heapBuild ((hi - 1) / 2 + 1) data hi first ;;
  heapPop hi data' lo first.

(** [for i <= j && test(i) { i++ }], with [n = j + 1 - i] candidates left. *)
Fixpoint scanUp (n : nat) (test : nat -> option bool) (i : nat) : option nat :=
  match n with
  | 0 => Some i
  | S n' =>
      t <- test i ;;
      if t : bool then scanUp n' test (S i) else Some i
  end.

(** [for i <= j && test(j) { j-- }], with [n = j + 1 - i] candidates left. *)
Fixpoint scanDown (n : nat) (test : nat -> option bool) (j : nat) : option nat :=
  match n with
  | 0 => Some j
  | S n' =>
      t <- test j ;;
      if t : bool then scanDown n' test (j - 1) else Some j
  end.

Definition notLess (data : list E) (i j : nat) : option bool :=
  lt <- less data i j ;; Some (negb lt).

(** The closing [for] loop of [partitionCmpFunc]; [n] bounds the rounds. *)
Fixpoint partitionLoop (n : nat) (data : list E) (a i j : nat)
  : option (list E * nat) :=
  i <- scanUp (S j - i) (fun i => less data i a) i ;;
  j <- scanDown (S j - i) (fun j => notLess data j a) j ;;
  if j <? i then Some (data, j)
  else
    match n with
    | 0 => None
    | S n' =>
        data' <- swap data i j ;;
        partitionLoop n' data' a (S i) (j - 1)
    end.

Definition partitionCmpFunc (data : list E) (a b pivot : nat)
  : option (list E * nat * bool) :=
  data <- swap data a pivot ;;
  let i := a + 1 in
  let j := b - 1 in
  i <- scanUp (S j - i) (fun i => less data i a) i ;;
  j <- scanDown (S j - i) (fun j => notLess data j a) j ;;
  if j <? i then
    data <- swap data j a ;;
    Some (data, j, true)
  else
    data <- swap data i j ;;
    '(data, j) <- partitionLoop (b - a) data a (S i) (j - 1) ;;
    data <- swap data j a ;;
    Some (data, j, false).

(** The [for] loop of [partitionEqualCmpFunc]; [n] bounds the rounds. *)
Fixpoint partitionEqualLoop (n : nat) (data : list E) (a i j : nat)
  : option (list E * nat) :=
  i <- scanUp (S j - i) (fun i => notLess data a i) i ;;
  j <- scanDown (S j - i) (fun j => less data a j) j ;;
  if j <? i then Some (data, i)
  else
    match n with
    | 0 => None
    | S n' =>
        data' <- swap data i j ;;
        partitionEqualLoop n' data' a (S i) (j - 1)
    end.

Definition partitionEqualCmpFunc (data : list E) (a b pivot : nat)
  : option (list E * nat) :=
  data <- swap data a pivot ;;
  partitionEqualLoop (b - a) data a (a + 1) (b - 1).

Definition maxSteps : nat := 5.
Definition shortestShifting : nat := 50.

(** [for j := i - 1; j >= 1; j-- { if !less(data[j], data[j-1]) { break };
    swap(j, j-1) }] *)
Fixpoint shiftLeft (data : list E) (j : nat) : option (list E) :=
  match j with
  | 0 => Some data
  | S j' =>
      lt <- less data j j' ;;
      if negb lt then Some data
      else data' <- swap data j j' ;; shiftLeft data' j'
  end.

(** [for j := i + 1; j < b; j++ { if !less(data[j], data[j-1]) { break };
    swap(j, j-1) }], with [n = b - j] rounds to go. *)
Fixpoint shiftRight (n : nat) (data : list E) (j : nat) : option (list E) :=
  match n with
  | 0 => Some data
  | S n' =>
      lt <- less data j (j - 1) ;;
      if negb lt then Some data
      else data' <- swap data j (j - 1) ;; shiftRight n' data' (S j)
  end.

(** [for j := 0; j < maxSteps; j++], with [n] rounds to go. *)
Fixpoint partialInsertionLoop (n : nat) (data : list E) (a b i : nat)
  : option (list E * bool) :=
  match n with
  | 0 => Some (data, false)
  | S n' =>
      i <- scanUp (b - i) (fun i => notLess data i (i - 1)) i ;;
      if i =? b then Some (data, true)
      else if b - a <? shortestShifting then Some (data, false)
      else
        data <- swap data i (i - 1) ;;
        data <- (if 2 <=? i - a then shiftLeft data (i - 1) else Some data) ;;
        data <- (if 2 <=? b - i then shiftRight (b - (i + 1)) data (i + 1)
                 else Some data) ;;
        partialInsertionLoop n' data a b i
  end.

Definition partialInsertionSortCmpFunc (data : list E) (a b : nat)
  : option (list E * bool) :=
  partialInsertionLoop maxSteps data a b (a + 1).

(** [bits.Len(x)] *)
Definition bitsLen (x : nat) : nat :=
  match x with 0 => 0 | _ => S (Nat.log2 x) end.

(** [xorshift.Next], on 64 bits. *)
Definition xorshiftNext (r : N) : N :=
  let r := N.lxor r (N.shiftl r 13 mod 2 ^ 64)%N in
  let r := N.lxor r (N.shiftr r 7) in
  N.lxor r (N.shiftl r 17 mod 2 ^ 64)%N.

Definition nextPowerOfTwo (length : nat) : N :=
  N.shiftl 1 (N.of_nat (bitsLen length)).

(** [for i := 0; i < 3; i++], with [n] rounds to go. *)
Fixpoint breakPatternsLoop (n : nat) (data : list E) (a length idx : nat)
    (modulus random : N) (i : nat) : option (list E) :=
  match n with
  | 0 => Some data
  | S n' =>
      let random := xorshiftNext random in
      let other := N.to_nat (N.land random (modulus - 1)) in
      let other := if length <=? other then other - length else other in
      data' <- swap data (idx - 1 + i) (a + other) ;;
      breakPatternsLoop n' data' a length idx modulus random (S i)
  end.

Definition breakPatternsCmpFunc (data : list E) (a b : nat) : option (list E) :=
  let length := b - a in
  if 8 <=? length then
    let random := N.of_nat length in
    let modulus := nextPowerOfTwo length in
    let idx := a + (length / 4) * 2 - 1 in
    breakPatternsLoop 3 data a length idx modulus random 0
  else Some data.

Inductive sortedHint := unknownHint | increasingHint | decreasingHint.

Definition order2CmpFunc (data : list E) (a b swaps : nat)
  : option (nat * nat * nat) :=
  lt <- less data b a ;;
  if lt : bool then Some (b, a, S swaps) else Some (a, b, swaps).

Definition medianCmpFunc (data : list E) (a b c swaps : nat)
  : option (nat * nat) :=
  '(a, b, swaps) <- order2CmpFunc data a b swaps ;;
  '(b, c, swaps) <- order2CmpFunc data b c swaps ;;
  '(a, b, swaps) <- order2CmpFunc data a b swaps ;;
  Some (b, swaps).

Definition medianAdjacentCmpFunc (data : list E) (a swaps : nat)
  : option (nat * nat) :=
  medianCmpFunc data (a - 1) a (a + 1) swaps.

Definition shortestNinther : nat := 50.
Definition maxSwaps : nat := 4 * 3.

Definition choosePivotCmpFunc (data : list E) (a b : nat)
  : option (nat * sortedHint) :=
  let l := b - a in
  let swaps := 0 in
  let i := a + l / 4 * 1 in
  let j := a + l / 4 * 2 in
  let k := a + l / 4 * 3 in
  '(j, swaps) <-
    (if 8 <=? l then
       '(i, j, k, swaps) <-
         (if shortestNinther <=? l then
            '(i, swaps) <- medianAdjacentCmpFunc data i swaps ;;
            '(j, swaps) <- medianAdjacentCmpFunc data j swaps ;;
            '(k, swaps) <- medianAdjacentCmpFunc data k swaps ;;
            Some (i, j, k, swaps)
          else Some (i, j, k, swaps)) ;;
       medianCmpFunc data i j k swaps
     else Some (j, swaps)) ;;
  Some (j, if swaps =? 0 then increasingHint
           else if swaps =? maxSwaps then decreasingHint
           else unknownHint).

(** [for i < j { swap(i, j); i++; j-- }], with [n] rounds to go. *)
Fixpoint reverseRangeLoop (n : nat) (data : list E) (i j : nat)
  : option (list E) :=
  match n with
  | 0 => Some data
  | S n' => data' <- swap data i j ;; reverseRangeLoop n' data' (S i) (j - 1)
  end.

(** From [i = a] and [j = b - 1] the loop makes [(b - a) / 2] rounds. *)
Definition reverseRangeCmpFunc (data : list E) (a b : nat) : option (list E) :=
  reverseRangeLoop ((b - a) / 2) data a (b - 1).

Definition isIncreasing (h : sortedHint) : bool :=
  match h with increasingHint => true | _ => false end.

Definition isDecreasing (h : sortedHint) : bool :=
  match h with decreasingHint => true | _ => false end.

(** [pdqsortCmpFunc(data, a, b, limit, cmp)]; one round of its loop, the
    next round and the call of itself are calls of this function.  The two
    flags are the local variables [wasBalanced] and [wasPartitioned], and
    [n] bounds the depth. *)
Fixpoint pdqsortLoop (n : nat) (data : list E) (a b limit : nat)
    (wasBalanced wasPartitioned : bool) : option (list E) :=
  let length := b - a in
  if length <=? maxInsertion then insertionSortCmpFunc data a b
  else
    match n with
    | 0 => None
    | S n' =>
        if limit =? 0 then heapSortCmpFunc data a b
        else
          '(data, limit) <-
            (if negb wasBalanced then
               data <- breakPatternsCmpFunc data a b ;; Some (data, limit - 1)
             else Some (data, limit)) ;;
          '(pivot, hint) <- choosePivotCmpFunc data a b ;;
          '(data, pivot, hint) <-
            (if isDecreasing hint then
               data <- reverseRangeCmpFunc data a b ;;
               Some (data, (b - 1) - (pivot - a), increasingHint)
             else Some (data, pivot, hint)) ;;
          '(data, sorted) <-
            (if wasBalanced && wasPartitioned && isIncreasing hint then
               partialInsertionSortCmpFunc data a b
             else Some (data, false)) ;;
          if sorted : bool then Some data
          else
            equal <- (if 0 <? a then notLess data (a - 1) pivot
                      else Some false) ;;
            if equal : bool then
              '(data, mid) <- partitionEqualCmpFunc data a b pivot ;;
              pdqsortLoop n' data mid b limit wasBalanced wasPartitioned
            else
              '(data, mid, alreadyPartitioned) <-
                partitionCmpFunc data a b pivot ;;
              let wasPartitioned := alreadyPartitioned in
              let leftLen := mid - a in
              let rightLen := b - mid in
              let balanceThreshold := length / 8 in
              if leftLen <? rightLen then
                let wasBalanced := balanceThreshold <=? leftLen in
                data <- pdqsortLoop n' data a mid limit true true ;;
                pdqsortLoop n' data (mid + 1) b limit wasBalanced wasPartitioned
              else
                let wasBalanced := balanceThreshold <=? rightLen in
                data <- pdqsortLoop n' data (mid + 1) b limit true true ;;
                pdqsortLoop n' data a mid limit wasBalanced wasPartitioned
    end.

Definition pdqsortCmpFunc (data : list E) (a b limit : nat) : option (list E) :=
  pdqsortLoop (b - a) data a b limit true true.

(** [slices.SortFunc(x, cmp)] *)
Definition SortFunc (x : list E) : option (list E) :=
  let n := List.length x in
  pdqsortCmpFunc x 0 n (bitsLen n).

End CmpFunc.

(** ** What the sort does to two classes of elements

    [cls] splits the elements into a low class ([false]) and a high class
    ([true]) that [cmp] never contradicts: an element it reports as less
    than another is not high when the other is low.  Between elements of
    one class [cmp] may answer anything.  The functions are followed on the
    classes of the elements at each index. *)

Section Classes.
Context {E : Type}.
Variable cmp : E -> E -> option Z.
Variable cls : E -> bool.
Hypothesis cmp_cls : forall x y c, cmp x y = Some c ->
  ((c < 0)%Z -> cls x = true -> cls y = true) /\
  ((0 <= c)%Z -> cls y = true -> cls x = true).
Variable orig : list E.
Local Open Scope nat_scope.

(** The only way a call does not return: a comparison that panics. *)
Definition fails : Prop :=
  exists x y, In x orig /\ In y orig /\ cmp x y = None.

Definition run {T : Type} (m : option T) (Q : T -> Prop) : Prop :=
  match m with Some r => Q r | None => fails end.

Lemma run_bind {T U : Type} (m : option T) (k : T -> option U)
    (Q1 : T -> Prop) (Q : U -> Prop) :
  run m Q1 -> (forall r, Q1 r -> run (k r) Q) -> run (bind m k) Q.
Proof. destruct m as [r|]; simpl; auto. Qed.

Lemma run_weaken {T : Type} (m : option T) (Q1 Q : T -> Prop) :
  run m Q1 -> (forall r, Q1 r -> Q r) -> run m Q.
Proof. destruct m as [r|]; simpl; auto. Qed.

Definition Inv (data : list E) : Prop := Permutation orig data.

Definition clsAt (data : list E) (k : nat) : bool :=
  match nth_error data k with Some x => cls x | None => false end.

Lemma Inv_length (data : list E) :
  Inv data -> List.length data = List.length orig.
Proof. intros H. symmetry. now apply Permutation_length. Qed.

Lemma Inv_nth (data : list E) (i : nat) :
  Inv data -> i < List.length orig ->
  exists x, nth_error data i = Some x /\ In x orig.
Proof.
  intros H Hi. rewrite <- (Inv_length data H) in Hi.
  destruct (nth_error data i) as [x|] eqn:Hx.
  - exists x. split; [reflexivity|].
    apply (Permutation_in _ (Permutation_sym H)). eapply nth_error_In, Hx.
  - apply nth_error_None in Hx. lia.
Qed.

Lemma run_less (data : list E) (i j : nat) :
  Inv data -> i < List.length orig -> j < List.length orig ->
  run (less cmp data i j) (fun lt =>
    (lt = true -> clsAt data i = true -> clsAt data j = true) /\
    (lt = false -> clsAt data j = true -> clsAt data i = true)).
Proof.
  intros H Hi Hj. unfold less, clsAt.
  destruct (Inv_nth data i H Hi) as (x & -> & Hx).
  destruct (Inv_nth data j H Hj) as (y & -> & Hy).
  cbn [bind]. destruct (cmp x y) as [c|] eqn:Hc; cbn [bind run].
  - destruct (cmp_cls x y c Hc) as [Hlt Hge].
    destruct (Z.ltb_spec c 0); split; intros; try discriminate; auto.
  - exists x, y. auto.
Qed.

Lemma run_notLess (data : list E) (i j : nat) :
  Inv data -> i < List.length orig -> j < List.length orig ->
  run (notLess cmp data i j) (fun ge =>
    (ge = true -> clsAt data j = true -> clsAt data i = true) /\
    (ge = false -> clsAt data i = true -> clsAt data j = true)).
Proof.
  intros H Hi Hj. unfold notLess. eapply run_bind; [now apply run_less|].
  intros lt [Ht Hf]. cbn [run]. destruct lt; cbn [negb]; split; intros; try discriminate; auto.
Qed.

Lemma nth_error_set_nth_same {A : Type} (n : nat) (x : A) (l : list A) :
  n < List.length l -> nth_error (set_nth n x l) n = Some x.
Proof.
  revert n; induction l as [|y l IH]; intros [|n] Hn; simpl in *; try lia; auto.
  apply IH; lia.
Qed.

Lemma nth_error_set_nth_other {A : Type} (n m : nat) (x : A) (l : list A) :
  n <> m -> nth_error (set_nth n x l) m = nth_error l m.
Proof.
  revert n m; induction l as [|y l IH]; intros [|n] [|m] Hnm; simpl; auto; try lia.
Qed.

(** The indices after an exchange of [i] and [j]. *)
Definition exchanged (i j k : nat) : nat :=
  if k =? i then j else if k =? j then i else k.

Lemma nth_error_swapped {A : Type} (l : list A) (i j : nat) (x y : A) (k : nat) :
  nth_error l i = Some x -> nth_error l j = Some y ->
  nth_error (set_nth i y (set_nth j x l)) k = nth_error l (exchanged i j k).
Proof.
  intros Hx Hy. unfold exchanged.
  assert (Hi : i < List.length l) by (apply nth_error_Some; congruence).
  assert (Hj : j < List.length l) by (apply nth_error_Some; congruence).
  destruct (Nat.eqb_spec k i) as [->|Hki].
  - rewrite nth_error_set_nth_same by (now rewrite length_set_nth). congruence.
  - rewrite nth_error_set_nth_other by congruence.
    destruct (Nat.eqb_spec k j) as [->|Hkj].
    + rewrite nth_error_set_nth_same by assumption. congruence.
    + now rewrite nth_error_set_nth_other by congruence.
Qed.

Lemma exchanged_injective (i j : nat) : Finite.Injective (exchanged i j).
Proof.
  intros p q. unfold exchanged.
  destruct (Nat.eqb_spec p i), (Nat.eqb_spec q i),
    (Nat.eqb_spec p j), (Nat.eqb_spec q j); congruence.
Qed.

Lemma run_swap (data : list E) (i j : nat) :
  Inv data -> i < List.length orig -> j < List.length orig ->
  run (swap data i j) (fun data' =>
    Inv data' /\
    forall k, clsAt data' k = clsAt data (exchanged i j k)).
Proof.
  intros H Hi Hj. unfold swap.
  destruct (Inv_nth data i H Hi) as (x & Hx & _).
  destruct (Inv_nth data j H Hj) as (y & Hy & _).
  rewrite Hx, Hy. cbn [bind run]. split.
  - unfold Inv. etransitivity; [exact H|].
    apply Permutation_nth_error. split; [now rewrite !length_set_nth|].
    exists (exchanged i j). split; [apply exchanged_injective|].
    intros k. now apply nth_error_swapped.
  - intros k. unfold clsAt. now rewrite (nth_error_swapped data i j x y k Hx Hy).
Qed.

(** *** Classes at the indices

    [V] gives the class at each index. *)

Definition sortedIn (a b : nat) (V : nat -> bool) : Prop :=
  forall i j, a <= i -> i < j -> j < b -> V i = true -> V j = true.

Definition sameOut (a b : nat) (V V' : nat -> bool) : Prop :=
  forall k, k < a \/ b <= k -> V' k = V k.

Definition hasLo (a b : nat) (V : nat -> bool) : Prop :=
  exists j, a <= j /\ j < b /\ V j = false.

Definition hasHi (a b : nat) (V : nat -> bool) : Prop :=
  exists j, a <= j /\ j < b /\ V j = true.

(** [V'] is [V] with the classes inside [a, b) rearranged. *)
Definition rearranged (a b : nat) (V V' : nat -> bool) : Prop :=
  sameOut a b V V' /\
  (hasLo a b V' -> hasLo a b V) /\
  (hasHi a b V' -> hasHi a b V).

Lemma rearranged_refl (a b : nat) (V : nat -> bool) : rearranged a b V V.
Proof. repeat split; auto. Qed.

Lemma rearranged_same (a b : nat) (V V' : nat -> bool) :
  (forall k, V' k = V k) -> rearranged a b V V'.
Proof.
  intros H. repeat split.
  - intros k _. apply H.
  - intros (j & ? & ? & Hj). exists j. rewrite <- H. auto.
  - intros (j & ? & ? & Hj). exists j. rewrite <- H. auto.
Qed.

Lemma rearranged_mono (a b a' b' : nat) (V V' : nat -> bool) :
  a <= a' -> b' <= b -> rearranged a' b' V V' -> rearranged a b V V'.
Proof.
  intros Ha Hb (Hout & Hlo & Hhi). repeat split.
  - intros k Hk. apply Hout. lia.
  - intros (j & H1 & H2 & Hj).
    destruct (le_lt_dec a' j) as [H3|H3]; [destruct (le_lt_dec b' j) as [H4|H4]|].
    + exists j. rewrite <- Hout by lia. auto.
    + destruct Hlo as (j' & ? & ? & ?); [exists j; auto|]. exists j'. repeat split; auto; lia.
    + exists j. rewrite <- Hout by lia. auto.
  - intros (j & H1 & H2 & Hj).
    destruct (le_lt_dec a' j) as [H3|H3]; [destruct (le_lt_dec b' j) as [H4|H4]|].
    + exists j. rewrite <- Hout by lia. auto.
    + destruct Hhi as (j' & ? & ? & ?); [exists j; auto|]. exists j'. repeat split; auto; lia.
    + exists j. rewrite <- Hout by lia. auto.
Qed.

Lemma rearranged_trans (a b : nat) (V1 V2 V3 : nat -> bool) :
  rearranged a b V1 V2 -> rearranged a b V2 V3 -> rearranged a b V1 V3.
Proof.
  intros (Ho1 & Hl1 & Hh1) (Ho2 & Hl2 & Hh2). repeat split; auto.
  intros k Hk. now rewrite Ho2, Ho1.
Qed.

Lemma rearranged_exchange (a b i j : nat) (V V' : nat -> bool) :
  a <= i -> i < b -> a <= j -> j < b ->
  (forall k, V' k = V (exchanged i j k)) -> rearranged a b V V'.
Proof.
  intros Hai Hib Haj Hjb H. repeat split.
  - intros k Hk. rewrite H. unfold exchanged.
    destruct (Nat.eqb_spec k i); [lia|]. destruct (Nat.eqb_spec k j); [lia|]. reflexivity.
  - intros (k & H1 & H2 & Hk). rewrite H in Hk. exists (exchanged i j k).
    unfold exchanged in *.
    destruct (Nat.eqb_spec k i); [|destruct (Nat.eqb_spec k j)]; repeat split; auto; lia.
  - intros (k & H1 & H2 & Hk). rewrite H in Hk. exists (exchanged i j k).
    unfold exchanged in *.
    destruct (Nat.eqb_spec k i); [|destruct (Nat.eqb_spec k j)]; repeat split; auto; lia.
Qed.

(** An exchange of two elements of one class changes no class. *)
Lemma exchange_same_class (i j : nat) (V V' : nat -> bool) :
  V i = V j -> (forall k, V' k = V (exchanged i j k)) -> forall k, V' k = V k.
Proof.
  intros Hij H k. rewrite H. unfold exchanged.
  destruct (Nat.eqb_spec k i) as [->|]; [auto|].
  destruct (Nat.eqb_spec k j) as [->|]; auto.
Qed.

Lemma exchanged_l (i j : nat) : exchanged i j i = j.
Proof. unfold exchanged. now rewrite Nat.eqb_refl. Qed.

Lemma exchanged_r (i j : nat) : exchanged i j j = i.
Proof.
  unfold exchanged. destruct (Nat.eqb_spec j i); [auto|]. now rewrite Nat.eqb_refl.
Qed.

Lemma exchanged_other (i j k : nat) : k <> i -> k <> j -> exchanged i j k = k.
Proof.
  intros Hi Hj. unfold exchanged.
  destruct (Nat.eqb_spec k i); [contradiction|].
  destruct (Nat.eqb_spec k j); [contradiction|]. reflexivity.
Qed.

Lemma exchange_facts (i j : nat) (V V' : nat -> bool) :
  (forall k, V' k = V (exchanged i j k)) ->
  V' i = V j /\ V' j = V i /\ forall x, x <> i -> x <> j -> V' x = V x.
Proof.
  intros H. repeat split.
  - now rewrite H, exchanged_l.
  - now rewrite H, exchanged_r.
  - intros x Hi Hj. now rewrite H, exchanged_other.
Qed.

(** The goal is [H] at an index equal to the one of [H]. *)
Ltac by_index H :=
  match goal with
  | |- ?V ?x = _ =>
      match type of H with
      | ?V ?y = _ => replace x with y by lia; exact H
      end
  end.

(** *** Insertion sort *)

Lemma insertionInner_spec (a top : nat) : forall k data,
  Inv data -> top < List.length orig -> a <= k -> k <= top ->
  sortedIn a k (clsAt data) -> sortedIn k (S top) (clsAt data) ->
  (forall i m, a <= i -> i < k -> k < m -> m <= top ->
     clsAt data i = true -> clsAt data m = true) ->
  run (insertionInner cmp data a k) (fun data' =>
    Inv data' /\ rearranged a (S top) (clsAt data) (clsAt data') /\
    sortedIn a (S top) (clsAt data')).
Proof.
  induction k as [|k IH]; intros data Hinv Htop Hak Hkt Hpre Hsuf Hcross.
  - cbn [insertionInner run]. split; [assumption|].
    split; [apply rearranged_refl|].
    assert (a = 0) by lia. subst a. exact Hsuf.
  - cbn [insertionInner]. destruct (Nat.ltb_spec a (S k)) as [Ha|Ha].
    + eapply run_bind; [apply run_less; [assumption|lia|lia]|].
      intros lt [Ht Hf]. destruct lt.
      * specialize (Ht eq_refl). clear Hf.
        eapply run_bind; [apply run_swap; [assumption|lia|lia]|].
        intros data1 [Hinv1 Hex].
        destruct (exchange_facts _ _ _ _ Hex) as (H1 & H2 & H3).
        eapply run_weaken.
        { apply (IH data1 Hinv1 Htop); [lia|lia| | |].
          - intros i j Hi Hij Hj. rewrite !H3 by lia. apply Hpre; lia.
          - intros i j Hi Hij Hj.
            destruct (Nat.eq_dec i k) as [->|Hik].
            + rewrite H2. destruct (Nat.eq_dec j (S k)) as [->|Hjk].
              * rewrite H1. exact Ht.
              * rewrite H3 by lia. apply Hsuf; lia.
            + destruct (Nat.eq_dec i (S k)) as [->|Hik'].
              * rewrite H1, H3 by lia. apply Hcross; lia.
              * rewrite !H3 by lia. apply Hsuf; lia.
          - intros i m Hi Hik Hkm Hm. rewrite (H3 i) by lia.
            destruct (Nat.eq_dec m (S k)) as [->|Hmk].
            + rewrite H1. apply Hpre; lia.
            + rewrite H3 by lia. apply Hcross; lia. }
        intros data' (Hinv' & Hre & Hsorted).
        split; [assumption|]. split; [|assumption].
        eapply rearranged_trans; [|exact Hre].
        apply (rearranged_exchange a (S top) (S k) k); auto; lia.
      * specialize (Hf eq_refl). clear Ht. cbn [run].
        split; [assumption|]. split; [apply rearranged_refl|].
        intros i j Hi Hij Hj Hv.
        destruct (le_lt_dec (S k) i) as [H1|H1]; [apply (Hsuf i j); auto; lia|].
        destruct (le_lt_dec (S k) j) as [H2|H2]; [|apply (Hpre i j); auto; lia].
        assert (Hk : clsAt data k = true).
        { destruct (Nat.eq_dec i k) as [->|]; [assumption|].
          apply (Hpre i k); auto; lia. }
        destruct (Nat.eq_dec j (S k)) as [->|]; [auto|].
        apply (Hcross i j); auto; lia.
    + cbn [run]. split; [assumption|]. split; [apply rearranged_refl|].
      assert (a = S k) by lia. subst a. exact Hsuf.
Qed.

Lemma insertionOuter_spec (a : nat) : forall n data i,
  Inv data -> a < i -> i + n <= List.length orig ->
  sortedIn a i (clsAt data) ->
  run (insertionOuter cmp n data a i) (fun data' =>
    Inv data' /\ rearranged a (i + n) (clsAt data) (clsAt data') /\
    sortedIn a (i + n) (clsAt data')).
Proof.
  induction n as [|n IH]; intros data i Hinv Hai Hn Hs.
  - cbn [insertionOuter run]. rewrite Nat.add_0_r.
    split; [assumption|]. split; [apply rearranged_refl | assumption].
  - cbn [insertionOuter].
    eapply run_bind.
    { apply (insertionInner_spec a i i data Hinv); [lia|lia|lia|exact Hs| |].
      - intros x y Hx Hxy Hy. lia.
      - intros x m Hx Hxi Him Hm. lia. }
    intros data1 (Hinv1 & Hre1 & Hs1).
    eapply run_weaken.
    { apply (IH data1 (S i) Hinv1); [lia|lia|exact Hs1]. }
    intros data' (Hinv' & Hre & Hsorted).
    replace (i + S n) with (S i + n) by lia.
    split; [assumption|]. split; [|assumption].
    eapply rearranged_trans; [|exact Hre].
    apply (rearranged_mono a (S i + n) a (S i)); [lia|lia|exact Hre1].
Qed.

Lemma insertionSortCmpFunc_spec (data : list E) (a b : nat) :
  Inv data -> b <= List.length orig ->
  run (insertionSortCmpFunc cmp data a b) (fun data' =>
    Inv data' /\ rearranged a b (clsAt data) (clsAt data') /\
    sortedIn a b (clsAt data')).
Proof.
  intros Hinv Hb. unfold insertionSortCmpFunc.
  destruct (le_lt_dec b (a + 1)) as [Hsmall|Hlarge].
  - replace (b - (a + 1)) with 0 by lia. cbn [insertionOuter run].
    split; [assumption|]. split; [apply rearranged_refl|].
    intros i j Hi Hij Hj. lia.
  - eapply run_weaken.
    { apply (insertionOuter_spec a (b - (a + 1)) data (a + 1) Hinv); [lia|lia|].
      intros i j Hi Hij Hj. lia. }
    replace (a + 1 + (b - (a + 1))) with b by lia. auto.
Qed.

(** *** Heap sort *)

(** From the node [lo] on, no low element has a high child. *)
Definition heapFrom (first lo hi : nat) (V : nat -> bool) : Prop :=
  forall r c, lo <= r -> c < hi -> c = 2 * r + 1 \/ c = 2 * r + 2 ->
    V (first + c) = true -> V (first + r) = true.

Lemma siftDownCmpFunc_spec (lo hi first : nat) : forall n data root,
  Inv data -> first + hi <= List.length orig -> lo <= root -> hi - root <= n ->
  (forall r c, lo <= r -> r <> root -> c < hi ->
     c = 2 * r + 1 \/ c = 2 * r + 2 ->
     clsAt data (first + c) = true -> clsAt data (first + r) = true) ->
  (forall g c, lo <= g -> root = 2 * g + 1 \/ root = 2 * g + 2 -> c < hi ->
     c = 2 * root + 1 \/ c = 2 * root + 2 ->
     clsAt data (first + c) = true -> clsAt data (first + g) = true) ->
  run (siftDownCmpFunc cmp n data root hi first) (fun data' =>
    Inv data' /\
    rearranged first (first + hi) (clsAt data) (clsAt data') /\
    heapFrom first lo hi (clsAt data')).
Proof.
  induction n as [|n IH]; intros data root Hinv Hhi Hlo Hn HA HB;
    cbn [siftDownCmpFunc]; cbv zeta;
    destruct (Nat.leb_spec hi (2 * root + 1)) as [Hleaf|Hchild];
    try (cbn [run]; split; [assumption|]; split; [apply rearranged_refl|];
         intros r c Hr Hc Hrc;
         destruct (Nat.eq_dec r root) as [->|Hne]; [lia | now apply HA]);
    [lia|].
  eapply run_bind with (Q1 := fun c =>
    c < hi /\ (c = 2 * root + 1 \/ c = 2 * root + 2) /\
    forall c', c' < hi -> c' = 2 * root + 1 \/ c' = 2 * root + 2 ->
      clsAt data (first + c') = true -> clsAt data (first + c) = true).
  { destruct (Nat.ltb_spec (2 * root + 1 + 1) hi) as [Htwo|Hone].
    - eapply run_bind; [apply run_less; [assumption|lia|lia]|].
      intros lt [Ht Hf]. cbn [run]. destruct lt.
      + split; [lia|]. split; [right; lia|].
        intros c' Hc' [->| ->] H.
        * specialize (Ht eq_refl H). by_index Ht.
        * by_index H.
      + split; [lia|]. split; [left; lia|].
        intros c' Hc' [->| ->] H; [exact H|].
        apply (Hf eq_refl). by_index H.
    - cbn [run]. split; [lia|]. split; [left; lia|].
      intros c' Hc' [->| ->] H; [exact H|lia]. }
  intros c (Hc & Hrc & Hdom).
  eapply run_bind; [apply run_less; [assumption|lia|lia]|].
  intros lt [Ht Hf]. destruct lt; cbn [negb].
  - specialize (Ht eq_refl). clear Hf.
    eapply run_bind; [apply run_swap; [assumption|lia|lia]|].
    intros data1 [Hinv1 Hex].
    destruct (exchange_facts _ _ _ _ Hex) as (H1 & H2 & H3).
    eapply run_weaken.
    { apply (IH data1 c Hinv1 Hhi); [lia|lia| |].
      - intros r c' Hr Hne Hc' Hrc'.
        destruct (Nat.eq_dec r root) as [->|Hnr].
        + rewrite H1. destruct (Nat.eq_dec c' c) as [->|Hnc].
          * rewrite H2. exact Ht.
          * rewrite H3 by lia. now apply Hdom.
        + rewrite (H3 (first + r)) by lia.
          destruct (Nat.eq_dec c' root) as [->|Hnc].
          * rewrite H1. now apply (HB r c).
          * rewrite H3 by lia. now apply HA.
      - intros g c' Hg Hcg Hc' Hcc'.
        assert (g = root) by lia. subst g.
        rewrite H1, H3 by lia. apply HA; auto; lia. }
    intros data' (Hinv' & Hre & Hheap).
    split; [assumption|]. split; [|assumption].
    eapply rearranged_trans; [|exact Hre].
    apply (rearranged_exchange first (first + hi) (first + root) (first + c));
      auto; lia.
  - specialize (Hf eq_refl). clear Ht. cbn [run].
    split; [assumption|]. split; [apply rearranged_refl|].
    intros r c' Hr Hc' Hrc'.
    destruct (Nat.eq_dec r root) as [->|Hne]; [|now apply HA].
    intros H. apply Hf. now apply (Hdom c').
Qed.

Lemma heapBuild_spec (hi first : nat) : forall n data,
  Inv data -> first + hi <= List.length orig ->
  heapFrom first n hi (clsAt data) ->
  run (heapBuild cmp n data hi first) (fun data' =>
    Inv data' /\
    rearranged first (first + hi) (clsAt data) (clsAt data') /\
    heapFrom first 0 hi (clsAt data')).
Proof.
  induction n as [|i IH]; intros data Hinv Hhi Hheap; cbn [heapBuild].
  - cbn [run]. split; [assumption|]. split; [apply rearranged_refl|assumption].
  - eapply run_bind.
    { apply (siftDownCmpFunc_spec i hi first hi data i Hinv Hhi); [lia|lia| |].
      - intros r c Hr Hne Hc Hrc. apply Hheap; auto; lia.
      - intros g c Hg Hig. lia. }
    intros data1 (Hinv1 & Hre1 & Hheap1).
    eapply run_weaken; [apply (IH data1 Hinv1 Hhi Hheap1)|].
    intros data' (Hinv' & Hre & Hheap').
    split; [assumption|]. split; [|assumption].
    eapply rearranged_trans; [exact Hre1|exact Hre].
Qed.

(** A heap with a high element has a high root. *)
Lemma heapFrom_root (first n : nat) (V : nat -> bool) :
  heapFrom first 0 n V ->
  forall k, k < n -> V (first + k) = true -> V (first + 0) = true.
Proof.
  intros Hheap k. induction k as [k IH] using lt_wf_ind. intros Hk Hv.
  destruct k as [|k]; [assumption|].
  assert (Hex : exists r, S k = 2 * r + 1 \/ S k = 2 * r + 2).
  { clear. induction k as [|k (r & [H|H])].
    - exists 0. lia.
    - exists r. lia.
    - exists (S r). lia. }
  destruct Hex as (r & Hr).
  apply (IH r); [lia|lia|]. apply (Hheap r (S k)); auto; lia.
Qed.

Lemma heapPop_spec (hi first : nat) : forall n data,
  Inv data -> first + hi <= List.length orig -> n <= hi ->
  heapFrom first 0 n (clsAt data) ->
  sortedIn (first + n) (first + hi) (clsAt data) ->
  (forall k m, k < n -> n <= m -> m < hi ->
     clsAt data (first + k) = true -> clsAt data (first + m) = true) ->
  run (heapPop cmp n data 0 first) (fun data' =>
    Inv data' /\
    rearranged first (first + hi) (clsAt data) (clsAt data') /\
    sortedIn first (first + hi) (clsAt data')).
Proof.
  induction n as [|i IH]; intros data Hinv Hhi Hn Hheap Hs Hcross;
    cbn [heapPop].
  - cbn [run]. split; [assumption|]. split; [apply rearranged_refl|].
    now rewrite Nat.add_0_r in Hs.
  - eapply run_bind; [apply run_swap; [assumption|lia|lia]|].
    intros data1 [Hinv1 Hex].
    destruct (exchange_facts _ _ _ _ Hex) as (H1 & H2 & H3).
    eapply run_bind.
    { apply (siftDownCmpFunc_spec 0 i first i data1 0 Hinv1); [lia|lia|lia| |].
      - intros r c Hr Hne Hc Hrc. rewrite !H3 by lia. apply Hheap; auto; lia.
      - intros g c Hg Hig. lia. }
    intros data2 (Hinv2 & Hre2 & Hheap2).
    assert (Hroot : hasHi first (first + i) (clsAt data2) ->
                    clsAt data first = true).
    { intros Hhas. destruct Hre2 as (_ & _ & Hhi2).
      destruct (Hhi2 Hhas) as (p & Hp1 & Hp2 & Hp).
      replace first with (first + 0) by lia.
      destruct (Nat.eq_dec p first) as [->|Hpf].
      - rewrite H1 in Hp. apply (heapFrom_root first (S i) _ Hheap i); auto.
      - rewrite H3 in Hp by lia.
        apply (heapFrom_root first (S i) _ Hheap (p - first)); [lia|].
        now replace (first + (p - first)) with p by lia. }
    assert (Hout2 : forall k, first + i <= k -> clsAt data2 k = clsAt data1 k)
      by (intros k Hk; destruct Hre2 as (Hout & _); apply Hout; lia).
    eapply run_weaken.
    { apply (IH data2 Hinv2 Hhi); [lia|exact Hheap2| |].
      - intros p q Hp Hpq Hq. rewrite !Hout2 by lia.
        destruct (Nat.eq_dec p (first + i)) as [->|Hne].
        + rewrite H2, H3 by lia. intros Hv.
          replace q with (first + (q - first)) by lia.
          apply (Hcross 0); [lia|lia|lia|]. now rewrite Nat.add_0_r.
        + rewrite !H3 by lia. apply Hs; lia.
      - intros k m Hk Hm Hmh Hv.
        assert (Hr : clsAt data first = true).
        { apply Hroot. exists (first + k). repeat split; auto; lia. }
        rewrite Hout2 by lia.
        destruct (Nat.eq_dec m i) as [->|Hne].
        + now rewrite H2.
        + rewrite H3 by lia. apply (Hcross 0); [lia|lia|lia|].
          now rewrite Nat.add_0_r. }
    intros data' (Hinv' & Hre & Hsorted).
    split; [assumption|]. split; [|assumption].
    eapply rearranged_trans; [|exact Hre].
    eapply rearranged_trans;
      [|apply (rearranged_mono first (first + hi) first (first + i));
        [lia|lia|exact Hre2]].
    apply (rearranged_exchange first (first + hi) first (first + i)); auto; lia.
Qed.

Lemma half_bound (hi : nat) : hi - 1 < 2 * ((hi - 1) / 2 + 1).
Proof.
  pose proof (Nat.div_mod_eq (hi - 1) 2) as H.
  pose proof (Nat.mod_upper_bound (hi - 1) 2) as H'. lia.
Qed.

Lemma heapSortCmpFunc_spec (data : list E) (a b : nat) :
  Inv data -> a <= b -> b <= List.length orig ->
  run (heapSortCmpFunc cmp data a b) (fun data' =>
    Inv data' /\ rearranged a b (clsAt data) (clsAt data') /\
    sortedIn a b (clsAt data')).
Proof.
  intros Hinv Hab Hb. unfold heapSortCmpFunc. cbv zeta.
  eapply run_bind.
  { apply (heapBuild_spec (b - a) a _ data Hinv); [lia|].
    intros r c Hr Hc Hrc. pose proof (half_bound (b - a)). lia. }
  intros data1 (Hinv1 & Hre1 & Hheap1).
  eapply run_weaken.
  { apply (heapPop_spec (b - a) a (b - a) data1 Hinv1); [lia|lia|exact Hheap1| |].
    - intros i j Hi Hij Hj. lia.
    - intros k m Hk Hm Hmh. lia. }
  intros data' (Hinv' & Hre & Hsorted).
  replace (a + (b - a)) with b in * by lia.
  split; [assumption|]. split; [|assumption].
  eapply rearranged_trans; [exact Hre1|exact Hre].
Qed.

(** *** The scans *)

Lemma scanUp_spec (test : nat -> option bool) (Pt Pf : nat -> Prop) :
  forall n i,
  (forall k, i <= k -> k < i + n ->
     run (test k) (fun t => if t : bool then Pt k else Pf k)) ->
  run (scanUp n test i) (fun i' =>
    i <= i' /\ i' <= i + n /\
    (forall k, i <= k -> k < i' -> Pt k) /\
    (i' < i + n -> Pf i')).
Proof.
  induction n as [|n IH]; intros i Htest; cbn [scanUp].
  - cbn [run]. repeat split; intros; lia.
  - eapply run_bind; [apply (Htest i); lia|].
    intros t Ht. destruct t.
    + eapply run_weaken.
      { apply (IH (S i)). intros k Hk Hk'. apply Htest; lia. }
      intros i' (H1 & H2 & H3 & H4). repeat split; try lia.
      * intros k Hk Hk'. destruct (Nat.eq_dec k i) as [->|]; [assumption|].
        apply H3; lia.
      * intros H. apply H4. lia.
    + cbn [run]. repeat split; intros; solve [lia | assumption].
Qed.

Lemma scanDown_spec (test : nat -> option bool) (Pt Pf : nat -> Prop) :
  forall n j, n <= j ->
  (forall k, j - n < k -> k <= j ->
     run (test k) (fun t => if t : bool then Pt k else Pf k)) ->
  run (scanDown n test j) (fun j' =>
    j - n <= j' /\ j' <= j /\
    (forall k, j' < k -> k <= j -> Pt k) /\
    (j - n < j' -> Pf j')).
Proof.
  induction n as [|n IH]; intros j Hn Htest; cbn [scanDown].
  - cbn [run]. repeat split; intros; lia.
  - eapply run_bind; [apply (Htest j); lia|].
    intros t Ht. destruct t.
    + eapply run_weaken.
      { apply (IH (j - 1)); [lia|]. intros k Hk Hk'. apply Htest; lia. }
      intros j' (H1 & H2 & H3 & H4). repeat split; try lia.
      * intros k Hk Hk'. destruct (Nat.eq_dec k j) as [->|]; [assumption|].
        apply H3; lia.
      * intros H. apply H4. lia.
    + cbn [run]. repeat split; intros; solve [lia | assumption].
Qed.

(** *** Partition

    With the pivot at [a]: an element is on the left when it is not high
    over a low pivot, on the right when it is not low under a high one. *)

Definition leftOf (a : nat) (V : nat -> bool) (k : nat) : Prop :=
  V k = true -> V a = true.

Definition rightOf (a : nat) (V : nat -> bool) (k : nat) : Prop :=
  V a = true -> V k = true.

Lemma partitionLoop_spec (a b : nat) : forall n data i j,
  Inv data -> b <= List.length orig -> a < i -> a <= j -> j < b ->
  S j - i <= n ->
  (forall k, a < k -> k < i -> leftOf a (clsAt data) k) ->
  (forall k, j < k -> k < b -> rightOf a (clsAt data) k) ->
  run (partitionLoop cmp n data a i j) (fun r =>
    Inv (fst r) /\
    rearranged (a + 1) b (clsAt data) (clsAt (fst r)) /\
    a <= snd r /\ snd r < b /\
    (forall k, a < k -> k <= snd r -> leftOf a (clsAt (fst r)) k) /\
    (forall k, snd r < k -> k < b -> rightOf a (clsAt (fst r)) k)).
Proof.
  induction n as [|n IH]; intros data i j Hinv Hb Hai Haj Hjb Hn HL HR;
    cbn [partitionLoop].
  all: eapply run_bind;
    [apply (scanUp_spec _ (leftOf a (clsAt data)) (rightOf a (clsAt data)));
     intros k Hk Hk';
     (eapply run_weaken; [apply (run_less data k a Hinv); lia|]);
     intros lt [Ht Hf]; destruct lt; unfold leftOf, rightOf; auto|].
  all: intros i' (Hi1 & Hi2 & Hi3 & Hi4).
  all: eapply run_bind;
    [apply (scanDown_spec _ (rightOf a (clsAt data)) (leftOf a (clsAt data)));
     [lia|];
     intros k Hk Hk';
     (eapply run_weaken; [apply (run_notLess data k a Hinv); lia|]);
     intros ge [Ht Hf]; destruct ge; unfold leftOf, rightOf; auto|].
  all: intros j' (Hj1 & Hj2 & Hj3 & Hj4).
  all: assert (HL' : forall k, a < k -> k < i' -> leftOf a (clsAt data) k)
    by (intros k Hk Hk'; destruct (le_lt_dec i k); [apply Hi3|apply HL]; lia).
  all: assert (HR' : forall k, j' < k -> k < b -> rightOf a (clsAt data) k)
    by (intros k Hk Hk'; destruct (le_lt_dec k j); [apply Hj3|apply HR]; lia).
  all: destruct (Nat.ltb_spec j' i') as [Hdone|Hmore].
  all: try (cbn [run fst snd]; split; [assumption|];
            split; [apply rearranged_refl|];
            split; [lia|]; split; [lia|]; split;
            [intros k Hk Hk'; apply HL'; lia | intros k Hk Hk'; apply HR'; lia]).
  - lia.
  - eapply run_bind; [apply run_swap; [assumption|lia|lia]|].
    intros data1 [Hinv1 Hex].
    destruct (exchange_facts _ _ _ _ Hex) as (H1 & H2 & H3).
    assert (Hri : rightOf a (clsAt data) i') by (apply Hi4; lia).
    assert (Hlj : leftOf a (clsAt data) j') by (apply Hj4; lia).
    eapply run_weaken.
    { apply (IH data1 (S i') (j' - 1) Hinv1 Hb); [lia|lia|lia|lia| |].
      - intros k Hk Hk'. unfold leftOf. rewrite (H3 a) by lia.
        destruct (Nat.eq_dec k i') as [->|Hne].
        + rewrite H1. exact Hlj.
        + destruct (Nat.eq_dec k j') as [->|Hne']; [lia|].
          rewrite H3 by lia. apply HL'; lia.
      - intros k Hk Hk'. unfold rightOf. rewrite (H3 a) by lia.
        destruct (Nat.eq_dec k j') as [->|Hne].
        + rewrite H2. exact Hri.
        + destruct (Nat.eq_dec k i') as [->|Hne']; [lia|].
          rewrite H3 by lia. apply HR'; lia. }
    intros [data' mid] (Hinv' & Hre & Hmid). cbn [fst snd] in *.
    split; [assumption|]. split; [|exact Hmid].
    eapply rearranged_trans; [|exact Hre].
    apply (rearranged_exchange (a + 1) b i' j'); auto; lia.
Qed.

Lemma partitionCmpFunc_spec (data : list E) (a b pivot : nat) :
  Inv data -> b <= List.length orig -> a <= pivot -> pivot < b ->
  run (partitionCmpFunc cmp data a b pivot) (fun r =>
    let data' := fst (fst r) in
    let mid := snd (fst r) in
    Inv data' /\ rearranged a b (clsAt data) (clsAt data') /\
    a <= mid /\ mid < b /\
    clsAt data' mid = clsAt data pivot /\
    (forall k, a <= k -> k < mid ->
       clsAt data' k = true -> clsAt data pivot = true) /\
    (forall k, mid < k -> k < b ->
       clsAt data pivot = true -> clsAt data' k = true)).
Proof.
  intros Hinv Hb Hap Hpb. unfold partitionCmpFunc. cbv zeta.
  eapply run_bind; [apply run_swap; [assumption|lia|lia]|].
  intros data0 [Hinv0 Hex0].
  destruct (exchange_facts _ _ _ _ Hex0) as (Hp & _ & _).
  assert (Hre0 : rearranged a b (clsAt data) (clsAt data0))
    by (apply (rearranged_exchange a b a pivot); auto; lia).
  eapply run_bind.
  { apply (scanUp_spec _ (leftOf a (clsAt data0)) (rightOf a (clsAt data0))).
    intros k Hk Hk'.
    eapply run_weaken; [apply (run_less data0 k a Hinv0); lia|].
    intros lt [Ht Hf]; destruct lt; unfold leftOf, rightOf; auto. }
  intros i (Hi1 & Hi2 & Hi3 & Hi4).
  eapply run_bind.
  { apply (scanDown_spec _ (rightOf a (clsAt data0)) (leftOf a (clsAt data0)));
      [lia|].
    intros k Hk Hk'.
    eapply run_weaken; [apply (run_notLess data0 k a Hinv0); lia|].
    intros ge [Ht Hf]; destruct ge; unfold leftOf, rightOf; auto. }
  intros j (Hj1 & Hj2 & Hj3 & Hj4).
  assert (Hfinish : forall data1 data2 mid,
    Inv data1 -> rearranged a b (clsAt data) (clsAt data1) ->
    clsAt data1 a = clsAt data pivot ->
    a <= mid -> mid < b ->
    (forall k, a < k -> k <= mid -> leftOf a (clsAt data1) k) ->
    (forall k, mid < k -> k < b -> rightOf a (clsAt data1) k) ->
    Inv data2 ->
    (forall k, clsAt data2 k = clsAt data1 (exchanged mid a k)) ->
    Inv data2 /\ rearranged a b (clsAt data) (clsAt data2) /\
    a <= mid /\ mid < b /\
    clsAt data2 mid = clsAt data pivot /\
    (forall k, a <= k -> k < mid ->
       clsAt data2 k = true -> clsAt data pivot = true) /\
    (forall k, mid < k -> k < b ->
       clsAt data pivot = true -> clsAt data2 k = true)).
  { intros data1 data2 mid Hinv1 Hre1 Hpa Hm1 Hm2 HL HR Hinv2 Hex.
    destruct (exchange_facts _ _ _ _ Hex) as (H1 & H2 & H3).
    split; [assumption|]. split.
    { eapply rearranged_trans; [exact Hre1|].
      apply (rearranged_exchange a b mid a); auto; lia. }
    split; [assumption|]. split; [assumption|]. split; [congruence|]. split.
    - intros k Hk Hk'. rewrite <- Hpa.
      destruct (Nat.eq_dec k a) as [->|Hne].
      + rewrite H2. apply HL; lia.
      + rewrite H3 by lia. apply HL; lia.
    - intros k Hk Hk'. rewrite <- Hpa, H3 by lia. apply HR; lia. }
  destruct (Nat.ltb_spec j i) as [Hdone|Hmore].
  - eapply run_bind; [apply run_swap; [assumption|lia|lia]|].
    intros data1 [Hinv1 Hex1]. cbn [run fst snd].
    apply (Hfinish data0 data1 j); auto; try lia.
    + intros k Hk Hk'. apply Hi3; lia.
    + intros k Hk Hk'. apply Hj3; lia.
  - eapply run_bind; [apply run_swap; [assumption|lia|lia]|].
    intros data1 [Hinv1 Hex1].
    destruct (exchange_facts _ _ _ _ Hex1) as (H1 & H2 & H3).
    assert (Hri : rightOf a (clsAt data0) i) by (apply Hi4; lia).
    assert (Hlj : leftOf a (clsAt data0) j) by (apply Hj4; lia).
    eapply run_bind.
    { apply (partitionLoop_spec a b (b - a) data1 (S i) (j - 1) Hinv1 Hb);
        [lia|lia|lia|lia| |].
      - intros k Hk Hk'. unfold leftOf. rewrite (H3 a) by lia.
        destruct (Nat.eq_dec k i) as [->|Hne].
        + rewrite H1. exact Hlj.
        + destruct (Nat.eq_dec k j) as [->|Hne']; [lia|].
          rewrite H3 by lia. apply Hi3; lia.
      - intros k Hk Hk'. unfold rightOf. rewrite (H3 a) by lia.
        destruct (Nat.eq_dec k j) as [->|Hne].
        + rewrite H2. exact Hri.
        + destruct (Nat.eq_dec k i) as [->|Hne']; [lia|].
          rewrite H3 by lia. apply Hj3; lia. }
    intros [data2 mid] (Hinv2 & Hre2 & Hm1 & Hm2 & HL & HR).
    cbn [fst snd] in *.
    eapply run_bind; [apply run_swap; [assumption|lia|lia]|].
    intros data3 [Hinv3 Hex3]. cbn [run fst snd].
    apply (Hfinish data2 data3 mid); auto.
    + eapply rearranged_trans; [exact Hre0|].
      eapply rearranged_trans;
        [apply (rearranged_exchange a b i j); eauto; lia|].
      apply (rearranged_mono a b (a + 1) b); [lia|lia|exact Hre2].
    + destruct Hre2 as (Hout & _). rewrite Hout by lia.
      rewrite H3 by lia. exact Hp.
Qed.

Lemma partitionEqualLoop_spec (a b : nat) : forall n data i j,
  Inv data -> b <= List.length orig -> a < i -> i <= b -> a <= j -> j < b ->
  S j - i <= n ->
  (forall k, a < k -> k < i -> leftOf a (clsAt data) k) ->
  (forall k, j < k -> k < b -> rightOf a (clsAt data) k) ->
  run (partitionEqualLoop cmp n data a i j) (fun r =>
    Inv (fst r) /\
    rearranged (a + 1) b (clsAt data) (clsAt (fst r)) /\
    a < snd r /\ snd r <= b /\
    (forall k, a < k -> k < snd r -> leftOf a (clsAt (fst r)) k) /\
    (forall k, snd r <= k -> k < b -> rightOf a (clsAt (fst r)) k)).
Proof.
  induction n as [|n IH]; intros data i j Hinv Hb Hai Hib Haj Hjb Hn HL HR;
    cbn [partitionEqualLoop].
  all: eapply run_bind;
    [apply (scanUp_spec _ (leftOf a (clsAt data)) (rightOf a (clsAt data)));
     intros k Hk Hk';
     (eapply run_weaken; [apply (run_notLess data a k Hinv); lia|]);
     intros ge [Ht Hf]; destruct ge; unfold leftOf, rightOf; auto|].
  all: intros i' (Hi1 & Hi2 & Hi3 & Hi4).
  all: eapply run_bind;
    [apply (scanDown_spec _ (rightOf a (clsAt data)) (leftOf a (clsAt data)));
     [lia|];
     intros k Hk Hk';
     (eapply run_weaken; [apply (run_less data a k Hinv); lia|]);
     intros lt [Ht Hf]; destruct lt; unfold leftOf, rightOf; auto|].
  all: intros j' (Hj1 & Hj2 & Hj3 & Hj4).
  all: assert (HL' : forall k, a < k -> k < i' -> leftOf a (clsAt data) k)
    by (intros k Hk Hk'; destruct (le_lt_dec i k); [apply Hi3|apply HL]; lia).
  all: assert (HR' : forall k, j' < k -> k < b -> rightOf a (clsAt data) k)
    by (intros k Hk Hk'; destruct (le_lt_dec k j); [apply Hj3|apply HR]; lia).
  all: destruct (Nat.ltb_spec j' i') as [Hdone|Hmore].
  all: try (cbn [run fst snd]; split; [assumption|];
            split; [apply rearranged_refl|];
            split; [lia|]; split; [lia|]; split;
            [intros k Hk Hk'; apply HL'; lia | intros k Hk Hk'; apply HR'; lia]).
  - lia.
  - eapply run_bind; [apply run_swap; [assumption|lia|lia]|].
    intros data1 [Hinv1 Hex].
    destruct (exchange_facts _ _ _ _ Hex) as (H1 & H2 & H3).
    assert (Hri : rightOf a (clsAt data) i') by (apply Hi4; lia).
    assert (Hlj : leftOf a (clsAt data) j') by (apply Hj4; lia).
    eapply run_weaken.
    { apply (IH data1 (S i') (j' - 1) Hinv1 Hb); [lia|lia|lia|lia|lia| |].
      - intros k Hk Hk'. unfold leftOf. rewrite (H3 a) by lia.
        destruct (Nat.eq_dec k i') as [->|Hne].
        + rewrite H1. exact Hlj.
        + destruct (Nat.eq_dec k j') as [->|Hne']; [lia|].
          rewrite H3 by lia. apply HL'; lia.
      - intros k Hk Hk'. unfold rightOf. rewrite (H3 a) by lia.
        destruct (Nat.eq_dec k j') as [->|Hne].
        + rewrite H2. exact Hri.
        + destruct (Nat.eq_dec k i') as [->|Hne']; [lia|].
          rewrite H3 by lia. apply HR'; lia. }
    intros [data' mid] (Hinv' & Hre & Hmid). cbn [fst snd] in *.
    split; [assumption|]. split; [|exact Hmid].
    eapply rearranged_trans; [|exact Hre].
    apply (rearranged_exchange (a + 1) b i' j'); auto; lia.
Qed.

Lemma partitionEqualCmpFunc_spec (data : list E) (a b pivot : nat) :
  Inv data -> b <= List.length orig -> a <= pivot -> pivot < b ->
  run (partitionEqualCmpFunc cmp data a b pivot) (fun r =>
    let data' := fst r in
    let mid := snd r in
    Inv data' /\ rearranged a b (clsAt data) (clsAt data') /\
    a < mid /\ mid <= b /\
    (forall k, a <= k -> k < mid ->
       clsAt data' k = true -> clsAt data pivot = true) /\
    (forall k, mid <= k -> k < b ->
       clsAt data pivot = true -> clsAt data' k = true)).
Proof.
  intros Hinv Hb Hap Hpb. unfold partitionEqualCmpFunc.
  eapply run_bind; [apply run_swap; [assumption|lia|lia]|].
  intros data0 [Hinv0 Hex0].
  destruct (exchange_facts _ _ _ _ Hex0) as (Hp & _ & _).
  eapply run_weaken.
  { apply (partitionEqualLoop_spec a b (b - a) data0 (a + 1) (b - 1) Hinv0 Hb);
      try lia; intros k Hk Hk'; lia. }
  intros [data' mid] (Hinv' & Hre & Hm1 & Hm2 & HL & HR). cbn [fst snd] in *.
  cbv zeta. split; [assumption|]. split.
  { eapply rearranged_trans;
      [apply (rearranged_exchange a b a pivot); eauto; lia|].
    apply (rearranged_mono a b (a + 1) b); [lia|lia|exact Hre]. }
  assert (Hpa : clsAt data' a = clsAt data pivot).
  { destruct Hre as (Hout & _). rewrite Hout by lia. exact Hp. }
  split; [assumption|]. split; [assumption|]. split.
  - intros k Hk Hk'. rewrite <- Hpa.
    destruct (Nat.eq_dec k a) as [->|Hne]; [auto|]. apply HL; lia.
  - intros k Hk Hk'. rewrite <- Hpa. apply HR; lia.
Qed.

(** *** Partial insertion sort

    The range [a, b) among the other elements: when it holds a low element
    everything before it is low, and when it holds a high element
    everything after it is high. *)

Definition lowBefore (a b : nat) (V : nat -> bool) : Prop :=
  hasLo a b V -> forall i, i < a -> V i = false.

Definition highAfter (a b : nat) (V : nat -> bool) : Prop :=
  hasHi a b V -> forall j, b <= j -> j < List.length orig -> V j = true.

Lemma lowBefore_rearranged (a b : nat) (V V' : nat -> bool) :
  lowBefore a b V -> rearranged a b V V' -> lowBefore a b V'.
Proof.
  intros H (Hout & Hlo & _) Hhas i Hi. rewrite Hout by lia. apply H; auto.
Qed.

Lemma highAfter_rearranged (a b : nat) (V V' : nat -> bool) :
  highAfter a b V -> rearranged a b V V' -> highAfter a b V'.
Proof.
  intros H (Hout & _ & Hhi) Hhas j Hj Hj'. rewrite Hout by lia. apply H; auto.
Qed.

Lemma sortedIn_same (a b : nat) (V V' : nat -> bool) :
  (forall k, a <= k -> k < b -> V' k = V k) -> sortedIn a b V -> sortedIn a b V'.
Proof.
  intros H Hs i j Hi Hij Hj. rewrite !H by lia. now apply Hs.
Qed.

(** [shiftLeft] does not stop at [a]: below [a] it only passes elements of
    the class of the one it moves. *)
Lemma shiftLeft_spec (a top : nat) : forall k data,
  Inv data -> top < List.length orig -> k <= top ->
  (clsAt data k = false -> forall i, i < a -> clsAt data i = false) ->
  sortedIn a k (clsAt data) ->
  (forall i j, a <= i -> k <= i -> i < j -> j <= top ->
     clsAt data i = true -> clsAt data j = true) ->
  (forall i m, a <= i -> i < k -> k < m -> m <= top ->
     clsAt data i = true -> clsAt data m = true) ->
  run (shiftLeft cmp data k) (fun data' =>
    Inv data' /\ rearranged a (S top) (clsAt data) (clsAt data') /\
    sortedIn a (S top) (clsAt data')).
Proof.
  induction k as [|k IH]; intros data Hinv Htop Hkt Hlow Hpre Hsuf Hcross.
  - cbn [shiftLeft run]. split; [assumption|]. split; [apply rearranged_refl|].
    intros i j Hi Hij Hj. apply Hsuf; lia.
  - cbn [shiftLeft].
    eapply run_bind; [apply run_less; [assumption|lia|lia]|].
    intros lt [Ht Hf]. destruct lt; cbn [negb].
    + specialize (Ht eq_refl). clear Hf.
      eapply run_bind; [apply run_swap; [assumption|lia|lia]|].
      intros data1 [Hinv1 Hex].
      destruct (exchange_facts _ _ _ _ Hex) as (H1 & H2 & H3).
      destruct (le_lt_dec a k) as [Hin|Hbelow].
      * eapply run_weaken.
        { apply (IH data1 Hinv1 Htop); [lia| | | |].
          - rewrite H2. intros Hv i Hi. rewrite H3 by lia. now apply Hlow.
          - intros i j Hi Hij Hj. rewrite !H3 by lia. apply Hpre; lia.
          - intros i j Hi Hki Hij Hj.
            destruct (Nat.eq_dec i k) as [->|Hik].
            + rewrite H2. destruct (Nat.eq_dec j (S k)) as [->|Hjk].
              * rewrite H1. exact Ht.
              * rewrite H3 by lia. apply Hsuf; lia.
            + destruct (Nat.eq_dec i (S k)) as [->|Hik'].
              * rewrite H1, H3 by lia. apply Hcross; lia.
              * rewrite !H3 by lia. apply Hsuf; lia.
          - intros i m Hi Hik Hkm Hm. rewrite (H3 i) by lia.
            destruct (Nat.eq_dec m (S k)) as [->|Hmk].
            + rewrite H1. apply Hpre; lia.
            + rewrite H3 by lia. apply Hcross; lia. }
        intros data' (Hinv' & Hre & Hsorted).
        split; [assumption|]. split; [|assumption].
        eapply rearranged_trans; [|exact Hre].
        apply (rearranged_exchange a (S top) (S k) k); auto; lia.
      * assert (Hsame : forall x, clsAt data1 x = clsAt data x).
        { apply (exchange_same_class (S k) k); [|exact Hex].
          destruct (clsAt data (S k)) eqn:Hv.
          - symmetry. now apply Ht.
          - symmetry. apply Hlow; auto. }
        eapply run_weaken.
        { apply (IH data1 Hinv1 Htop); [lia| | | |].
          - rewrite H2. intros Hv i Hi. rewrite Hsame. now apply Hlow.
          - intros i j Hi Hij Hj. lia.
          - intros i j Hi Hki Hij Hj. rewrite !Hsame. apply Hsuf; lia.
          - intros i m Hi Hik. lia. }
        intros data' (Hinv' & Hre & Hsorted).
        split; [assumption|]. split; [|assumption].
        eapply rearranged_trans; [|exact Hre].
        now apply rearranged_same.
    + specialize (Hf eq_refl). clear Ht. cbn [run].
      split; [assumption|]. split; [apply rearranged_refl|].
      intros i j Hi Hij Hj Hv.
      destruct (le_lt_dec (S k) i) as [H1|H1]; [apply (Hsuf i j); auto; lia|].
      destruct (le_lt_dec (S k) j) as [H2|H2]; [|apply (Hpre i j); auto; lia].
      assert (Hk : clsAt data k = true).
      { destruct (Nat.eq_dec i k) as [->|]; [assumption|].
        apply (Hpre i k); auto; lia. }
      destruct (Nat.eq_dec j (S k)) as [->|]; [auto|].
      apply (Hcross i j); auto; lia.
Qed.

Lemma shiftRight_spec : forall n data j,
  Inv data -> 1 <= j -> j + n <= List.length orig ->
  run (shiftRight cmp n data j) (fun data' =>
    Inv data' /\ rearranged (j - 1) (j + n) (clsAt data) (clsAt data')).
Proof.
  induction n as [|n IH]; intros data j Hinv Hj Hn; cbn [shiftRight].
  - cbn [run]. split; [assumption|apply rearranged_refl].
  - eapply run_bind; [apply run_less; [assumption|lia|lia]|].
    intros lt _. destruct lt; cbn [negb].
    + eapply run_bind; [apply run_swap; [assumption|lia|lia]|].
      intros data1 [Hinv1 Hex].
      eapply run_weaken; [apply (IH data1 (S j) Hinv1); lia|].
      intros data' (Hinv' & Hre). split; [assumption|].
      eapply rearranged_trans;
        [apply (rearranged_exchange (j - 1) (j + S n) j (j - 1)); eauto; lia|].
      apply (rearranged_mono (j - 1) (j + S n) (S j - 1) (S j + n));
        [lia|lia|exact Hre].
    + cbn [run]. split; [assumption|apply rearranged_refl].
Qed.

Lemma sortedIn_extend (a i i' : nat) (V : nat -> bool) :
  a < i -> sortedIn a i V ->
  (forall k, i <= k -> k < i' -> V (k - 1) = true -> V k = true) ->
  sortedIn a i' V.
Proof.
  intros Hai Hs Hadj p q Hp Hpq. revert p Hp Hpq.
  induction q as [|q IH]; intros p Hp Hpq Hq Hv; [lia|].
  destruct (le_lt_dec i (S q)) as [Hge|Hlt]; [|apply (Hs p (S q)); auto; lia].
  apply Hadj; [lia|lia|]. replace (S q - 1) with q by lia.
  destruct (Nat.eq_dec p q) as [->|Hne]; [assumption|].
  apply (IH p); auto; lia.
Qed.

Lemma partialInsertionLoop_spec (a b : nat) : forall n data i,
  Inv data -> a < i -> i <= b -> b <= List.length orig ->
  lowBefore a b (clsAt data) -> sortedIn a i (clsAt data) ->
  run (partialInsertionLoop cmp n data a b i) (fun r =>
    Inv (fst r) /\ rearranged a b (clsAt data) (clsAt (fst r)) /\
    (snd r = true -> sortedIn a b (clsAt (fst r)))).
Proof.
  induction n as [|n IH]; intros data i Hinv Hai Hib Hb Hlow Hs;
    cbn [partialInsertionLoop].
  - cbn [run fst snd]. split; [assumption|]. split; [apply rearranged_refl|].
    discriminate.
  - eapply run_bind.
    { apply (scanUp_spec _
        (fun k => clsAt data (k - 1) = true -> clsAt data k = true)
        (fun k => clsAt data k = true -> clsAt data (k - 1) = true)).
      intros k Hk Hk'.
      eapply run_weaken; [apply (run_notLess data k (k - 1) Hinv); lia|].
      intros ge [Ht Hf]; destruct ge; auto. }
    intros i' (Hi1 & Hi2 & Hi3 & Hi4).
    assert (Hs' : sortedIn a i' (clsAt data))
      by (apply (sortedIn_extend a i i'); auto).
    destruct (Nat.eqb_spec i' b) as [->|Hne].
    { cbn [run fst snd]. split; [assumption|].
      split; [apply rearranged_refl|auto]. }
    destruct (Nat.ltb_spec (b - a) shortestShifting) as [Hshort|Hlong].
    { cbn [run fst snd]. split; [assumption|].
      split; [apply rearranged_refl|discriminate]. }
    eapply run_bind; [apply run_swap; [assumption|lia|lia]|].
    intros data1 [Hinv1 Hex].
    destruct (exchange_facts _ _ _ _ Hex) as (H1 & H2 & H3).
    assert (Hre1 : rearranged a b (clsAt data) (clsAt data1))
      by (apply (rearranged_exchange a b i' (i' - 1)); auto; lia).
    eapply run_bind with (Q1 := fun data2 =>
      Inv data2 /\ rearranged a i' (clsAt data1) (clsAt data2) /\
      sortedIn a i' (clsAt data2)).
    { destruct (Nat.leb_spec 2 (i' - a)) as [Hfar|Hnear].
      - eapply run_weaken.
        { apply (shiftLeft_spec a (i' - 1) (i' - 1) data1 Hinv1); [lia|lia| | | |].
          - intros Hv. apply (lowBefore_rearranged a b _ _ Hlow Hre1).
            exists (i' - 1). repeat split; auto; lia.
          - intros p q Hp Hpq Hq. rewrite !H3 by lia. apply Hs'; lia.
          - intros p q Hp Hkp Hpq Hq. lia.
          - intros p m Hp Hpk Hkm Hm. lia. }
        replace (S (i' - 1)) with i' by lia. auto.
      - cbn [run]. split; [assumption|]. split; [apply rearranged_refl|].
        intros p q Hp Hpq Hq. lia. }
    intros data2 (Hinv2 & Hre2 & Hs2).
    eapply run_bind with (Q1 := fun data3 =>
      Inv data3 /\ rearranged i' b (clsAt data2) (clsAt data3)).
    { destruct (Nat.leb_spec 2 (b - i')) as [Hfar|Hnear].
      - eapply run_weaken.
        { apply (shiftRight_spec (b - (i' + 1)) data2 (i' + 1) Hinv2); lia. }
        intros data3 (Hinv3 & Hre3). split; [assumption|].
        apply (rearranged_mono i' b (i' + 1 - 1) (i' + 1 + (b - (i' + 1))));
          [lia|lia|exact Hre3].
      - cbn [run]. split; [assumption|apply rearranged_refl]. }
    intros data3 (Hinv3 & Hre3).
    assert (Hre : rearranged a b (clsAt data) (clsAt data3)).
    { eapply rearranged_trans; [exact Hre1|].
      eapply rearranged_trans;
        [apply (rearranged_mono a b a i'); [lia|lia|exact Hre2]|].
      apply (rearranged_mono a b i' b); [lia|lia|exact Hre3]. }
    eapply run_weaken.
    { apply (IH data3 i' Hinv3); [lia|lia|assumption| |].
      - apply (lowBefore_rearranged a b _ _ Hlow Hre).
      - apply (sortedIn_same a i' (clsAt data2)); [|exact Hs2].
        intros k Hk Hk'. destruct Hre3 as (Hout & _). apply Hout. lia. }
    intros [data' sorted] (Hinv' & Hre' & Hsorted). cbn [fst snd] in *.
    split; [assumption|]. split; [|assumption].
    eapply rearranged_trans; [exact Hre|exact Hre'].
Qed.

Lemma partialInsertionSortCmpFunc_spec (data : list E) (a b : nat) :
  Inv data -> a < b -> b <= List.length orig ->
  lowBefore a b (clsAt data) ->
  run (partialInsertionSortCmpFunc cmp data a b) (fun r =>
    Inv (fst r) /\ rearranged a b (clsAt data) (clsAt (fst r)) /\
    (snd r = true -> sortedIn a b (clsAt (fst r)))).
Proof.
  intros Hinv Hab Hb Hlow. unfold partialInsertionSortCmpFunc.
  apply partialInsertionLoop_spec; auto; try lia.
  intros i j Hi Hij Hj. lia.
Qed.

(** *** Pivot, pattern breaking, reversal *)

Lemma order2CmpFunc_spec (data : list E) (a b swaps : nat) (P : nat -> Prop) :
  Inv data -> a < List.length orig -> b < List.length orig -> P a -> P b ->
  run (order2CmpFunc cmp data a b swaps) (fun r =>
    P (fst (fst r)) /\ P (snd (fst r))).
Proof.
  intros Hinv Ha Hb Pa Pb. unfold order2CmpFunc.
  eapply run_bind; [apply run_less; [assumption|lia|lia]|].
  intros lt _. destruct lt; cbn [run fst snd]; auto.
Qed.

Lemma medianCmpFunc_spec (data : list E) (a b c swaps : nat) (P : nat -> Prop) :
  Inv data -> (forall x, P x -> x < List.length orig) -> P a -> P b -> P c ->
  run (medianCmpFunc cmp data a b c swaps) (fun r => P (fst r)).
Proof.
  intros Hinv HP Pa Pb Pc. unfold medianCmpFunc.
  eapply run_bind; [apply (order2CmpFunc_spec data a b swaps P); auto|].
  intros [[a1 b1] s1] [Pa1 Pb1]. cbn [fst snd] in *.
  eapply run_bind; [apply (order2CmpFunc_spec data b1 c s1 P); auto|].
  intros [[b2 c2] s2] [Pb2 Pc2]. cbn [fst snd] in *.
  eapply run_bind; [apply (order2CmpFunc_spec data a1 b2 s2 P); auto|].
  intros [[a3 b3] s3] [Pa3 Pb3]. cbn [run fst snd] in *. assumption.
Qed.

Lemma quarter_bounds (l : nat) : 4 * (l / 4) <= l /\ l < 4 * (l / 4) + 4.
Proof.
  pose proof (Nat.div_mod_eq l 4) as H.
  pose proof (Nat.mod_upper_bound l 4) as H'. lia.
Qed.

Lemma choosePivotCmpFunc_spec (data : list E) (a b : nat) :
  Inv data -> a < b -> b <= List.length orig ->
  run (choosePivotCmpFunc cmp data a b) (fun r => a <= fst r /\ fst r < b).
Proof.
  intros Hinv Hab Hb. unfold choosePivotCmpFunc. cbv zeta.
  destruct (quarter_bounds (b - a)) as [Hq1 Hq2].
  set (q := (b - a) / 4) in *.
  set (P := fun x => a <= x /\ x < b).
  assert (HP : forall x, P x -> x < List.length orig) by (unfold P; intros; lia).
  eapply run_bind with (Q1 := fun r => P (fst r)).
  { destruct (Nat.leb_spec 8 (b - a)) as [H8|H8].
    - eapply run_bind with (Q1 := fun r =>
        P (fst (fst (fst r))) /\ P (snd (fst (fst r))) /\ P (snd (fst r))).
      { destruct (Nat.leb_spec shortestNinther (b - a)) as [H50|H50].
        - unfold shortestNinther in H50. unfold medianAdjacentCmpFunc.
          eapply run_bind;
            [apply (medianCmpFunc_spec data _ _ _ _ P); auto; unfold P; lia|].
          intros [i1 s1] Pi. cbn [fst] in Pi.
          eapply run_bind;
            [apply (medianCmpFunc_spec data _ _ _ _ P); auto; unfold P; lia|].
          intros [j1 s2] Pj. cbn [fst] in Pj.
          eapply run_bind;
            [apply (medianCmpFunc_spec data _ _ _ _ P); auto; unfold P; lia|].
          intros [k1 s3] Pk. cbn [run fst snd] in *. auto.
        - cbn [run fst snd]. unfold P. lia. }
      intros [[[i1 j1] k1] s1] (Pi & Pj & Pk). cbn [fst snd] in *.
      apply (medianCmpFunc_spec data _ _ _ _ P); auto.
    - cbn [run fst]. unfold P. lia. }
  intros [j s] Pj. cbn [run fst] in *. exact Pj.
Qed.

Lemma nextPowerOfTwo_bound (length : nat) :
  1 <= length ->
  1 <= N.to_nat (nextPowerOfTwo length) /\
  N.to_nat (nextPowerOfTwo length) <= 2 * length.
Proof.
  intros Hl. unfold nextPowerOfTwo, bitsLen.
  destruct length as [|l]; [lia|].
  rewrite N.shiftl_1_l, N2Nat.inj_pow, Nat2N.id.
  change (N.to_nat 2) with 2.
  pose proof (Nat.log2_spec (S l) ltac:(lia)) as [Hlo _].
  rewrite Nat.pow_succ_r'. split; [|lia].
  pose proof (Nat.pow_nonzero 2 (Nat.log2 (S l)) ltac:(lia)). lia.
Qed.

Lemma breakPatternsLoop_spec (a b length idx : nat) (modulus : N) :
  forall n data random i,
  Inv data -> b <= List.length orig -> length = b - a -> 1 <= length ->
  1 <= N.to_nat modulus -> N.to_nat modulus <= 2 * length ->
  a <= idx - 1 + i -> idx - 1 + i + n <= b ->
  run (breakPatternsLoop n data a length idx modulus random i) (fun data' =>
    Inv data' /\ rearranged a b (clsAt data) (clsAt data')).
Proof.
  induction n as [|n IH]; intros data random i Hinv Hb Hlen Hl Hm1 Hm2 Hlo Hhi;
    cbn [breakPatternsLoop].
  - cbn [run]. split; [assumption|apply rearranged_refl].
  - cbv zeta.
    set (other0 := N.to_nat (N.land (xorshiftNext random) (modulus - 1))).
    assert (Hother0 : other0 < 2 * length).
    { unfold other0.
      pose proof (N.land_le_r (xorshiftNext random) (modulus - 1)) as Hle.
      lia. }
    set (other := if length <=? other0 then other0 - length else other0).
    assert (Hother : other < length).
    { unfold other. destruct (Nat.leb_spec length other0); lia. }
    eapply run_bind; [apply run_swap; [assumption|lia|lia]|].
    intros data1 [Hinv1 Hex].
    eapply run_weaken;
      [apply (IH data1 (xorshiftNext random) (S i) Hinv1); auto; lia|].
    intros data' (Hinv' & Hre). split; [assumption|].
    eapply rearranged_trans; [|exact Hre].
    apply (rearranged_exchange a b (idx - 1 + i) (a + other)); auto; lia.
Qed.

Lemma breakPatternsCmpFunc_spec (data : list E) (a b : nat) :
  Inv data -> a <= b -> b <= List.length orig ->
  run (breakPatternsCmpFunc data a b) (fun data' =>
    Inv data' /\ rearranged a b (clsAt data) (clsAt data')).
Proof.
  intros Hinv Hab Hb. unfold breakPatternsCmpFunc. cbv zeta.
  destruct (Nat.leb_spec 8 (b - a)) as [H8|H8].
  - destruct (quarter_bounds (b - a)) as [Hq1 Hq2].
    destruct (nextPowerOfTwo_bound (b - a)) as [Hm1 Hm2]; [lia|].
    apply (breakPatternsLoop_spec a b); auto; lia.
  - cbn [run]. split; [assumption|apply rearranged_refl].
Qed.

Lemma reverseRangeLoop_spec (a b : nat) : forall n data i j,
  Inv data -> b <= List.length orig ->
  a <= i -> i + n <= b -> j < b -> a + n <= j + 1 ->
  run (reverseRangeLoop n data i j) (fun data' =>
    Inv data' /\ rearranged a b (clsAt data) (clsAt data')).
Proof.
  induction n as [|n IH]; intros data i j Hinv Hb Hai Hin Hjb Hj;
    cbn [reverseRangeLoop].
  - cbn [run]. split; [assumption|apply rearranged_refl].
  - eapply run_bind; [apply run_swap; [assumption|lia|lia]|].
    intros data1 [Hinv1 Hex].
    eapply run_weaken; [apply (IH data1 (S i) (j - 1) Hinv1); lia|].
    intros data' (Hinv' & Hre). split; [assumption|].
    eapply rearranged_trans; [|exact Hre].
    apply (rearranged_exchange a b i j); auto; lia.
Qed.

Lemma reverseRangeCmpFunc_spec (data : list E) (a b : nat) :
  Inv data -> a <= b -> b <= List.length orig ->
  run (reverseRangeCmpFunc data a b) (fun data' =>
    Inv data' /\ rearranged a b (clsAt data) (clsAt data')).
Proof.
  intros Hinv Hab Hb. unfold reverseRangeCmpFunc.
  pose proof (Nat.Div0.mul_div_le (b - a) 2) as Hhalf.
  destruct (Nat.eq_dec a b) as [->|Hne].
  - rewrite Nat.sub_diag. cbn. split; [assumption|apply rearranged_refl].
  - apply (reverseRangeLoop_spec a b); auto; lia.
Qed.

(** *** The loop of [pdqsortCmpFunc] *)

Lemma lowBefore_rearranged_before (x y a b : nat) (V V' : nat -> bool) :
  lowBefore x y V -> rearranged a b V V' -> b <= x -> lowBefore x y V'.
Proof.
  intros H (Hout & _ & Hhi) Hbx (j & Hj1 & Hj2 & Hj) i Hi.
  assert (Hlow : forall k, k < x -> V k = false).
  { apply H. exists j. rewrite <- Hout by lia. auto. }
  destruct (le_lt_dec a i) as [Hai|Hai]; [|rewrite Hout by lia; auto].
  destruct (le_lt_dec b i) as [Hbi|Hbi]; [rewrite Hout by lia; auto|].
  destruct (V' i) eqn:Hv; [|reflexivity].
  destruct Hhi as (k & Hk1 & Hk2 & Hk); [exists i; auto|].
  rewrite Hlow in Hk by lia. discriminate.
Qed.

Lemma lowBefore_rearranged_after (x y a b : nat) (V V' : nat -> bool) :
  lowBefore x y V -> rearranged a b V V' -> y <= a -> lowBefore x y V'.
Proof.
  intros H (Hout & _ & _) Hya (j & Hj1 & Hj2 & Hj) i Hi.
  rewrite Hout by lia. apply H; [|assumption].
  exists j. rewrite <- Hout by lia. auto.
Qed.

Lemma highAfter_rearranged_after (x y a b : nat) (V V' : nat -> bool) :
  highAfter x y V -> rearranged a b V V' -> y <= a ->
  b <= List.length orig -> highAfter x y V'.
Proof.
  intros H (Hout & Hlo & _) Hya Hb (j & Hj1 & Hj2 & Hj) i Hi Hi'.
  assert (Hhigh : forall k, y <= k -> k < List.length orig -> V k = true).
  { apply H. exists j. rewrite <- Hout by lia. auto. }
  destruct (le_lt_dec a i) as [Hai|Hai]; [|rewrite Hout by lia; auto].
  destruct (le_lt_dec b i) as [Hbi|Hbi]; [rewrite Hout by lia; auto|].
  destruct (V' i) eqn:Hv; [reflexivity|].
  destruct Hlo as (k & Hk1 & Hk2 & Hk); [exists i; auto|].
  rewrite Hhigh in Hk by lia. discriminate.
Qed.

Lemma highAfter_rearranged_before (x y a b : nat) (V V' : nat -> bool) :
  highAfter x y V -> rearranged a b V V' -> b <= x -> highAfter x y V'.
Proof.
  intros H (Hout & _ & _) Hbx (j & Hj1 & Hj2 & Hj) i Hi Hi'.
  rewrite Hout by lia. apply H; [|assumption|assumption].
  exists j. rewrite <- Hout by lia. auto.
Qed.

(** The range after a partition around [mid], whose class is [cp]. *)
Definition parted (a mid b : nat) (cp : bool) (V : nat -> bool) : Prop :=
  (forall k, a <= k -> k < mid -> V k = true -> cp = true) /\
  V mid = cp /\
  (forall k, mid < k -> k < b -> cp = true -> V k = true).

Lemma parted_left (a mid b : nat) (cp : bool) (V V' : nat -> bool) :
  parted a mid b cp V -> rearranged a mid V V' -> parted a mid b cp V'.
Proof.
  intros (Hl & Hm & Hr) (Hout & _ & Hhi). repeat split.
  - intros k Hk Hk' Hv. destruct Hhi as (k' & ? & ? & ?); [exists k; auto|].
    now apply (Hl k').
  - rewrite Hout by lia. exact Hm.
  - intros k Hk Hk' Hc. rewrite Hout by lia. now apply Hr.
Qed.

Lemma parted_right (a mid b : nat) (cp : bool) (V V' : nat -> bool) :
  parted a mid b cp V -> rearranged (mid + 1) b V V' -> parted a mid b cp V'.
Proof.
  intros (Hl & Hm & Hr) (Hout & Hlo & _). repeat split.
  - intros k Hk Hk'. rewrite Hout by lia. now apply Hl.
  - rewrite Hout by lia. exact Hm.
  - intros k Hk Hk' Hc. destruct (V' k) eqn:Hv; [reflexivity|].
    destruct Hlo as (k' & ? & ? & Hk''); [exists k; repeat split; auto; lia|].
    rewrite Hr in Hk'' by (auto; lia). discriminate.
Qed.

Lemma parted_sorted (a mid b : nat) (cp : bool) (V : nat -> bool) :
  parted a mid b cp V -> sortedIn a mid V -> sortedIn (mid + 1) b V ->
  sortedIn a b V.
Proof.
  intros (Hl & Hm & Hr) Hsl Hsr i j Hi Hij Hj Hv.
  destruct (lt_eq_lt_dec i mid) as [[Him|Him]|Him].
  - destruct (lt_eq_lt_dec j mid) as [[Hjm|Hjm]|Hjm].
    + now apply (Hsl i j).
    + subst j. rewrite Hm. now apply (Hl i).
    + apply Hr; auto. now apply (Hl i).
  - subst i. apply Hr; auto. congruence.
  - apply (Hsr i j); auto; lia.
Qed.

Lemma parted_bounds (a mid b : nat) (cp : bool) (V : nat -> bool) :
  a <= mid -> mid < b -> parted a mid b cp V ->
  lowBefore a b V -> highAfter a b V ->
  lowBefore a mid V /\ highAfter a mid V /\
  lowBefore (mid + 1) b V /\ highAfter (mid + 1) b V.
Proof.
  intros Ham Hmb (Hl & Hm & Hr) Hlow Hhigh. repeat split.
  - intros (j & ? & ? & Hj). apply Hlow. exists j. repeat split; auto; lia.
  - intros (j & ? & ? & Hj) k Hk Hk'.
    assert (Hc : cp = true) by now apply (Hl j).
    destruct (lt_eq_lt_dec k mid) as [[H1|H1]|H1]; [lia|congruence|].
    destruct (le_lt_dec b k) as [H2|H2]; [|now apply Hr].
    apply Hhigh; auto. exists j. repeat split; auto; lia.
  - intros (j & ? & ? & Hj) i Hi.
    assert (Hc : cp = false).
    { destruct cp; [|reflexivity]. rewrite Hr in Hj by (auto; lia).
      discriminate. }
    destruct (lt_eq_lt_dec i mid) as [[H1|H1]|H1]; [|congruence|lia].
    destruct (le_lt_dec a i) as [H2|H2].
    + destruct (V i) eqn:Hv; [|reflexivity].
      rewrite (Hl i H2 H1 Hv) in Hc. discriminate.
    + apply Hlow; auto. exists j. repeat split; auto; lia.
  - intros (j & ? & ? & Hj). apply Hhigh. exists j. repeat split; auto; lia.
Qed.

Lemma pdqsortLoop_spec : forall n data a b limit wasBalanced wasPartitioned,
  Inv data -> a <= b -> b <= List.length orig -> b - a <= n ->
  lowBefore a b (clsAt data) -> highAfter a b (clsAt data) ->
  run (pdqsortLoop cmp n data a b limit wasBalanced wasPartitioned)
    (fun data' =>
       Inv data' /\ rearranged a b (clsAt data) (clsAt data') /\
       sortedIn a b (clsAt data')).
Proof.
  induction n as [|n IH];
    intros data a b limit wasBalanced wasPartitioned Hinv Hab Hb Hn Hlow Hhigh;
    cbn [pdqsortLoop]; cbv zeta;
    (destruct (Nat.leb_spec (b - a) maxInsertion) as [Hsmall|Hlarge];
     [now apply insertionSortCmpFunc_spec|]);
    [lia|].
  unfold maxInsertion in Hlarge.
  destruct (Nat.eqb_spec limit 0) as [Hlimit|Hlimit];
    [now apply heapSortCmpFunc_spec|].
  (* breakPatterns *)
  eapply run_bind with (Q1 := fun r =>
    Inv (fst r) /\ rearranged a b (clsAt data) (clsAt (fst r))).
  { destruct wasBalanced; cbn [negb].
    - cbn [run fst]. split; [assumption|apply rearranged_refl].
    - eapply run_bind; [now apply breakPatternsCmpFunc_spec|].
      intros data1 H1. exact H1. }
  intros [data1 limit1] (Hinv1 & Hre1). cbn [fst] in *.
  (* choosePivot *)
  eapply run_bind; [apply choosePivotCmpFunc_spec; [assumption|lia|lia]|].
  intros [pivot hint] [Hp1 Hp2]. cbn [fst] in *.
  (* reverseRange *)
  eapply run_bind with (Q1 := fun r =>
    Inv (fst (fst r)) /\
    rearranged a b (clsAt data1) (clsAt (fst (fst r))) /\
    a <= snd (fst r) /\ snd (fst r) < b).
  { destruct (isDecreasing hint).
    - eapply run_bind; [now apply reverseRangeCmpFunc_spec|].
      intros data2 (Hinv2 & Hre2). cbn [run fst snd].
      split; [assumption|]. split; [assumption|]. lia.
    - cbn [run fst snd]. split; [assumption|].
      split; [apply rearranged_refl|]. lia. }
  intros [[data2 pivot2] hint2] (Hinv2 & Hre2 & Hq1 & Hq2). cbn [fst snd] in *.
  assert (Hre12 : rearranged a b (clsAt data) (clsAt data2))
    by (eapply rearranged_trans; eassumption).
  (* partialInsertionSort *)
  eapply run_bind with (Q1 := fun r =>
    Inv (fst r) /\ rearranged a b (clsAt data2) (clsAt (fst r)) /\
    (snd r = true -> sortedIn a b (clsAt (fst r)))).
  { destruct (wasBalanced && wasPartitioned && isIncreasing hint2).
    - apply partialInsertionSortCmpFunc_spec; auto; [lia|].
      apply (lowBefore_rearranged a b _ _ Hlow Hre12).
    - cbn [run fst snd]. split; [assumption|].
      split; [apply rearranged_refl|discriminate]. }
  intros [data3 sorted] (Hinv3 & Hre3 & Hsorted). cbn [fst snd] in *.
  assert (Hre13 : rearranged a b (clsAt data) (clsAt data3))
    by (eapply rearranged_trans; eassumption).
  destruct sorted; [cbn [run]; auto|]. clear Hsorted.
  assert (Hlow3 : lowBefore a b (clsAt data3))
    by (apply (lowBefore_rearranged a b _ _ Hlow Hre13)).
  assert (Hhigh3 : highAfter a b (clsAt data3))
    by (apply (highAfter_rearranged a b _ _ Hhigh Hre13)).
  (* the predecessor test *)
  eapply run_bind with (Q1 := fun equal : bool =>
    equal = true ->
    0 < a /\ (clsAt data3 pivot2 = true -> clsAt data3 (a - 1) = true)).
  { destruct (Nat.ltb_spec 0 a) as [Hpos|Hzero].
    - eapply run_weaken; [apply (run_notLess data3 (a - 1) pivot2 Hinv3); lia|].
      intros ge [Ht _] Hge. split; [assumption|]. now apply Ht.
    - cbn [run]. discriminate. }
  intros equal Hequal. destruct equal.
  - (* partitionEqual *)
    destruct (Hequal eq_refl) as [Hpos Hpred]. clear Hequal.
    eapply run_bind; [apply partitionEqualCmpFunc_spec; [assumption|lia|lia|lia]|].
    intros [data4 mid] (Hinv4 & Hre4 & Hm1 & Hm2 & Hl & Hr).
    cbn [fst snd] in *.
    assert (Hre14 : rearranged a b (clsAt data) (clsAt data4))
      by (eapply rearranged_trans; eassumption).
    assert (Hlow4 : lowBefore a b (clsAt data4))
      by (apply (lowBefore_rearranged a b _ _ Hlow Hre14)).
    assert (Hhigh4 : highAfter a b (clsAt data4))
      by (apply (highAfter_rearranged a b _ _ Hhigh Hre14)).
    eapply run_weaken.
    { apply (IH data4 mid b limit1 wasBalanced wasPartitioned Hinv4);
        [lia|lia|lia| |].
      - intros (j & Hj1 & Hj2 & Hj) i Hi.
        destruct (clsAt data3 pivot2) eqn:Hcp.
        + rewrite Hr in Hj by (auto; lia). discriminate.
        + destruct (le_lt_dec a i) as [Hai|Hai].
          * destruct (clsAt data4 i) eqn:Hv; [|reflexivity].
            discriminate (Hl i Hai Hi Hv).
          * apply Hlow4; auto. exists j. repeat split; auto; lia.
      - intros (j & Hj1 & Hj2 & Hj). apply Hhigh4.
        exists j. repeat split; auto; lia. }
    intros data5 (Hinv5 & Hre5 & Hs5).
    assert (Hre45 : rearranged a b (clsAt data4) (clsAt data5))
      by (apply (rearranged_mono a b mid b); [lia|lia|exact Hre5]).
    split; [assumption|]. split.
    { eapply rearranged_trans; [exact Hre14|exact Hre45]. }
    intros i j Hi Hij Hj Hv.
    destruct (clsAt data3 pivot2) eqn:Hcp.
    + destruct (clsAt data5 j) eqn:Hvj; [reflexivity|].
      assert (Hhas : hasLo a b (clsAt data3)).
      { destruct Hre4 as (_ & Hlo4 & _). apply Hlo4.
        destruct Hre45 as (_ & Hlo5 & _). apply Hlo5.
        exists j. repeat split; auto; lia. }
      rewrite (Hlow3 Hhas (a - 1)) in Hpred by lia.
      discriminate Hpred; reflexivity.
    + destruct (le_lt_dec mid i) as [Hmi|Hmi]; [apply (Hs5 i j); auto|].
      destruct Hre5 as (Hout5 & _). rewrite Hout5 in Hv by lia.
      discriminate (Hl i Hi Hmi Hv).
  - (* partition *)
    clear Hequal.
    eapply run_bind; [apply partitionCmpFunc_spec; [assumption|lia|lia|lia]|].
    intros [[data4 mid] alreadyPartitioned]
      (Hinv4 & Hre4 & Hm1 & Hm2 & Hm & Hl & Hr).
    cbn [fst snd] in *.
    assert (Hre14 : rearranged a b (clsAt data) (clsAt data4))
      by (eapply rearranged_trans; eassumption).
    assert (Hparted : parted a mid b (clsAt data3 pivot2) (clsAt data4))
      by (repeat split; assumption).
    destruct (parted_bounds a mid b _ _ Hm1 Hm2 Hparted
                (lowBefore_rearranged a b _ _ Hlow Hre14)
                (highAfter_rearranged a b _ _ Hhigh Hre14))
      as (HlowL & HhighL & HlowR & HhighR).
    destruct (Nat.ltb_spec (mid - a) (b - mid)) as [Hleft|Hright].
    + eapply run_bind.
      { apply (IH data4 a mid limit1 true true Hinv4); auto; lia. }
      intros data5 (Hinv5 & Hre5 & Hs5).
      eapply run_weaken.
      { apply (IH data5 (mid + 1) b limit1 _ _ Hinv5); [lia|lia|lia| |].
        - apply (lowBefore_rearranged_before _ _ a mid _ _ HlowR Hre5). lia.
        - apply (highAfter_rearranged_before _ _ a mid _ _ HhighR Hre5). lia. }
      intros data6 (Hinv6 & Hre6 & Hs6).
      split; [assumption|]. split.
      { eapply rearranged_trans; [exact Hre14|].
        eapply rearranged_trans;
          [apply (rearranged_mono a b a mid); [lia|lia|exact Hre5]|].
        apply (rearranged_mono a b (mid + 1) b); [lia|lia|exact Hre6]. }
      apply (parted_sorted a mid b (clsAt data3 pivot2)).
      * apply (parted_right a mid b _ (clsAt data5)); [|exact Hre6].
        apply (parted_left a mid b _ (clsAt data4)); assumption.
      * apply (sortedIn_same a mid (clsAt data5)); [|exact Hs5].
        intros k Hk Hk'. destruct Hre6 as (Hout & _). apply Hout. lia.
      * exact Hs6.
    + eapply run_bind.
      { apply (IH data4 (mid + 1) b limit1 true true Hinv4); auto; lia. }
      intros data5 (Hinv5 & Hre5 & Hs5).
      eapply run_weaken.
      { apply (IH data5 a mid limit1 _ _ Hinv5); [lia|lia|lia| |].
        - apply (lowBefore_rearranged_after _ _ (mid + 1) b _ _ HlowL Hre5). lia.
        - apply (highAfter_rearranged_after _ _ (mid + 1) b _ _ HhighL Hre5); lia. }
      intros data6 (Hinv6 & Hre6 & Hs6).
      split; [assumption|]. split.
      { eapply rearranged_trans; [exact Hre14|].
        eapply rearranged_trans;
          [apply (rearranged_mono a b (mid + 1) b); [lia|lia|exact Hre5]|].
        apply (rearranged_mono a b a mid); [lia|lia|exact Hre6]. }
      apply (parted_sorted a mid b (clsAt data3 pivot2)).
      * apply (parted_left a mid b _ (clsAt data5)); [|exact Hre6].
        apply (parted_right a mid b _ (clsAt data4)); assumption.
      * exact Hs6.
      * apply (sortedIn_same (mid + 1) b (clsAt data5)); [|exact Hs5].
        intros k Hk Hk'. destruct Hre6 as (Hout & _). apply Hout. lia.
Qed.

Lemma SortFunc_run :
  run (SortFunc cmp orig) (fun x' =>
    Permutation orig x' /\
    sortedIn 0 (List.length orig) (clsAt x')).
Proof.
  unfold SortFunc, pdqsortCmpFunc. cbv zeta.
  eapply run_weaken.
  { apply pdqsortLoop_spec; [apply Permutation_refl|lia|lia|lia| |].
    - intros _ i Hi. lia.
    - intros _ j Hj Hj'. lia. }
  intros x' (Hinv & _ & Hs). split; assumption.
Qed.
End Classes.

(** [slices.SortFunc] with a comparison function that never contradicts
    the classes: the result is a rearrangement of the slice in which no
    high element stands before a low one. *)
Lemma SortFunc_classes {E : Type} (cmp : E -> E -> option Z) (cls : E -> bool)
    (x x' : list E) :
  (forall a b c, cmp a b = Some c ->
     ((c < 0)%Z -> cls a = true -> cls b = true) /\
     ((0 <= c)%Z -> cls b = true -> cls a = true)) ->
  SortFunc cmp x = Some x' ->
  Permutation x x' /\
  forall i j a b, (i < j)%nat ->
    nth_error x' i = Some a -> nth_error x' j = Some b ->
    cls a = true -> cls b = true.
Proof.
  intros Hcls H. pose proof (SortFunc_run cmp cls Hcls x) as Hrun.
  rewrite H in Hrun. cbn [run] in Hrun. destruct Hrun as [Hperm Hs].
  split; [assumption|]. intros i j a b Hij Ha Hb Hca.
  assert (Hj : (j < List.length x)%nat).
  { rewrite (Permutation_length Hperm). apply nth_error_Some. congruence. }
  specialize (Hs i j (Nat.le_0_l i) Hij Hj). unfold clsAt in Hs.
  rewrite Ha, Hb in Hs. auto.
Qed.

(** [slices.SortFunc] returns unless a comparison panics: no bound of the
    model runs out, and no index is out of range. *)
Lemma SortFunc_returns {E : Type} (cmp : E -> E -> option Z) (x : list E) :
  (forall a b, In a x -> In b x -> cmp a b <> None) ->
  exists x', SortFunc cmp x = Some x'.
Proof.
  intros Htotal.
  assert (Hcls : forall a b c, cmp a b = Some c ->
     ((c < 0)%Z -> (fun _ : E => false) a = true ->
        (fun _ : E => false) b = true) /\
     ((0 <= c)%Z -> (fun _ : E => false) b = true ->
        (fun _ : E => false) a = true)) by (intros; split; auto).
  pose proof (SortFunc_run cmp (fun _ => false) Hcls x) as Hrun.
  destruct (SortFunc cmp x) as [x'|]; [now exists x'|].
  cbn [run] in Hrun. destruct Hrun as (a & b & Ha & Hb & Hab).
  exfalso. now apply (Htotal a b).
Qed.
End zsortanyfunc.

(** ** The two embeddings of the insertion sort agree

    On a slice of at most [maxInsertion] elements [slices.SortFunc] is the
    insertion sort; [insertionSortCmpFunc] above follows it on lists,
    [zsortanyfunc.insertionSortCmpFunc] on indices. *)

Section InsertionSortsAgree.
Context {E : Type} (cmp : E -> E -> option Z).

Lemma nth_error_rev_app_head (left : list E) (x : E) (tl : list E) :
  nth_error (rev left ++ x :: tl) (List.length left) = Some x.
Proof.
  rewrite nth_error_app2 by (rewrite length_rev; lia).
  now rewrite length_rev, Nat.sub_diag.
Qed.

Lemma set_nth_app_head (left : list E) (x y : E) (tl : list E) :
  set_nth (List.length left) y (rev left ++ x :: tl) = rev left ++ y :: tl.
Proof.
  rewrite <- (length_rev left). induction (rev left) as [|z l IH]; simpl; auto.
  now rewrite IH.
Qed.

Lemma insertionInner_insertLeft (x : E) : forall (left passed : list E),
  zsortanyfunc.insertionInner cmp (rev left ++ x :: passed) 0 (List.length left)
  = option_map (fun l => rev l ++ passed) (insertLeft cmp x left).
Proof.
  induction left as [|y left IH]; intros passed; [reflexivity|].
  cbn [List.length zsortanyfunc.insertionInner insertLeft Nat.ltb Nat.leb].
  unfold zsortanyfunc.less.
  change (S (List.length left)) with (List.length (y :: left)).
  rewrite nth_error_rev_app_head.
  cbn [rev]. rewrite <- app_assoc. cbn [app].
  rewrite nth_error_rev_app_head. cbn [bind].
  destruct (cmp x y) as [c|]; [|reflexivity]. cbn [bind].
  destruct (c <? 0); [|cbn [option_map rev]; now rewrite <- !app_assoc].
  unfold zsortanyfunc.swap.
  replace (nth_error (rev left ++ y :: x :: passed) (List.length (y :: left)))
    with (Some x).
  2:{ change (rev left ++ y :: x :: passed)
        with (rev left ++ [y] ++ x :: passed).
      rewrite app_assoc. change (rev left ++ [y]) with (rev (y :: left)).
      now rewrite nth_error_rev_app_head. }
  rewrite nth_error_rev_app_head. cbn [bind].
  rewrite set_nth_app_head.
  replace (set_nth (List.length (y :: left)) y (rev left ++ x :: x :: passed))
    with (rev left ++ x :: y :: passed).
  2:{ change (rev left ++ x :: x :: passed)
        with (rev left ++ [x] ++ x :: passed).
      rewrite app_assoc. change (rev left ++ [x]) with (rev (x :: left)).
      change (List.length (y :: left)) with (List.length (x :: left)).
      rewrite set_nth_app_head. cbn [rev]. now rewrite <- app_assoc. }
  rewrite IH. destruct (insertLeft cmp x left) as [l|]; cbn [bind option_map];
    [|reflexivity].
  cbn [rev]. now rewrite <- app_assoc.
Qed.

Lemma insertionOuter_insertionLoop : forall (rest left : list E),
  zsortanyfunc.insertionOuter cmp (List.length rest) (rev left ++ rest) 0
    (List.length left)
  = insertionLoop cmp rest left.
Proof.
  induction rest as [|x rest IH]; intros left.
  - cbn. now rewrite app_nil_r.
  - cbn [List.length zsortanyfunc.insertionOuter insertionLoop].
    rewrite insertionInner_insertLeft.
    destruct (insertLeft cmp x left) as [l|] eqn:Hl; cbn [bind option_map];
      [|reflexivity].
    apply insertLeft_perm, Permutation_length in Hl. cbn [List.length] in Hl.
    rewrite Hl. apply IH.
Qed.

(** On at most [maxInsertion] elements the library's [SortFunc] is the
    insertion sort on lists. *)
Lemma SortFunc_short (x : list E) :
  (List.length x <= maxInsertion)%nat ->
  zsortanyfunc.SortFunc cmp x = insertionSortCmpFunc cmp x.
Proof.
  intros Hn. unfold zsortanyfunc.SortFunc, zsortanyfunc.pdqsortCmpFunc.
  cbv zeta. rewrite Nat.sub_0_r.
  assert (Hle : (List.length x <=? maxInsertion)%nat = true)
    by (now apply Nat.leb_le).
  destruct (List.length x) as [|n] eqn:Hlen.
  - destruct x; [reflexivity|discriminate].
  - cbn [zsortanyfunc.pdqsortLoop]. cbv zeta. rewrite Nat.sub_0_r, Hle.
    unfold zsortanyfunc.insertionSortCmpFunc, insertionSortCmpFunc.
    destruct x as [|x0 rest]; [discriminate|].
    cbn [List.length] in Hlen. injection Hlen as Hlen.
    cbn [insertionLoop insertLeft bind]. cbn [Nat.add Nat.sub].
    rewrite Nat.sub_0_r, <- Hlen.
    apply (insertionOuter_insertionLoop rest [x0]).
Qed.
End InsertionSortsAgree.

(** [slices.SortFunc] as the Go library has it, for the slices of more
    than [maxInsertion] declarations. *)
Definition pdqsort (cmp : declaration -> declaration -> option Z)
    (x : list declaration) : option (list declaration) :=
  zsortanyfunc.SortFunc cmp x.

(** With it [SortFunc] is the library's [SortFunc] on every slice. *)
Lemma SortFunc_pdqsort (cmp : declaration -> declaration -> option Z)
    (x : list declaration) :
  SortFunc pdqsort cmp x = zsortanyfunc.SortFunc cmp x.
Proof.
  unfold SortFunc, pdqsort.
  destruct (Nat.leb_spec (List.length x) maxInsertion); [|reflexivity].
  symmetry. now apply SortFunc_short.
Qed.

(** With the library's sort [Format] returns on every well-formed tree,
    of any number of declarations. *)
Lemma Format_pdqsort_returns (h : store) (file : File) (src : slice) :
  (sl_len src <= sl_cap src)%nat ->
  (FileName file = None \/ 1 <= Package file <= Z.of_nat (sl_len src) + 1) ->
  Forall (wellFormedDecl (Z.of_nat (sl_len src))) (Decls file) ->
  Forall (fun c => 1 <= cgPos c) (Comments file) ->
  exists h' out, Format pdqsort h file src = Some (h', out).
Proof.
  intros Hlen Hpkg Hds Hcs. unfold Format.
  destruct (Decls file) as [|d0 ds] eqn:Hdecls;
    [exists (fst (bytesClone h src)), (snd (bytesClone h src)); reflexivity|].
  assert (Hlb : exists lb, firstLeftBound h file src = Some lb).
  { unfold firstLeftBound, newlinePosAfterPackageDecl.
    destruct (FileName file); [|cbn [bind]; eauto].
    destruct Hpkg as [|Hpkg]; [discriminate|].
    rewrite reslice_from_tail by lia. cbn [bind].
    destruct (_ =? -1); cbn [bind]; eauto. }
  destruct Hlb as [lb Hlb].
  destruct (getDeclsFrom_returns src (Z.of_nat (sl_len src)) (d0 :: ds) 0
              (Comments file) lb Hds) as (decls & Hget & Hres); [lia|exact Hcs|].
  assert (Hd : getDecls h file src = Some decls).
  { rewrite getDecls_unfold, Hlb. cbn [bind]. now rewrite Hdecls. }
  rewrite Hd. cbn [bind].
  pose proof (getDecls_length _ _ _ _ Hd) as Hlength. rewrite Hdecls in Hlength.
  pose proof (getDecls_texts _ _ _ _ Hd) as Htexts.
  destruct decls as [|r0 decls]; [discriminate|]. cbn [hd_error bind].
  assert (Hsort : exists sorted,
            SortFunc pdqsort compareDecls (r0 :: decls) = Some sorted).
  { rewrite SortFunc_pdqsort. apply zsortanyfunc.SortFunc_returns.
    rewrite Forall_forall in Hres. intros x y Hx Hy Hnone.
    destruct (compareDecls_returns x y) as [c Hc]; auto. congruence. }
  destruct Hsort as [sorted ->]. cbn [bind].
  destruct (bytesJoin h (map Text sorted) newline) as [h1 rw].
  inversion Htexts as [|? ? Ht0 _]; subst.
  apply reslice_Some in Ht0 as (Hlo & Hhi & _).
  rewrite reslice_prefix by lia. cbn [bind].
  destruct (append h1 _ (contents h1 rw)) as [h2 inner].
  assert (Hend : 0 <= nodeEnd (last (r0 :: decls) r0) <= Z.of_nat (sl_len src)).
  { rewrite (getDecls_last_end h file src _ r0 d0); [| now rewrite Hdecls | exact Hd].
    rewrite Hdecls.
    assert (Hin : In (last (d0 :: ds) d0) (d0 :: ds)).
    { destruct (exists_last (l := d0 :: ds)) as (l' & a & Heq); [discriminate|].
      rewrite Heq, last_last. apply in_or_app. right. now left. }
    rewrite Forall_forall in Hds. destruct (Hds _ Hin) as (? & ? & ? & _). lia. }
  rewrite reslice_from_tail by lia. cbn [bind].
  destruct (append h2 inner _) as [h3 out]. now exists h3, out.
Qed.

(** ** A file of fourteen declarations *)

Module Long.
Definition src : string := "package main

func zeta() {}

var v1 = 1

const c1 = 1

type T struct{}

func (T) m() {}

var v2 = 2

func main() {}

const c2 = 2

type S struct{}

func alpha() {}

var v3 = 3

func (S) n() {}

const c3 = 3

func beta() {}
".
Definition file : File := pkg "main"
  [FuncDecl 15 29 None "zeta";
   GenDecl 31 41 VAR [ValueSpec];
   GenDecl 43 55 CONST [ValueSpec];
   GenDecl 57 72 TYPE [TypeSpec "T"];
   FuncDecl 74 89 (receiver "T") "m";
   GenDecl 91 101 VAR [ValueSpec];
   FuncDecl 103 117 None "main";
   GenDecl 119 131 CONST [ValueSpec];
   GenDecl 133 148 TYPE [TypeSpec "S"];
   FuncDecl 150 165 None "alpha";
   GenDecl 167 177 VAR [ValueSpec];
   FuncDecl 179 194 (receiver "S") "n";
   GenDecl 196 208 CONST [ValueSpec];
   FuncDecl 210 224 None "beta"] [].

(** What [Format] returns for [src]. *)
Definition src' : string := "package main

const c1 = 1

const c2 = 2

const c3 = 3

var v1 = 1

var v2 = 2

var v3 = 3

type S struct{}

func (S) n() {}

type T struct{}

func (T) m() {}

func main() {}

func alpha() {}

func beta() {}

func zeta() {}
".

Lemma long_positions :
  textAt src 15 29 = "func zeta() {}"%string /\
  textAt src 31 41 = "var v1 = 1"%string /\
  textAt src 43 55 = "const c1 = 1"%string /\
  textAt src 57 72 = "type T struct{}"%string /\
  textAt src 74 89 = "func (T) m() {}"%string /\
  textAt src 91 101 = "var v2 = 2"%string /\
  textAt src 103 117 = "func main() {}"%string /\
  textAt src 119 131 = "const c2 = 2"%string /\
  textAt src 133 148 = "type S struct{}"%string /\
  textAt src 150 165 = "func alpha() {}"%string /\
  textAt src 167 177 = "var v3 = 3"%string /\
  textAt src 179 194 = "func (S) n() {}"%string /\
  textAt src 196 208 = "const c3 = 3"%string /\
  textAt src 210 224 = "func beta() {}"%string.
Proof. repeat split. Qed.
End Long.

(** ** The order of imports, constants and variables *)

(** An import, constant or variable that stands, by category and then by
    index, at or before the place [(o, n)]. *)
Definition lowUpTo (o n : Z) (d : declaration) : bool :=
  match Tok d with
  | IMPORT | CONST | VAR =>
      (declOrder (Tok d) <? o) ||
      ((declOrder (Tok d) =? o) && (OriginalOrder d <=? n))
  | TYPE | FUNC | METHOD => false
  end.

(** The comparator never puts a declaration beyond the place before one
    that is not: it orders imports, constants and variables by category and
    index, and puts each of them before every type, method and function. *)
Lemma compareDecls_lowUpTo (o n : Z) (x y : declaration) (c : Z) :
  compareDecls x y = Some c ->
  (c < 0 -> negb (lowUpTo o n x) = true -> negb (lowUpTo o n y) = true) /\
  (0 <= c -> negb (lowUpTo o n y) = true -> negb (lowUpTo o n x) = true).
Proof.
  unfold compareDecls, compareMethodToDecl, lowUpTo, cmpCompare_Z.
  destruct (Tok x) eqn:Tx, (Tok y) eqn:Ty;
    cbn [Token_eqb negb declOrder orb andb];
    intros H;
    repeat match type of H with
    | context [getReceiverTypeName ?d] =>
        destruct (getReceiverTypeName d); [|discriminate]; cbn [bind] in H
    end;
    try (split; intros; reflexivity);
    try (injection H as <-);
    repeat match goal with
    | |- context [Z.ltb ?p ?q] => destruct (Z.ltb_spec p q)
    | |- context [Z.eqb ?p ?q] => destruct (Z.eqb_spec p q)
    | |- context [Z.leb ?p ?q] => destruct (Z.leb_spec p q)
    end;
    cbn [negb orb andb]; split; intros; try reflexivity; try assumption;
    try discriminate; try lia.
Qed.

Lemma filter_sorted_by_places {A : Type} (P : A -> bool) (R : A -> A -> Prop)
    (l : list A) :
  (forall i j x y, (i < j)%nat -> nth_error l i = Some x ->
     nth_error l j = Some y -> P x = true -> P y = true -> R x y) ->
  StronglySorted R (filter P l).
Proof.
  induction l as [|a l IH]; intros H; cbn [filter]; [constructor|].
  assert (IH' : StronglySorted R (filter P l)).
  { apply IH. intros i j x y Hij Hx Hy. apply (H (S i) (S j)); auto. lia. }
  destruct (P a) eqn:Ha; [|exact IH'].
  constructor; [exact IH'|]. apply Forall_forall. intros y Hy.
  apply filter_In in Hy as [Hy HPy].
  apply In_nth_error in Hy as [j Hj].
  apply (H 0%nat (S j)); auto. lia.
Qed.

(** The library's sort leaves the imports in the order of their indices,
    and the constants, and the variables, whatever the comparator answers
    for types, methods and functions. *)
Lemma pdqsort_keeps_stable_groups (t : Token) (decls sorted : list declaration) :
  stableToken t -> StronglySorted orderBefore decls ->
  pdqsort compareDecls decls = Some sorted ->
  Permutation decls sorted /\
  filter (hasTok t) sorted = filter (hasTok t) decls.
Proof.
  intros Ht Horders Hs. unfold pdqsort in Hs.
  assert (Hperm : Permutation decls sorted).
  { apply (zsortanyfunc.SortFunc_classes compareDecls (fun _ => false)
             decls sorted); [|exact Hs].
    intros a b c _. split; auto. }
  split; [exact Hperm|]. symmetry.
  apply (sorted_rearrangement_unique OriginalOrder).
  - apply StronglySorted_filter. exact Horders.
  - apply filter_sorted_by_places. intros i j x y Hij Hx Hy Px Py.
    destruct (Z.le_gt_cases (OriginalOrder x) (OriginalOrder y)) as [|Hgt];
      [assumption|exfalso].
    pose proof (zsortanyfunc.SortFunc_classes compareDecls
      (fun d => negb (lowUpTo (declOrder t) (OriginalOrder y) d))
      decls sorted (compareDecls_lowUpTo _ _) Hs) as [_ Hclasses].
    specialize (Hclasses i j x y Hij Hx Hy).
    unfold hasTok in Px, Py. apply Token_eqb_eq in Px, Py.
    unfold lowUpTo in Hclasses. rewrite Px, Py in Hclasses.
    rewrite Z.ltb_irrefl, Z.eqb_refl in Hclasses. cbn [orb andb] in Hclasses.
    destruct (Z.leb_spec (OriginalOrder x) (OriginalOrder y)); [lia|].
    rewrite Z.leb_refl in Hclasses.
    destruct Ht as [->|[->| ->]]; cbn [negb] in Hclasses;
      discriminate (Hclasses eq_refl).
  - now apply Permutation_filter.
Qed.

Lemma joined_newlines (ss : list bytes) (sep : bytes) :
  ss <> [] -> joined ss sep ++ sep = List.concat (map (fun s => s ++ sep) ss).
Proof.
  induction ss as [|s [|s' ss] IH]; intros Hne;
    [congruence | cbn; now rewrite app_nil_r |].
  change (joined (s :: s' :: ss) sep) with (s ++ sep ++ joined (s' :: ss) sep).
  cbn [map List.concat] in *. rewrite <- !app_assoc. f_equal. f_equal.
  rewrite IH by discriminate. now rewrite <- app_assoc.
Qed.

(** C8.  For every input on which [Format] returns: the output is the
    untouched bytes before the first declaration's span, then the
    declarations' texts in the sorted sequence, each followed by a newline
    (the last one by the rest of the output); that sequence is a
    rearrangement of the extracted declarations in which the imports stand
    in the order they had in the input, and so do the constants and the
    variables.  The sort is the one of the Go library, also for the files of
    more than [maxInsertion] declarations, and nothing is assumed of the
    comparator. *)
Theorem Format_keeps_stable_groups (h h' : store) (file : File)
    (src out : slice) :
  slice_wf h src ->
  Format pdqsort h file src = Some (h', out) ->
  (Decls file = [] /\ contents h' out = contents h src) \/
  exists decls firstDecl sorted head body tailBytes,
    getDecls h file src = Some decls /\
    hd_error decls = Some firstDecl /\
    reslice src 0 (nodePos firstDecl - 1) = Some head /\
    SortFunc pdqsort compareDecls decls = Some sorted /\
    Permutation decls sorted /\
    (forall t, stableToken t ->
       filter (hasTok t) sorted = filter (hasTok t) decls) /\
    body ++ newline =
      List.concat (map (fun r => contents h (Text r) ++ newline) sorted) /\
    contents h' out = contents h head ++ body ++ tailBytes.
Proof.
  intros Hwf H. destruct (Decls file) as [|d0 ds] eqn:Hds.
  - left. split; [reflexivity|]. unfold Format in H. rewrite Hds in H.
    injection H as <- <-. unfold bytesClone. apply contents_alloc.
  - right.
    destruct (Format_shape pdqsort h h' file src out Hwf) as
      (decls & firstDecl & sorted & head & tail & Hd & Hf & Hs & Hhead & _ & _
         & Hc); [congruence | exact H |].
    cbn zeta in Hc.
    pose proof (getDecls_orders _ _ _ _ Hd) as Horders.
    assert (Hgroups : Permutation decls sorted /\
              forall t, stableToken t ->
                filter (hasTok t) sorted = filter (hasTok t) decls).
    { pose proof Hs as Hs'. unfold SortFunc in Hs.
      destruct (Nat.leb_spec (List.length decls) maxInsertion) as [Hsmall|Hlarge].
      - split; [now apply insertionSortCmpFunc_perm in Hs|].
        intros t Ht.
        eapply insertionSortCmpFunc_filter with (key := OriginalOrder);
          [|exact Horders|exact Hs].
        intros x y. now apply compareDecls_stable.
      - split.
        + destruct (pdqsort_keeps_stable_groups IMPORT decls sorted)
            as [Hp _]; auto. now left.
        + intros t Ht.
          destruct (pdqsort_keeps_stable_groups t decls sorted) as [_ Hg]; auto. }
    destruct Hgroups as [Hperm Hgroups].
    exists decls, firstDecl, sorted, head,
      (joined (map (contents h) (map Text sorted)) newline).
    eexists. repeat split; try assumption; [|exact Hc].
    rewrite joined_newlines, !map_map; [reflexivity|].
    destruct decls as [|r decls]; [discriminate|].
    intros Hnil. apply map_eq_nil, map_eq_nil in Hnil. subst sorted.
    now apply Permutation_sym, Permutation_nil in Hperm.
Qed.

Lemma Format_keeps_stable_groups_witness :
  exists h' out,
    Format pdqsort (storeOf Long.src 0) Long.file (srcOf Long.src 0)
      = Some (h', out) /\
    string_of_list_ascii (contents h' out) = Long.src' /\
    ((Decls Long.file = [] /\
      contents h' out = contents (storeOf Long.src 0) (srcOf Long.src 0)) \/
     exists decls firstDecl sorted head body tailBytes,
       getDecls (storeOf Long.src 0) Long.file (srcOf Long.src 0)
         = Some decls /\
       hd_error decls = Some firstDecl /\
       reslice (srcOf Long.src 0) 0 (nodePos firstDecl - 1) = Some head /\
       SortFunc pdqsort compareDecls decls = Some sorted /\
       Permutation decls sorted /\
       (forall t, stableToken t ->
          filter (hasTok t) sorted = filter (hasTok t) decls) /\
       body ++ newline =
         List.concat (map (fun r => contents (storeOf Long.src 0) (Text r)
                               ++ newline) sorted) /\
       contents h' out =
         contents (storeOf Long.src 0) head ++ body ++ tailBytes).
Proof.
  do 2 eexists. split; [vm_compute; reflexivity|].
  split; [vm_compute; reflexivity|].
  apply Format_keeps_stable_groups.
  - apply storeOf_wf.
  - vm_compute. reflexivity.
Defined.

(** ** A comment block behind the last declaration *)

Module Block.
Definition src : string := "package p

var a = 1
var b = 2/*/ x
func f() {}
// */
".
Definition file : File := pkg "p"
  [GenDecl 12 21 VAR [ValueSpec]; GenDecl 22 31 VAR [ValueSpec]]
  [mkComment 31 54].

(** What [Format] returns for [src], and its tree: the block comment has
    become a line comment, and the function in it a declaration. *)
Definition src' : string := "package p

var a = 1

var b = 2/// x
func f() {}
// */
".
Definition file' : File := pkg "p"
  [GenDecl 12 21 VAR [ValueSpec]; GenDecl 23 32 VAR [ValueSpec];
   FuncDecl 38 49 None "f"]
  [mkComment 32 37; mkComment 50 55].

Lemma block_positions :
  textAt src 12 21 = "var a = 1"%string /\
  textAt src 22 31 = "var b = 2"%string /\
  textAt src 31 54 = "/*/ x
func f() {}
// */"%string /\
  textAt src' 12 21 = "var a = 1"%string /\
  textAt src' 23 32 = "var b = 2"%string /\
  textAt src' 32 37 = "/// x"%string /\
  textAt src' 38 49 = "func f() {}"%string /\
  textAt src' 50 55 = "// */"%string.
Proof. repeat split. Qed.
End Block.

(** The (category, name, receiver type) triples of the declarations of a
    file. *)
Definition extractedTriples (file : File) (s : string)
  : option (list (Token * option string * option string)) :=
  option_map (map triple) (getDecls (storeOf s 0) file (srcOf s 0)).

(** C6, at a failing input.  The two variables stand on consecutive lines
    and a block comment follows the second one directly.  The joined texts
    are one byte longer than the stretch they replace; written over [src]
    in place they replace the star of the comment's opening by a slash
    before [src[lastDeclEnd:]] is read.  In the returned text the comment
    is a line comment that ends with its line, and the function that stood
    inside the comment is a declaration: the output has three
    declarations, the input two. *)
Theorem Format_output_gains_declaration :
  formatted Block.file Block.src 0 = Some Block.src' /\
  extractedTriples Block.file Block.src =
    Some [(VAR, Some EmptyString, Some EmptyString);
          (VAR, Some EmptyString, Some EmptyString)] /\
  extractedTriples Block.file' Block.src' =
    Some [(VAR, Some EmptyString, Some EmptyString);
          (VAR, Some EmptyString, Some EmptyString);
          (FUNC, Some "f"%string, Some EmptyString)].
Proof. repeat split; vm_compute; reflexivity. Qed.
